(** * Stock GRU demo: the numeric pipeline, embedded and checked

    A shallow embedding of the data loader (gap filling, scaling, feature
    cube, windowed dataset), of the plateau learning-rate controller and of
    the prediction analysis of the repository, followed by the theorems
    about them.

    JavaScript numbers are IEEE-754 binary64 values.  They are modelled by
    the standard library's [spec_float] with precision 53 and maximal
    exponent 1024, whose operations round to nearest, ties to even, as the
    JavaScript operators do. *)

From Stdlib Require Import ZArith SpecFloat Sorted Ascii.
From stdpp Require Import base tactics option list gmap strings.

Local Open Scope Z_scope.

(** ** JavaScript numbers *)

Module JsNum.

Abbreviation num := spec_float.

Definition prec : Z := 53.
Definition emax : Z := 1024.

Definition add : num -> num -> num := SFadd prec emax.
Definition sub : num -> num -> num := SFsub prec emax.
Definition mul : num -> num -> num := SFmul prec emax.
Definition div : num -> num -> num := SFdiv prec emax.
Definition sqrt : num -> num := SFsqrt prec emax.

(** [a < b], [a <= b] and [a === b] on numbers. *)
Definition ltb : num -> num -> bool := SFltb.
Definition leb : num -> num -> bool := SFleb.
Definition eqb : num -> num -> bool := SFeqb.

Definition NaN : num := S754_nan.
Definition POSITIVE_INFINITY : num := S754_infinity false.
Definition NEGATIVE_INFINITY : num := S754_infinity true.
Definition zero : num := S754_zero false.

(** The number of an integer: exact below 2^53, rounded above. *)
Definition ofZ (z : Z) : num := binary_normalize prec emax z 0 false.

(** Decimal literals of the sources, as the nearest binary64 value. *)
Definition one : num := S754_finite false 4503599627370496 (-52).
Definition three : num := S754_finite false 6755399441055744 (-51).
(** 0.5 *)
Definition half : num := S754_finite false 4503599627370496 (-53).
(** 0.1 = 0x1.999999999999ap-4 *)
Definition tenth : num := S754_finite false 7205759403792794 (-56).
(** 0.8 = 0x1.999999999999ap-1 *)
Definition lit_0_8 : num := S754_finite false 7205759403792794 (-53).
(** 1e-3 = 0x1.0624dd2f1a9fcp-10 *)
Definition lit_1e_3 : num := S754_finite false 4611686018427388 (-62).
(** 1e-4 = 0x1.a36e2eb1c432dp-14 *)
Definition lit_1e_4 : num := S754_finite false 7378697629483821 (-66).
(** 1e-5 = 0x1.4f8b588e368f1p-17 *)
Definition lit_1e_5 : num := S754_finite false 5902958103587057 (-69).
(** 1e-12 = 0x1.19799812dea11p-40 *)
Definition lit_1e_12 : num := S754_finite false 4951760157141521 (-92).
(** Number.MAX_VALUE = 0x1.fffffffffffffp+1023 *)
Definition MAX_VALUE : num := S754_finite false 9007199254740991 971.

Definition isNaN (x : num) : bool :=
  match x with S754_nan => true | _ => false end.

(** [Number.isFinite] on a number. *)
Definition isFiniteNum (x : num) : bool :=
  match x with
  | S754_zero _ | S754_finite _ _ _ => true
  | S754_infinity _ | S754_nan => false
  end.

(** [Number.isFinite] on the result of an array read: [undefined] (an
    index outside the array) is not finite. *)
Definition isFinite (v : option num) : bool :=
  match v with Some x => isFiniteNum x | None => false end.

Definition isNegZero (x : num) : bool :=
  match x with S754_zero true => true | _ => false end.
Definition isPosZero (x : num) : bool :=
  match x with S754_zero false => true | _ => false end.

(** [Math.min(...xs)] as ECMAScript defines it: NaN if an argument is
    NaN, else the least argument with -0 below +0, and +Infinity for no
    argument. *)
Definition min_step (lowest number : num) : num :=
  if isNegZero number && isPosZero lowest then number
  else if ltb number lowest then number else lowest.

Definition Math_min (xs : list num) : num :=
  if existsb isNaN xs then NaN
  else fold_left min_step xs POSITIVE_INFINITY.

Definition max_step (highest number : num) : num :=
  if isPosZero number && isNegZero highest then number
  else if ltb highest number then number else highest.

Definition Math_max (xs : list num) : num :=
  if existsb isNaN xs then NaN
  else fold_left max_step xs NEGATIVE_INFINITY.

(** [array[i]] for a numeric index that may be negative or too large. *)
Definition get {A} (array : list A) (i : Z) : option A :=
  if i <? 0 then None else array !! Z.to_nat i.

End JsNum.
Import JsNum.

(** ** data-loader.js: gap filling and scaling *)

(** One pass of [fillMissingValues]: the array is walked once, carrying
    [lastValid]; a position that is not finite takes [lastValid] when
    there is one.  Each position is read before it is written and written
    at most once, so the in-place loop is this map with a carried state. *)
Fixpoint fillPass (lastValid : option num) (array : list num) : list num :=
  match array with
  | [] => []
  | value :: rest =>
      if isFiniteNum value then value :: fillPass (Some value) rest
      else match lastValid with
           | Some v => v :: fillPass lastValid rest
           | None => value :: fillPass lastValid rest
           end
  end.

(** The first loop runs upwards, the second downwards. *)
Definition fillMissingValues (array : list num) : list num :=
  reverse (fillPass None (reverse (fillPass None array))).

(** What [lastValid] holds after one pass has walked over [walked]. *)
Definition lastFinite (lastValid : option num) (walked : list num) : option num :=
  fold_left (fun acc x => if isFiniteNum x then Some x else acc) walked lastValid.

(** [Math.min(...filtered)] and [Math.max(...filtered)] pass one argument
    for each finite value.  The model gives what the two calls return; an
    engine throws a RangeError instead when the series is longer than the
    argument list it accepts, a length that the language does not fix and
    that the model does not show. *)
Definition minMaxScale (series : list num) : list num :=
  let filtered := List.filter isFiniteNum series in
  let min := Math_min filtered in
  let max := Math_max filtered in
  if negb (isFiniteNum min) || negb (isFiniteNum max) || eqb min max
  then map (fun _ => zero) series
  else map (fun value => div (sub value min) (sub max min)) series.

(** [reduce((acc, value) => acc + g(value), 0)]. *)
Definition sumBy (g : num -> num) (xs : list num) : num :=
  fold_left (fun acc value => add acc (g value)) xs zero.

(** [x ** 2] is the correctly rounded square. *)
Definition square (x : num) : num := mul x x.

Definition standardScale (series : list num) : list num :=
  let filtered := List.filter isFiniteNum series in
  if (length filtered =? 0)%nat then map (fun _ => zero) series
  else
    let n := ofZ (Z.of_nat (length filtered)) in
    let mean := div (sumBy (fun value => value) filtered) n in
    let variance := div (sumBy (fun value => square (sub value mean)) filtered) n in
    let std := sqrt variance in
    if negb (isFiniteNum std) || eqb std zero then map (fun _ => zero) series
    else map (fun value => if isFiniteNum value then div (sub value mean) std
                           else zero) series.

(** ** Binary64 seen on integers

    The statements about ranges need the order and the rounding of
    binary64.  A finite number [m 2^e] with [e >= -1074] is the integer
    [scaled] in units of [2^-1074]; [good] holds of the numbers a
    JavaScript engine can hold (finite, with the mantissa and exponent of
    binary64). *)

Definition scaled (x : num) : Z :=
  match x with
  | S754_finite s m e => (if s then Z.neg m else Z.pos m) * 2 ^ (e + 1074)
  | _ => 0
  end.

Definition good (x : num) : bool := isFiniteNum x && valid_binary prec emax x.

(** [K / 2^n] rounded to the nearest integer, ties to even. *)
Definition rne (K n : Z) : Z :=
  let q := K / 2 ^ n in
  match 2 * (K mod 2 ^ n) ?= 2 ^ n with
  | Lt => q
  | Eq => if Z.even q then q else q + 1
  | Gt => q + 1
  end.

(** A positive integer rounded to 53 significant bits. *)
Definition RN (K : Z) : Z :=
  let k := Z.max 0 (Z.log2 K + 1 - 53) in rne K k * 2 ^ k.

(** The result of rounding the positive number that [K] stands for:
    the finite number that stands for [RN K], or +Infinity when [RN K]
    is beyond the largest finite number. *)
Definition roundsTo (K : Z) (r : num) : Prop :=
  match r with
  | S754_finite false M e2 =>
      bounded prec emax M e2 = true /\ Z.pos M * 2 ^ (e2 + 1074) = RN K
  | S754_infinity false => 2 ^ 2098 <= RN K
  | _ => False
  end.

(** [0 <= y <= 1] with the comparisons of the language. *)
Definition inUnit (y : num) : bool := leb zero y && leb y one.

(** ** data-loader.js: the loader and its feature cube *)

Inductive FeatureKey := Open | Close | Return | Momentum3 | Volatility5.

Definition FEATURE_KEYS : list FeatureKey :=
  [Open; Close; Return; Momentum3; Volatility5].

(** The object stored per symbol: one series per feature key. *)
Record Features := {
  series_Open : list num;
  series_Close : list num;
  series_Return : list num;
  series_Momentum3 : list num;
  series_Volatility5 : list num
}.

Definition feature (f : Features) (key : FeatureKey) : list num :=
  match key with
  | Open => series_Open f
  | Close => series_Close f
  | Return => series_Return f
  | Momentum3 => series_Momentum3 f
  | Volatility5 => series_Volatility5 f
  end.

Record Row := { date : string; symbol : string; open : num; close : num }.

Record DataLoader := {
  sequenceLength : Z;
  predictionHorizon : Z;
  trainSplit : num;
  rows : list Row;
  symbols : list string;
  dates : list string;
  featureCube : gmap string Features;
  normalisedCube : gmap string Features;
  featuresPerSymbol : list FeatureKey
}.

(** [new Set()] followed by [add]: distinct values in insertion order. *)
Definition Set_add (x : string) (s : list string) : list string :=
  if decide (x ∈ s) then s else s ++ [x].

(** [Array.prototype.sort] is stable; with a consistent comparator it is
    this insertion sort, [le a b] standing for "the comparator does not
    put [b] before [a]". *)
Fixpoint insertSorted {A} (le : A -> A -> bool) (x : A) (l : list A) : list A :=
  match l with
  | [] => [x]
  | y :: l' => if le x y then x :: y :: l' else y :: insertSorted le x l'
  end.

Definition sortBy {A} (le : A -> A -> bool) (l : list A) : list A :=
  foldr (insertSorted le) [] l.

(** The series derived from the filled closes. *)
Definition ratioTo (value : num) (reference : option num) : num :=
  match reference with
  | Some r =>
      if negb (isFiniteNum value) || negb (isFiniteNum r) || eqb r zero then zero
      else div (sub value r) r
  | None => zero
  end.

Definition returnsOf (closes : list num) : list num :=
  imap (fun index value =>
          if (index =? 0)%nat then zero
          else ratioTo value (closes !! (index - 1)%nat)) closes.

Definition momentum3Of (closes : list num) : list num :=
  imap (fun index value =>
          if (index <? 3)%nat then zero
          else ratioTo value (closes !! (index - 3)%nat)) closes.

Definition volatility5Of (closes : list num) : list num :=
  imap (fun index _ =>
          if (index <? 4)%nat then zero
          else
            let window := take 5 (drop (index - 4)%nat closes) in
            if existsb (fun v => negb (isFiniteNum v)) window then zero
            else
              let n := ofZ (Z.of_nat (length window)) in
              let mean := div (sumBy (fun v => v) window) n in
              if negb (isFiniteNum mean) || eqb mean zero then zero
              else
                let variance := div (sumBy (fun v => square (sub v mean)) window) n in
                let std := sqrt variance in
                if negb (isFiniteNum std) then zero else div std mean) closes.

Section FeatureCube.

(** [timeValue a] is the time value of [new Date(a)].  The rows hold dates
    that [normaliseDateString] produced, which throws on anything [Date]
    cannot read, so the time value is a number. *)
Variable timeValue : string -> Z.

Definition dateSetOf (rs : list Row) : list string :=
  fold_left (fun s r => Set_add (date r) s) rs [].

Definition symbolSetOf (rs : list Row) : list string :=
  fold_left (fun s r => Set_add (symbol r) s) rs [].

Definition sortDates (ds : list string) : list string :=
  sortBy (fun a b => timeValue a <=? timeValue b) ds.

Definition sortSymbols (ss : list string) : list string :=
  sortBy String.leb ss.

Definition blankFeatures (n : nat) : Features :=
  {| series_Open := replicate n NaN;
     series_Close := replicate n NaN;
     series_Return := replicate n NaN;
     series_Momentum3 := replicate n NaN;
     series_Volatility5 := replicate n NaN |}.

Definition blankCube (ss : list string) (n : nat) : gmap string Features :=
  fold_left (fun cube s => <[s := blankFeatures n]> cube) ss ∅.

Definition dateIndexOf (ds : list string) : gmap string nat :=
  fold_left (fun acc p => <[p.2 := p.1]> acc) (imap (fun idx d => (idx, d)) ds) ∅.

Definition finiteOrNaN (v : num) : num := if isFiniteNum v then v else NaN.

(** The body of the second [rows.forEach]: a row of an unknown symbol is
    left out; the date of a row is always in the index. *)
Definition scatterRow (dateIndex : gmap string nat)
    (cube : gmap string Features) (r : Row) : gmap string Features :=
  match cube !! symbol r, dateIndex !! date r with
  | Some target, Some idx =>
      <[symbol r :=
          {| series_Open := <[idx := finiteOrNaN (open r)]> (series_Open target);
             series_Close := <[idx := finiteOrNaN (close r)]> (series_Close target);
             series_Return := series_Return target;
             series_Momentum3 := series_Momentum3 target;
             series_Volatility5 := series_Volatility5 target |}]> cube
  | _, _ => cube
  end.

(** The body of the third loop: fill Open and Close in place, then derive
    the three other series from the filled closes. *)
Definition deriveFeatures (f : Features) : Features :=
  let closes := fillMissingValues (series_Close f) in
  {| series_Open := fillMissingValues (series_Open f);
     series_Close := closes;
     series_Return := returnsOf closes;
     series_Momentum3 := momentum3Of closes;
     series_Volatility5 := volatility5Of closes |}.

Definition normaliseFeatures (f : Features) : Features :=
  {| series_Open := minMaxScale (series_Open f);
     series_Close := minMaxScale (series_Close f);
     series_Return := standardScale (series_Return f);
     series_Momentum3 := standardScale (series_Momentum3 f);
     series_Volatility5 := standardScale (series_Volatility5 f) |}.

(** [this.symbols.forEach(symbol => { ... this.featureCube[symbol] ... })],
    updating the entry of each symbol in place; every symbol is a key of
    the cube when the loop runs. *)
Definition updateEachSymbol (g : Features -> Features) (ss : list string)
    (cube : gmap string Features) : gmap string Features :=
  fold_left (fun acc s =>
               match acc !! s with
               | Some f => <[s := g f]> acc
               | None => acc
               end) ss cube.

(** [this.symbols.forEach(symbol => { target[symbol] = g(source[symbol]) })]
    into a fresh object. *)
Definition mapEachSymbol (g : Features -> Features) (ss : list string)
    (source : gmap string Features) : gmap string Features :=
  fold_left (fun acc s =>
               match source !! s with
               | Some f => <[s := g f]> acc
               | None => acc
               end) ss ∅.

(** [buildFeatureCube()] updates the loader; its body has no [throw] and
    no read that can fail, so it always returns. *)
Definition buildFeatureCube (l : DataLoader) : DataLoader :=
  let dates' := sortDates (dateSetOf (rows l)) in
  let symbols' := sortSymbols (symbolSetOf (rows l)) in
  let blank := blankCube symbols' (length dates') in
  let dateIndex := dateIndexOf dates' in
  let scattered := fold_left (scatterRow dateIndex) (rows l) blank in
  let cube := updateEachSymbol deriveFeatures symbols' scattered in
  {| sequenceLength := sequenceLength l;
     predictionHorizon := predictionHorizon l;
     trainSplit := trainSplit l;
     rows := rows l;
     symbols := symbols';
     dates := dates';
     featureCube := cube;
     normalisedCube := mapEachSymbol normaliseFeatures symbols' cube;
     featuresPerSymbol := featuresPerSymbol l |}.

End FeatureCube.

(** ** data-loader.js: the windowed dataset *)

Inductive error := TypeError | Error (message : string).

(** What a call gives back: a value, or the exception it throws. *)
Inductive outcome (A : Type) := Ok (a : A) | Throw (e : error).
Arguments Ok {A} a.
Arguments Throw {A} e.

Definition obind {A B} (m : outcome A) (k : A -> outcome B) : outcome B :=
  match m with Ok a => k a | Throw e => Throw e end.

(** What the body of the anchor loop gives: the parts of a sample, or
    [valid = false] (the anchor is skipped), or an exception. *)
Inductive window (A : Type) := Valid (a : A) | Invalid | Raise (e : error).
Arguments Valid {A} a.
Arguments Invalid {A}.
Arguments Raise {A} e.

Definition wbind {A B} (m : window A) (k : A -> window B) : window B :=
  match m with Valid a => k a | Invalid => Invalid | Raise e => Raise e end.

(** A loop that leaves at the first iteration that is not valid. *)
Fixpoint traverse {A B} (body : A -> window B) (xs : list A) : window (list B) :=
  match xs with
  | [] => Valid []
  | x :: rest =>
      wbind (body x) (fun y =>
      wbind (traverse body rest) (fun ys => Valid (y :: ys)))
  end.

Definition readFinite (v : option num) : window num :=
  match v with
  | Some x => if isFiniteNum x then Valid x else Invalid
  | None => Invalid
  end.

(** An integral JavaScript number: what [Math.floor] returns. *)
Inductive integral := Int (z : Z) | Inf (negative : bool) | NotANumber.

Definition Math_floor (x : num) : integral :=
  match x with
  | S754_nan => NotANumber
  | S754_infinity s => Inf s
  | S754_zero _ => Int 0
  | S754_finite s m e => Int (Z.shiftl (if s then Z.neg m else Z.pos m) e)
  end.

(** [Math.max(a, b)] and [Math.min(a, b)] on integral numbers. *)
Definition int_max (a b : integral) : integral :=
  match a, b with
  | NotANumber, _ | _, NotANumber => NotANumber
  | Inf false, _ | _, Inf false => Inf false
  | Inf true, x | x, Inf true => x
  | Int x, Int y => Int (Z.max x y)
  end.

Definition int_min (a b : integral) : integral :=
  match a, b with
  | NotANumber, _ | _, NotANumber => NotANumber
  | Inf true, _ | _, Inf true => Inf true
  | Inf false, x | x, Inf false => x
  | Int x, Int y => Int (Z.min x y)
  end.

Definition int_sub (a b : integral) : integral :=
  match a, b with
  | Int x, Int y => Int (x - y)
  | NotANumber, _ | _, NotANumber => NotANumber
  | Inf s, Inf t => if Bool.eqb s t then NotANumber else Inf s
  | Inf s, Int _ => Inf s
  | Int _, Inf t => Inf (negb t)
  end.

(** [tensor.slice([begin, 0, ...], [size, ...])] along the first axis, as
    TensorFlow.js defines it: the [size] rows from [begin] on, and an
    exception when the two are not integers inside the tensor. *)
Definition tf_slice {A} (begin size : integral) (xs : list A) : outcome (list A) :=
  match begin, size with
  | Int b, Int n =>
      if (0 <=? b) && (0 <=? n) && (b + n <=? Z.of_nat (length xs))
      then Ok (take (Z.to_nat n) (drop (Z.to_nat b) xs))
      else Throw (Error "slice: begin and size are outside the tensor")
  | _, _ => Throw (Error "slice: begin and size are outside the tensor")
  end.

Record Sample := {
  sequence : list (list num);
  targetVector : list num;
  sampleDate : option string
}.

Record Dataset := {
  X_train : list (list (list num));
  X_test : list (list (list num));
  y_train : list (list num);
  y_test : list (list num);
  sampleDates : list (option string);
  splitIndex : integral
}.

(** The innermost two loops: the values of every feature of every symbol
    at one date index. *)
Definition timestepAt (l : DataLoader) (index : Z) : window (list num) :=
  wbind
    (traverse (fun symbol =>
       traverse (fun featureKey =>
                   match normalisedCube l !! symbol with
                   | None => Raise TypeError
                   | Some f => readFinite (get (feature f featureKey) index)
                   end) (featuresPerSymbol l)) (symbols l))
    (fun parts => Valid (concat parts)).

(** [offset] runs from [sequenceLength - 1] down to 0. *)
Definition sequenceAt (l : DataLoader) (anchor : Z) : window (list (list num)) :=
  traverse (fun offset => timestepAt l (anchor - offset))
    (reverse (seqZ 0 (sequenceLength l))).

Definition labelOf (baselineClose futureClose : num) : num :=
  if ltb baselineClose futureClose then one else zero.

Definition targetAt (l : DataLoader) (anchor : Z) : window (list num) :=
  wbind
    (traverse (fun symbol =>
       match featureCube l !! symbol with
       | None => Raise TypeError
       | Some f =>
           wbind (readFinite (get (series_Close f) anchor)) (fun baselineClose =>
           traverse (fun horizon =>
                       wbind (readFinite (get (series_Close f) (anchor + horizon)))
                         (fun futureClose => Valid (labelOf baselineClose futureClose)))
             (seqZ 1 (predictionHorizon l)))
       end) (symbols l))
    (fun parts => Valid (concat parts)).

(** The body of the anchor loop. *)
Definition sampleAt (l : DataLoader) (anchor : Z) : window Sample :=
  wbind (sequenceAt l anchor) (fun sequence =>
  wbind (targetAt l anchor) (fun targetVector =>
  Valid {| sequence := sequence;
           targetVector := targetVector;
           sampleDate := get (dates l) anchor |})).

(** The anchor loop: valid anchors push a sample, the others are skipped. *)
Fixpoint collect {A B} (body : A -> window B) (xs : list A) : outcome (list B) :=
  match xs with
  | [] => Ok []
  | x :: rest =>
      match body x with
      | Valid y => obind (collect body rest) (fun ys => Ok (y :: ys))
      | Invalid => collect body rest
      | Raise e => Throw e
      end
  end.

(** The anchors [sequenceLength - 1 <= anchor < dates.length - predictionHorizon]. *)
Definition anchorsOf (l : DataLoader) : list Z :=
  seqZ (sequenceLength l - 1)
    (Z.of_nat (length (dates l)) - predictionHorizon l - (sequenceLength l - 1)).

Definition windowsOf (l : DataLoader) : outcome (list Sample) :=
  collect (sampleAt l) (anchorsOf l).

Definition splitIndexOf (n : Z) (trainSplit : num) : integral :=
  let rawSplit := Math_floor (mul (ofZ n) trainSplit) in
  int_min (Int (n - 1)) (int_max (Int 1) rawSplit).

(** [createWindowedDataset()].  The two calls of [tf.tensor] are given
    the shapes [n, sequenceLength, featuresPerStep] and
    [n, numSymbols * predictionHorizon], which are the shapes of the two
    arrays when [sequenceLength >= 1] and [predictionHorizon >= 0]; this
    is the case that the model covers.  With a negative [sequenceLength]
    or [predictionHorizon] TensorFlow.js rejects the shape, which the
    model does not show.  The tensors hold the numbers as float32; the
    model keeps the numbers of the arrays. *)
Definition createWindowedDataset (l : DataLoader) : outcome Dataset :=
  obind (windowsOf l) (fun samples =>
  let n := Z.of_nat (length samples) in
  if n =? 0
  then Throw (Error "Unable to construct any sequences. Please provide a longer time series.")
  else if n <? 2
  then Throw (Error "Not enough samples to create a train/test split.")
  else
    let X := map sequence samples in
    let y := map targetVector samples in
    let splitIndex := splitIndexOf n (trainSplit l) in
    obind (tf_slice (Int 0) splitIndex X) (fun X_train =>
    obind (tf_slice splitIndex (int_sub (Int n) splitIndex) X) (fun X_test =>
    obind (tf_slice (Int 0) splitIndex y) (fun y_train =>
    obind (tf_slice splitIndex (int_sub (Int n) splitIndex) y) (fun y_test =>
    Ok {| X_train := X_train;
          X_test := X_test;
          y_train := y_train;
          y_test := y_test;
          sampleDates := map sampleDate samples;
          splitIndex := splitIndex |}))))).

(** What [prepareDataset] returns: the dataset and the loader's summary. *)
Record Bundle := {
  dataset : Dataset;
  bundle_symbols : list string;
  bundle_sequenceLength : Z;
  predictionDays : Z;
  bundle_featuresPerSymbol : list FeatureKey;
  totalDates : nat;
  totalRows : nat
}.

Definition prepareDataset (timeValue : string -> Z) (l : DataLoader)
    : DataLoader * outcome Bundle :=
  let l' := buildFeatureCube timeValue l in
  (l', obind (createWindowedDataset l') (fun d =>
         Ok {| dataset := d;
               bundle_symbols := symbols l';
               bundle_sequenceLength := sequenceLength l';
               predictionDays := predictionHorizon l';
               bundle_featuresPerSymbol := featuresPerSymbol l';
               totalDates := length (dates l');
               totalRows := length (rows l') |})).

(** "No missing value anywhere": every series the window loop reads has
    one finite value per date. *)
Definition seriesComplete (n : nat) (series : list num) : bool :=
  (length series =? n)%nat && forallb isFiniteNum series.

Definition noMissing (l : DataLoader) : bool :=
  forallb (fun symbol =>
             match normalisedCube l !! symbol, featureCube l !! symbol with
             | Some nf, Some f =>
                 forallb (fun key => seriesComplete (length (dates l)) (feature nf key))
                   (featuresPerSymbol l)
                 && seriesComplete (length (dates l)) (series_Close f)
             | _, _ => false
             end) (symbols l).

(** D - L - H + 1 for the loader's dates, sequence length and horizon. *)
Definition windowCount (l : DataLoader) : Z :=
  Z.of_nat (length (dates l)) - sequenceLength l - predictionHorizon l + 1.

(** [clamp(x, lo, hi)] as the specification words it: [x] brought into
    the interval from [lo] to [hi]. *)
Definition clamp (x lo hi : Z) : Z :=
  if x <? lo then lo else if hi <? x then hi else x.

Definition clampIntegral (x : integral) (lo hi : Z) : integral :=
  match x with
  | Int z => Int (clamp z lo hi)
  | Inf true => Int lo
  | Inf false => Int hi
  | NotANumber => NotANumber
  end.

(** ** The first data loader: preprocessData and createSequences *)

Module LegacyLoader.

(** A parsed CSV line; [Open] and [Close] hold what [parseFloat] returns
    for the cell. *)
Record RawRow := { Date : string; Symbol : string; Open : num; Close : num }.

(** The two series of a symbol; [None] is [null]. *)
Record FeatureData := {
  data_Open : list (option num);
  data_Close : list (option num)
}.

Record NormalizedData := { norm_Open : list num; norm_Close : list num }.

Definition symbolsOf (rawData : list RawRow) : list string :=
  fold_left (fun s r => Set_add (Symbol r) s) rawData [].

Definition allDatesOf (rawData : list RawRow) : list string :=
  sortBy String.leb (fold_left (fun s r => Set_add (Date r) s) rawData []).

Definition emptyFeatureData (ss : list string) (n : nat) : gmap string FeatureData :=
  fold_left (fun acc s =>
               <[s := {| data_Open := replicate n None;
                         data_Close := replicate n None |}]> acc) ss ∅.

Definition storeRow (dateIndex : gmap string nat)
    (featureData : gmap string FeatureData) (r : RawRow) : gmap string FeatureData :=
  match featureData !! Symbol r, dateIndex !! Date r with
  | Some d, Some dateIdx =>
      <[Symbol r := {| data_Open := <[dateIdx := Some (Open r)]> (data_Open d);
                       data_Close := <[dateIdx := Some (Close r)]> (data_Close d) |}]>
        featureData
  | _, _ => featureData
  end.

(** The forward fill: only [null] counts as missing. *)
Fixpoint forwardFill (lastValue : option num) (data : list (option num))
    : list (option num) :=
  match data with
  | [] => []
  | Some v :: rest => Some v :: forwardFill (Some v) rest
  | None :: rest => lastValue :: forwardFill lastValue rest
  end.

Definition fillSymbols (ss : list string) (featureData : gmap string FeatureData)
    : gmap string FeatureData :=
  fold_left (fun acc s =>
               match acc !! s with
               | Some d => <[s := {| data_Open := forwardFill None (data_Open d);
                                     data_Close := forwardFill None (data_Close d) |}]> acc
               | None => acc
               end) ss featureData.

(** [val - min] with [val] possibly [null], which counts as 0. *)
Definition numberOf (v : option num) : num :=
  match v with Some x => x | None => zero end.

(** As for [minMaxScale], the model gives what the two spread calls
    return, for a series within the argument list of the engine. *)
Definition minMaxNormalize (data : list (option num)) : list num :=
  let filtered := omap (fun v => v) data in
  let min := Math_min filtered in
  let max := Math_max filtered in
  map (fun v => div (sub (numberOf v) min) (sub max min)) data.

Record Sequences := {
  sequences : list (list (list (option num)));
  targets : list (list num)
}.

(** The fields of the loader; [dateIndex] is kept as the list of its keys,
    the dates in the order of their indices. *)
Record Loader := {
  rawData : list RawRow;
  symbols : list string;
  dateIndex : list string;
  featureData : gmap string FeatureData;
  normalizedData : gmap string NormalizedData
}.

Definition sequenceLength : Z := 12.
Definition predictionDays : Z := 3.

Definition timeStepAt (l : Loader) (j : Z) : list (option num) :=
  concat (map (fun s =>
                 match normalizedData l !! s with
                 | Some d => [get (norm_Open d) j; get (norm_Close d) j]
                 | None => []
                 end) (symbols l)).

(** The label of one future day: 0 when one of the two closes is [null],
    else the comparison (which is false on [undefined]). *)
Definition targetEntry (currentClose futureClose : option (option num)) : num :=
  match futureClose, currentClose with
  | Some None, _ | _, Some None => zero
  | Some (Some f), Some (Some c) => if ltb c f then one else zero
  | _, _ => zero
  end.

Definition targetOf (l : Loader) (i : Z) : list num :=
  concat (map (fun s =>
                 match featureData l !! s with
                 | Some d =>
                     map (fun k => targetEntry (get (data_Close d) i)
                                     (get (data_Close d) (i + k)))
                       (seqZ 1 predictionDays)
                 | None => []
                 end) (symbols l)).

(** The arrays that [createSequences] hands to [tf.tensor3d] and
    [tf.tensor2d]; the slicing that follows is not part of the model. *)
Definition createSequences (l : Loader) : Sequences :=
  let anchors := seqZ sequenceLength
                   (Z.of_nat (length (dateIndex l)) - predictionDays - sequenceLength) in
  {| sequences := map (fun i => map (timeStepAt l) (seqZ (i - sequenceLength) sequenceLength))
                    anchors;
     targets := map (targetOf l) anchors |}.

Definition preprocessData (rawData : list RawRow) : Loader * Sequences :=
  let ss := symbolsOf rawData in
  let allDates := allDatesOf rawData in
  let index := fold_left (fun acc p => <[p.2 := p.1]> acc)
                 (imap (fun idx d => (idx, d)) allDates) (∅ : gmap string nat) in
  let stored := fold_left (storeRow index) rawData
                  (emptyFeatureData ss (length allDates)) in
  let filled := fillSymbols ss stored in
  let normalized :=
    fold_left (fun acc s =>
                 match filled !! s with
                 | Some d => <[s := {| norm_Open := minMaxNormalize (data_Open d);
                                       norm_Close := minMaxNormalize (data_Close d) |}]> acc
                 | None => acc
                 end) ss (∅ : gmap string NormalizedData) in
  let l := {| rawData := rawData; symbols := ss; dateIndex := allDates;
              featureData := filled; normalizedData := normalized |} in
  (l, createSequences l).

End LegacyLoader.

(** ** gru.js: the plateau controller and the prediction analysis *)

Module Gru.

(** The optimizer as the callback sees it: its learning rate, which is a
    number or something [getCurrentLearningRate] answers [null] for. *)
Record Optimizer := { learningRate : option num }.

Definition getCurrentLearningRate (optimizer : option Optimizer) : option num :=
  match optimizer with
  | None => None
  | Some o => learningRate o
  end.

Definition setLearningRate (optimizer : option Optimizer) (value : num)
    : option Optimizer :=
  match optimizer with
  | None => None
  | Some _ => if isFiniteNum value then Some {| learningRate := Some value |}
              else optimizer
  end.

Record PlateauOptions := {
  factor : num;
  patience : Z;
  minDelta : num;
  minLR : num
}.

(** The defaults of the destructured argument (the monitored key aside). *)
Definition defaultOptions : PlateauOptions :=
  {| factor := half; patience := 3; minDelta := lit_1e_4; minLR := lit_1e_5 |}.


(** The two variables the callback closes over. *)
Record Plateau := { best : num; wait : Z }.

Definition createReduceLROnPlateauCallback : Plateau :=
  {| best := POSITIVE_INFINITY; wait := 0 |}.

(** The rate the callback hands to [setLearningRate] for the current rate
    [lr], if it hands one. *)
Definition reducedRate (o : PlateauOptions) (lr : num) : option num :=
  let next := Math_max [mul lr (factor o); minLR o] in
  if ltb next (sub lr lit_1e_12) then Some next else None.

(** [onEpochEnd(epoch, logs)] with [current = logs?.[monitor]]; [None] is
    [null] or [undefined]. *)
Definition onEpochEnd (o : PlateauOptions) (st : Plateau * option Optimizer)
    (current : option num) : Plateau * option Optimizer :=
  let '(p, optimizer) := st in
  match current with
  | None => st
  | Some c =>
      if negb (isFiniteNum c) then st
      else if ltb c (sub (best p) (minDelta o))
      then ({| best := c; wait := 0 |}, optimizer)
      else
        let wait' := wait p + 1 in
        if patience o <=? wait'
        then
          ({| best := best p; wait := 0 |},
           match getCurrentLearningRate optimizer with
           | None => optimizer
           | Some lr =>
               match reducedRate o lr with
               | Some next => setLearningRate optimizer next
               | None => optimizer
               end
           end)
        else ({| best := best p; wait := wait' |}, optimizer)
  end.

(** The state after each epoch of a stream of monitored values. *)
Fixpoint epochs (o : PlateauOptions) (st : Plateau * option Optimizer)
    (stream : list (option num)) : list (Plateau * option Optimizer) :=
  match stream with
  | [] => []
  | current :: rest =>
      let st' := onEpochEnd o st current in st' :: epochs o st' rest
  end.

Record Confusion := { tp : nat; fp : nat; fn : nat; tn : nat }.
Record Totals := { correct : nat; total : nat }.
Record DayFlag := { predicted : nat; actual : option num; flag_correct : bool }.
Record TimelineEntry := {
  correctCount : nat;
  entry_total : nat;
  perDayFlags : list DayFlag
}.

(** The objects and counters that the loops of [analysePredictions] update. *)
Record Tally := {
  perStockTimeline : gmap string (list TimelineEntry);
  perStockTotals : gmap string Totals;
  perStockConfusion : gmap string Confusion;
  globalCorrect : nat;
  globalTotal : nat
}.

Record Report := {
  perStockAccuracy : gmap string num;
  report_perStockTimeline : gmap string (list TimelineEntry);
  report_perStockConfusion : gmap string Confusion;
  overallAccuracy : num
}.

(** [row[offset + day] >= 0.5 ? 1 : 0]; the comparison is false on
    [undefined]. *)
Definition threshold (v : option num) : nat :=
  match v with
  | Some x => if leb half x then 1%nat else 0%nat
  | None => 0%nat
  end.

(** [actual === c] for a number [c]. *)
Definition strictEq (actual : option num) (c : num) : bool :=
  match actual with Some a => eqb a c | None => false end.

Definition numOfFlag (pred : nat) : num := if (pred =? 1)%nat then one else zero.

Definition bump (pred : nat) (actual : option num) (c : Confusion) : Confusion :=
  if (pred =? 1)%nat && strictEq actual one
  then {| tp := tp c + 1; fp := fp c; fn := fn c; tn := tn c |}
  else if (pred =? 1)%nat && strictEq actual zero
  then {| tp := tp c; fp := fp c + 1; fn := fn c; tn := tn c |}
  else if (pred =? 0)%nat && strictEq actual one
  then {| tp := tp c; fp := fp c; fn := fn c + 1; tn := tn c |}
  else {| tp := tp c; fp := fp c; fn := fn c; tn := tn c + 1 |}.

Fixpoint foldM {A S} (body : S -> A -> outcome S) (xs : list A) (s : S) : outcome S :=
  match xs with
  | [] => Ok s
  | x :: rest => obind (body s x) (foldM body rest)
  end.

(** What the day loop carries besides the tally. *)
Record DayLoop := {
  tally : Tally;
  loop_correctCount : nat;
  loop_perDayFlags : list DayFlag
}.

(** The body of the day loop.  [truthRow] is [groundTruthArray[rowIndex]];
    reading an entry of it throws when it is [undefined].  Every symbol is
    a key of the three objects, which the first loop filled. *)
Definition dayStep (symbol : string) (row : list num) (truthRow : option (list num))
    (offset : nat) (st : DayLoop) (day : nat) : outcome DayLoop :=
  match truthRow with
  | None => Throw TypeError
  | Some truth =>
      let pred := threshold (row !! (offset + day)%nat) in
      let actual := truth !! (offset + day)%nat in
      let hit := strictEq actual (numOfFlag pred) in
      let t := tally st in
      Ok {| tally :=
              {| perStockTimeline := perStockTimeline t;
                 perStockTotals := perStockTotals t;
                 perStockConfusion := alter (bump pred actual) symbol (perStockConfusion t);
                 globalCorrect := if hit then (globalCorrect t + 1)%nat else globalCorrect t;
                 globalTotal := (globalTotal t + 1)%nat |};
            loop_correctCount :=
              if hit then (loop_correctCount st + 1)%nat else loop_correctCount st;
            loop_perDayFlags :=
              loop_perDayFlags st ++
                [{| predicted := pred; actual := actual; flag_correct := hit |}] |}
  end.

(** The body of the inner [symbols.forEach((symbol, stockIdx) => ...)]. *)
Definition stockStep (row : list num) (truthRow : option (list num))
    (predictionDays : nat) (t : Tally) (p : nat * string) : outcome Tally :=
  let '(stockIdx, symbol) := p in
  let offset := (stockIdx * predictionDays)%nat in
  obind (foldM (dayStep symbol row truthRow offset) (seq 0 predictionDays)
           {| tally := t; loop_correctCount := 0; loop_perDayFlags := [] |})
    (fun st =>
       let t' := tally st in
       Ok {| perStockTimeline :=
               alter (fun entries =>
                        entries ++ [{| correctCount := loop_correctCount st;
                                       entry_total := predictionDays;
                                       perDayFlags := loop_perDayFlags st |}])
                 symbol (perStockTimeline t');
             perStockTotals :=
               alter (fun c => {| correct := (correct c + loop_correctCount st)%nat;
                                  total := (total c + predictionDays)%nat |})
                 symbol (perStockTotals t');
             perStockConfusion := perStockConfusion t';
             globalCorrect := globalCorrect t';
             globalTotal := globalTotal t' |}).

(** The body of [predictionsArray.forEach((row, rowIndex) => ...)]. *)
Definition rowStep (groundTruthArray : list (list num)) (symbols : list string)
    (predictionDays : nat) (t : Tally) (p : nat * list num) : outcome Tally :=
  let '(rowIndex, row) := p in
  foldM (stockStep row (groundTruthArray !! rowIndex) predictionDays)
    (imap (fun stockIdx symbol => (stockIdx, symbol)) symbols) t.

Definition initialTally (symbols : list string) : Tally :=
  fold_left (fun t symbol =>
               {| perStockTimeline := <[symbol := []]> (perStockTimeline t);
                  perStockTotals := <[symbol := {| correct := 0; total := 0 |}]>
                                      (perStockTotals t);
                  perStockConfusion := <[symbol := {| tp := 0; fp := 0; fn := 0; tn := 0 |}]>
                                         (perStockConfusion t);
                  globalCorrect := globalCorrect t;
                  globalTotal := globalTotal t |})
    symbols
    {| perStockTimeline := ∅; perStockTotals := ∅; perStockConfusion := ∅;
       globalCorrect := 0; globalTotal := 0 |}.

(** [total === 0 ? 0 : correct / total]. *)
Definition accuracyOf (correct total : nat) : num :=
  if (total =? 0)%nat then zero
  else div (ofZ (Z.of_nat correct)) (ofZ (Z.of_nat total)).

(** [obj[key] = value] on a plain object, for a number [value].  The key
    [__proto__] names the accessor of [Object.prototype], whose setter
    ignores a value that is not an object: the assignment sets no
    property.  (The three objects of the tally are assigned objects and
    arrays; under the key [__proto__] the setter keeps such a value as the
    prototype and a read of the key gives it back, as a lookup in the map
    does.) *)
Definition setNumber (obj : gmap string num) (key : string) (value : num)
    : gmap string num :=
  if decide (key = "__proto__"%string) then obj else <[key := value]> obj.

Definition analysePredictions (predictionsArray groundTruthArray : list (list num))
    (symbols : list string) (predictionDays : nat) : outcome Report :=
  obind (foldM (rowStep groundTruthArray symbols predictionDays)
           (imap (fun rowIndex row => (rowIndex, row)) predictionsArray)
           (initialTally symbols))
    (fun t =>
       Ok {| perStockAccuracy :=
               fold_left (fun acc symbol =>
                            match perStockTotals t !! symbol with
                            | Some c => setNumber acc symbol
                                          (accuracyOf (correct c) (total c))
                            | None => acc
                            end) symbols ∅;
             report_perStockTimeline := perStockTimeline t;
             report_perStockConfusion := perStockConfusion t;
             overallAccuracy := accuracyOf (globalCorrect t) (globalTotal t) |}).

(** The confusion counts of a symbol, added up. *)
Definition cells (c : Confusion) : nat := (tp c + fp c + fn c + tn c)%nat.

Definition cellsOf (r : Report) (symbol : string) : nat :=
  match report_perStockConfusion r !! symbol with
  | Some c => cells c
  | None => 0%nat
  end.

(** The confusion counts stored for a symbol, added up (0 when the symbol
    is not a key). *)
Definition cellsAt (conf : gmap string Confusion) (symbol : string) : nat :=
  match conf !! symbol with Some c => cells c | None => 0%nat end.

(** The calls of the days of one symbol in one prediction row. *)
Definition callsOf (row : list num) (stockIdx predictionDays : nat) : list nat :=
  map (fun day => threshold (row !! (stockIdx * predictionDays + day)%nat))
    (seq 0 predictionDays).

(** The calls recorded in the timeline of a symbol, entry by entry. *)
Definition recordedCalls (t : gmap string (list TimelineEntry)) (symbol : string)
    : option (list (list nat)) :=
  map (fun e => map predicted (perDayFlags e)) <$> t !! symbol.

End Gru.

(** ** Sample data for the examples *)

(** The decimal number written at [start] in [s], [len] digits long. *)
Definition digitOf (a : ascii) : Z := Z.of_N (N_of_ascii a) - 48.

Definition numberAt (s : string) (start len : nat) : Z :=
  fold_left (fun acc a => acc * 10 + digitOf a)
    (String.list_ascii_of_string (String.substring start len s)) 0.

(** The days from 1970-01-01 to the day [d] of month [m] of year [y]. *)
Definition daysFromCivil (y m d : Z) : Z :=
  let y' := if m <=? 2 then y - 1 else y in
  let era := y' / 400 in
  let yoe := y' - era * 400 in
  let doy := (153 * (if 2 <? m then m - 3 else m + 9) + 2) / 5 + d - 1 in
  let doe := yoe * 365 + yoe / 4 - yoe / 100 + doy in
  era * 146097 + doe - 719468.

(** The time value of [new Date(s)] for a date [s] in the form YYYY-MM-DD:
    the milliseconds from 1970-01-01 UTC to the start of that day. *)
Definition isoTimeValue (s : string) : Z :=
  daysFromCivil (numberAt s 0 4) (numberAt s 5 2) (numberAt s 8 2) * 86400000.

Definition mkRow (d s : string) (o c : Z) : Row :=
  {| date := d; symbol := s; open := ofZ o; close := ofZ c |}.

Definition loaderOf (L H : Z) (p : num) (rs : list Row) : DataLoader :=
  {| sequenceLength := L; predictionHorizon := H; trainSplit := p; rows := rs;
     symbols := []; dates := []; featureCube := ∅; normalisedCube := ∅;
     featuresPerSymbol := FEATURE_KEYS |}.

(** Five days of one symbol, out of order, and the first two of them. *)
Definition rows5 : list Row :=
  [mkRow "2024-01-03" "A" 10 12; mkRow "2024-01-01" "A" 9 10; mkRow "2024-01-02" "A" 10 11;
   mkRow "2024-01-04" "A" 12 11; mkRow "2024-01-05" "A" 11 13].

Definition rows2 : list Row :=
  [mkRow "2024-01-01" "A" 9 10; mkRow "2024-01-02" "A" 10 11].

Definition loader5 : DataLoader := loaderOf 2 1 lit_0_8 rows5.

(** The samples of [loader5]. *)
Definition samples5 : list Sample :=
  Eval vm_compute in
    match windowsOf (buildFeatureCube isoTimeValue loader5) with
    | Ok samples => samples
    | Throw _ => []
    end.

(** Five days of a symbol whose opens were never read. *)
Definition rowsNoOpen : list Row :=
  map (fun r => {| date := date r; symbol := symbol r; open := NaN; close := close r |})
    rows5.

(** Two days of a symbol that closes at the two ends of the number range. *)
Definition rowsHuge : list Row :=
  [{| date := "2024-01-01"; symbol := "A"; open := ofZ 1; close := SFopp MAX_VALUE |};
   {| date := "2024-01-02"; symbol := "A"; open := ofZ 1; close := MAX_VALUE |}].

Definition rawRow (d s : string) (o c : Z) : LegacyLoader.RawRow :=
  {| LegacyLoader.Date := d; LegacyLoader.Symbol := s;
     LegacyLoader.Open := ofZ o; LegacyLoader.Close := ofZ c |}.

(** Sixteen days of symbol A, and a symbol B that is quoted on the last
    day only. *)
Definition rawA : list LegacyLoader.RawRow :=
  [rawRow "2024-01-01" "A" 10 10; rawRow "2024-01-02" "A" 10 11;
   rawRow "2024-01-03" "A" 11 12; rawRow "2024-01-04" "A" 12 13;
   rawRow "2024-01-05" "A" 13 14; rawRow "2024-01-06" "A" 14 15;
   rawRow "2024-01-07" "A" 15 16; rawRow "2024-01-08" "A" 16 17;
   rawRow "2024-01-09" "A" 17 18; rawRow "2024-01-10" "A" 18 19;
   rawRow "2024-01-11" "A" 19 20; rawRow "2024-01-12" "A" 20 21;
   rawRow "2024-01-13" "A" 21 22; rawRow "2024-01-14" "A" 22 23;
   rawRow "2024-01-15" "A" 23 24; rawRow "2024-01-16" "A" 24 25;
   rawRow "2024-01-16" "B" 5 6].

(** Two prediction rows and their ground truth for two symbols and two days. *)
Definition predictions2 : list (list num) :=
  [[lit_0_8; tenth; half; half]; [tenth; tenth; lit_0_8; lit_0_8]].
Definition truth2 : list (list num) :=
  [[one; zero; one; zero]; [zero; one; one; one]].

(** ** What the analysis keeps true

    The statements about [analysePredictions] follow the tally through
    its loops. *)

Module GruFacts.
Import Gru.

(** The counters of a tally agree with each other: no count of correct
    calls exceeds [tp + tn], which always grows with them, the total of a
    symbol is the number of its confusion cells, and the totals and the
    confusion counts have the same keys. *)
Definition coherent (t : Tally) : Prop :=
  (globalCorrect t <= globalTotal t)%nat
  /\ forall s, match perStockTotals t !! s, perStockConfusion t !! s with
               | Some tot, Some c =>
                   (correct tot <= tp c + tn c)%nat
                   /\ total tot = cells c
                   /\ (total tot <= globalTotal t)%nat
               | None, None => True
               | _, _ => False
               end.

(** The correct calls of every symbol are exactly its [tp + tn]. *)
Definition exactHits (t : Tally) : Prop :=
  forall s tot c,
    perStockTotals t !! s = Some tot -> perStockConfusion t !! s = Some c ->
    correct tot = (tp c + tn c)%nat.

(** A row of labels as [createWindowedDataset] makes them: one entry per
    symbol and day, each 1 or 0. *)
Definition binaryLabels (numSymbols predictionDays : nat) (truthRow : list num) : Prop :=
  forall i, (i < numSymbols * predictionDays)%nat ->
    truthRow !! i = Some one \/ truthRow !! i = Some zero.

End GruFacts.

(** ** data-loader.js: reading the CSV text

    A text is the sequence of its code units; the model holds the code
    units below 256, which covers the separators and the white space that
    the parser looks at. *)

Module Csv.

Definition text := list ascii.

Definition quote : ascii := Eval vm_compute in ascii_of_nat 34.
Definition comma : ascii := Eval vm_compute in ascii_of_nat 44.
Definition LF : ascii := Eval vm_compute in ascii_of_nat 10.
Definition CR : ascii := Eval vm_compute in ascii_of_nat 13.

(** The code units below 256 that [String.prototype.trim] removes: TAB,
    LF, VT, FF, CR, SP and NBSP. *)
Definition isWhite (c : ascii) : bool :=
  let n := nat_of_ascii c in
  ((9 <=? n) && (n <=? 13) || (n =? 32) || (n =? 160))%nat.

Fixpoint dropWhile {A} (p : A -> bool) (l : list A) : list A :=
  match l with
  | [] => []
  | x :: l' => if p x then dropWhile p l' else l
  end.

Definition trim (s : text) : text :=
  reverse (dropWhile isWhite (reverse (dropWhile isWhite s))).

(** The loop of [parseCSVLine] from position [i] on, [line] being what is
    left of the line there.  A quote inside quotes that is followed by a
    quote stands for one quote and both are passed over; any other quote
    opens or closes the quotes. *)
Fixpoint scanLine (line : text) (current : text) (inQuotes : bool)
    (result : list text) : list text :=
  match line with
  | [] => result ++ [trim current]
  | char :: rest =>
      if Ascii.eqb char quote then
        match rest with
        | next :: rest' =>
            if inQuotes && Ascii.eqb next quote
            then scanLine rest' (current ++ [quote]) inQuotes result
            else scanLine rest current (negb inQuotes) result
        | [] => scanLine rest current (negb inQuotes) result
        end
      else if Ascii.eqb char comma && negb inQuotes
      then scanLine rest [] inQuotes (result ++ [trim current])
      else scanLine rest (current ++ [char]) inQuotes result
  end.

Definition parseCSVLine (line : text) : list text := scanLine line [] false [].

(** [s.replace(/\r\n/g, '\n')] and [s.replace(/\r/g, '\n')]. *)
Fixpoint replaceCRLF (s : text) : text :=
  match s with
  | [] => []
  | c :: rest =>
      match rest with
      | next :: rest' =>
          if Ascii.eqb c CR && Ascii.eqb next LF then LF :: replaceCRLF rest'
          else c :: replaceCRLF rest
      | [] => [c]
      end
  end.

Definition replaceCR (s : text) : text :=
  map (fun c => if Ascii.eqb c CR then LF else c) s.

(** [s.split(sep)] for a separator of one code unit; [current] is the
    piece being read. *)
Fixpoint splitOn (sep : ascii) (s : text) (current : text) : list text :=
  match s with
  | [] => [current]
  | c :: rest =>
      if Ascii.eqb c sep then current :: splitOn sep rest []
      else splitOn sep rest (current ++ [c])
  end.

(** The lines of a text that are not blank. *)
Definition linesOf (csvText : text) : list text :=
  List.filter (fun line => (0 <? length (trim line))%nat)
    (splitOn LF (replaceCR (replaceCRLF csvText)) []).

Definition REQUIRED_COLUMNS : list text :=
  map String.list_ascii_of_string ["Date"; "Symbol"; "Open"; "Close"]%string.

Definition includes (headers : list text) (col : text) : bool :=
  bool_decide (col ∈ headers).

(** [missing.join(', ')]. *)
Fixpoint join (sep : string) (parts : list text) : string :=
  match parts with
  | [] => ""
  | [p] => String.string_of_list_ascii p
  | p :: rest => String.string_of_list_ascii p +:+ sep +:+ join sep rest
  end.

(** [columnIndex[col]] for the object that the [reduce] builds: the last
    index at which the header is [col], if there is one. *)
Definition columnIndexOf (headers : list text) (col : text) : option nat :=
  fold_left (fun acc p => if decide (p.2 = col) then Some p.1 else acc)
    (imap (fun index header => (index, header)) headers) None.

(** [values[columnIndex.col]]; [None] is [undefined]. *)
Definition cellOf (headers values : list text) (col : string) : option text :=
  columnIndexOf headers (String.list_ascii_of_string col) ≫= (values !!.).

Section ParseCSV.

(** What the engine supplies: [isoDate s] is the first ten characters of
    [new Date(s).toISOString()], and [None] when the time value of
    [new Date(s)] is NaN; [parseFloat s] is [Number.parseFloat(s)];
    [localeCompare a b] is [a.localeCompare(b)], which orders the
    symbols. *)
Variable isoDate : text -> option string.
Variable parseFloat : text -> num.
Variable localeCompare : string -> string -> Z.

(** [dateString] is [None] for [undefined], which [Date] does not read. *)
Definition normaliseDateString (dateString : option text) : outcome string :=
  match dateString with
  | Some s =>
      match isoDate s with
      | Some d => Ok d
      | None => Throw (Error ("Invalid date encountered: " +:+ String.string_of_list_ascii s))
      end
  | None => Throw (Error "Invalid date encountered: undefined")
  end.

Definition numberOfCell (cell : option text) : num :=
  match cell with Some s => parseFloat s | None => NaN end.

(** What holds of a row that the loop pushes: its symbol is not empty and
    its date is one that [normaliseDateString] returned. *)
Definition readRow (r : Row) : Prop :=
  symbol r <> ""%string /\ exists s, isoDate s = Some (date r).

(** The body of the loop over the lines: the row to push, or [None] when
    the line is passed over, or the exception of [normaliseDateString]. *)
Definition rowOfLine (headers : list text) (line : text) : outcome (option Row) :=
  let values := parseCSVLine line in
  if negb (length values =? length headers)%nat then Ok None
  else
    obind (normaliseDateString (cellOf headers values "Date")) (fun date =>
    let symbol := cellOf headers values "Symbol" in
    let open := numberOfCell (cellOf headers values "Open") in
    let close := numberOfCell (cellOf headers values "Close") in
    match symbol with
    | Some s =>
        if (length s =? 0)%nat then Ok None
        else Ok (Some {| date := date; symbol := String.string_of_list_ascii s;
                         open := open; close := close |})
    | None => Ok None
    end).

(** The loop, with [this.rows] as it stands when the loop is left. *)
Fixpoint parseRows (headers : list text) (lines : list text) (rows : list Row)
    : list Row * outcome unit :=
  match lines with
  | [] => (rows, Ok tt)
  | line :: rest =>
      match rowOfLine headers line with
      | Ok (Some row) => parseRows headers rest (rows ++ [row])
      | Ok None => parseRows headers rest rows
      | Throw e => (rows, Throw e)
      end
  end.

(** The comparator of the last line of [parseCSV] does not put [b] before
    [a]. *)
Definition rowLe (a b : Row) : bool :=
  if String.ltb (date a) (date b) then true
  else if String.ltb (date b) (date a) then false
  else localeCompare (symbol a) (symbol b) <=? 0.

Definition withRows (l : DataLoader) (rs : list Row) : DataLoader :=
  {| sequenceLength := sequenceLength l;
     predictionHorizon := predictionHorizon l;
     trainSplit := trainSplit l;
     rows := rs;
     symbols := symbols l;
     dates := dates l;
     featureCube := featureCube l;
     normalisedCube := normalisedCube l;
     featuresPerSymbol := featuresPerSymbol l |}.

(** [parseCSV(csvText)]: the loader as the call leaves it, and whether the
    call returned. *)
Definition parseCSV (l : DataLoader) (csvText : text) : DataLoader * outcome unit :=
  let lines := linesOf csvText in
  if (length lines <=? 1)%nat then (l, Throw (Error "CSV file is empty."))
  else
    let headers := parseCSVLine (hd [] lines) in
    let missing := List.filter (fun col => negb (includes headers col)) REQUIRED_COLUMNS in
    if (0 <? length missing)%nat
    then (l, Throw (Error ("CSV is missing required columns: " +:+ join ", " missing)))
    else
      match parseRows headers (tl lines) [] with
      | (rs, Throw e) => (withRows l rs, Throw e)
      | (rs, Ok _) =>
          if (length rs =? 0)%nat
          then (withRows l rs,
                Throw (Error "No valid data rows were parsed from the CSV."))
          else (withRows l (sortBy rowLe rs), Ok tt)
      end.

End ParseCSV.

(** Examples: a reader of dates written YYYY-MM-DD, a reader of whole
    numbers, and the order of the code units for the symbols. *)
Definition isDigit (c : ascii) : bool :=
  let n := nat_of_ascii c in ((48 <=? n) && (n <=? 57))%nat.

Definition plainDate (s : text) : option string :=
  match s with
  | [y1; y2; y3; y4; d1; m1; m2; d2; a1; a2] =>
      if Ascii.eqb d1 "-" && Ascii.eqb d2 "-"
         && forallb isDigit [y1; y2; y3; y4; m1; m2; a1; a2]
      then Some (String.string_of_list_ascii s) else None
  | _ => None
  end.

Definition wholeNumber (s : text) : num :=
  if forallb isDigit s && negb (length s =? 0)%nat
  then ofZ (fold_left (fun acc c => acc * 10 + (Z.of_nat (nat_of_ascii c) - 48)) s 0)
  else NaN.

Definition codeUnitCompare (a b : string) : Z :=
  match String.compare a b with Lt => -1 | Eq => 0 | Gt => 1 end.

Definition sampleCsv : text :=
  String.list_ascii_of_string "Symbol,Date,Open,Close,Note" ++ [CR; LF]
  ++ String.list_ascii_of_string "B,2024-01-02,5,6,x" ++ [LF]
  ++ String.list_ascii_of_string "A,2024-01-02,10,11," ++ [quote]
  ++ String.list_ascii_of_string "up, a lot" ++ [quote; LF; LF]
  ++ String.list_ascii_of_string "A,2024-01-01,9,10" ++ [LF]
  ++ String.list_ascii_of_string " A , 2024-01-01 ,9,10,first" ++ [CR].

End Csv.

(** ** Writing a line with quotes

    The usual way to write fields that [parseCSVLine] reads back: every
    field between quotes, a quote inside a field written twice, commas
    between the fields. *)

Module CsvWriter.
Import Csv.

Definition escape (field : text) : text :=
  flat_map (fun c => if Ascii.eqb c quote then [quote; quote] else [c]) field.

Definition quoteField (field : text) : text := quote :: escape field ++ [quote].

Fixpoint csvLine (fields : list text) : text :=
  match fields with
  | [] => []
  | [f] => quoteField f
  | f :: rest => quoteField f ++ comma :: csvLine rest
  end.

End CsvWriter.

(** ** What the first loader keeps between its steps *)

Module LegacyFacts.

Import LegacyLoader.

(** Every symbol of [ss] has its two series in [m], and the series of [m]
    have one entry for each of the [n] dates. *)
Definition shaped (n : nat) (ss : list string) (m : gmap string FeatureData) : Prop :=
  (forall s, s ∈ ss -> is_Some (m !! s))
  /\ forall s d, m !! s = Some d ->
       length (data_Open d) = n /\ length (data_Close d) = n.

(** The number of loop rounds of [createSequences] over [n] dates. *)
Definition rounds (n : nat) : nat :=
  Z.to_nat (Z.of_nat n - predictionDays - sequenceLength).

End LegacyFacts.

(** ** The first loader: reading the CSV text *)

Module LegacyCsv.

Import Csv.

(** The name under which a header stores its cells. *)
Definition keyOf (header : text) : string := String.string_of_list_ascii (trim header).

(** [row[key] = value] on a plain object, the value being a string or
    [undefined] ([None]).  The key [__proto__] names the accessor of
    [Object.prototype], whose setter ignores a value that is not an
    object: no property is set. *)
Definition assign (row : gmap string (option text)) (key : string)
    (value : option text) : gmap string (option text) :=
  if decide (key = "__proto__"%string) then row else <[key := value]> row.

(** The body of the loop over the lines: [values[index]?.trim()] is
    [undefined] for a line with too few cells. *)
Definition rowOf (headers values : list text) : gmap string (option text) :=
  fold_left (fun row p => assign row (keyOf p.2) (trim <$> values !! p.1))
    (imap (fun index header => (index, header)) headers) ∅.

(** [parseCSV(csvText)]: the rows it leaves in [rawData]. *)
Definition parseCSV (csvText : text) : list (gmap string (option text)) :=
  let lines := splitOn LF (trim csvText) [] in
  let headers := splitOn comma (hd [] lines) [] in
  map (fun line => rowOf headers (splitOn comma line [])) (tl lines).

End LegacyCsv.

(** * Theorems *)

(** ** Gap filling *)

Lemma lastFinite_app lv l1 l2 :
  lastFinite lv (l1 ++ l2) = lastFinite (lastFinite lv l1) l2.
Proof. apply fold_left_app. Qed.

Lemma lastFinite_gap lv l :
  Forall (fun x => isFiniteNum x = false) l -> lastFinite lv l = lv.
Proof.
  intros H. revert lv. induction H as [|x l Hx _ IH]; intros lv; [done|].
  cbn. rewrite Hx. apply IH.
Qed.

Lemma lastFinite_finite lv l y :
  (forall v, lv = Some v -> isFiniteNum v = true) ->
  lastFinite lv l = Some y -> isFiniteNum y = true.
Proof.
  revert lv. induction l as [|x l IH]; intros lv Hlv; cbn.
  - intros ->. by apply Hlv.
  - apply IH. destruct (isFiniteNum x) eqn:Hx; [|done].
    by intros v [= <-].
Qed.

Lemma lastFinite_is_Some lv l :
  is_Some lv \/ Exists (fun x => isFiniteNum x = true) l -> is_Some (lastFinite lv l).
Proof.
  revert lv. induction l as [|x l IH]; intros lv [Hlv|Hex]; cbn.
  - done.
  - by apply Exists_nil in Hex.
  - apply IH. left. destruct (isFiniteNum x); [done|done].
  - apply IH. apply Exists_cons in Hex as [Hx|Hex]; [|by right].
    left. by rewrite Hx.
Qed.

(** Position [i] after a pass: the last finite value up to [i], if any. *)
Lemma fillPass_lookup lv a i :
  fillPass lv a !! i =
  (fun x => default x (lastFinite lv (take (S i) a))) <$> a !! i.
Proof.
  revert lv i. induction a as [|x a IH]; intros lv i; [done|].
  destruct i as [|i].
  - cbn. destruct (isFiniteNum x); [done|]. by destruct lv.
  - cbn [take lastFinite fold_left lookup list_lookup].
    assert (fillPass lv (x :: a) !! S i =
            fillPass (if isFiniteNum x then Some x else lv) a !! i) as ->.
    { cbn. destruct (isFiniteNum x); [done|]. by destruct lv. }
    apply IH.
Qed.

Lemma fillPass_length lv a : length (fillPass lv a) = length a.
Proof.
  revert lv. induction a as [|x a IH]; intros lv; [done|].
  cbn. destruct (isFiniteNum x); cbn; [by rewrite IH|].
  destruct lv; cbn; by rewrite IH.
Qed.

Lemma fillPass_keeps lv a i x :
  a !! i = Some x -> isFiniteNum x = true -> fillPass lv a !! i = Some x.
Proof.
  intros Hi Hx. rewrite fillPass_lookup, Hi. cbn.
  rewrite (take_S_r _ _ _ Hi), lastFinite_app. cbn. by rewrite Hx.
Qed.

Lemma fillMissingValues_length a : length (fillMissingValues a) = length a.
Proof.
  unfold fillMissingValues.
  by rewrite length_reverse, fillPass_length, length_reverse, fillPass_length.
Qed.

Lemma fillMissingValues_keeps a i x :
  fillPass None a !! i = Some x -> isFiniteNum x = true ->
  fillMissingValues a !! i = Some x.
Proof.
  intros Hi Hx. unfold fillMissingValues.
  pose proof (lookup_lt_Some _ _ _ Hi) as Hlt.
  rewrite reverse_lookup by (by rewrite fillPass_length, length_reverse).
  apply fillPass_keeps; [|done].
  rewrite fillPass_length, length_reverse.
  rewrite reverse_lookup by lia.
  rewrite <- Hi. f_equal. lia.
Qed.


Lemma fillPass_last_finite a :
  Exists (fun x => isFiniteNum x = true) a ->
  exists y, last (fillPass None a) = Some y /\ isFiniteNum y = true.
Proof.
  intros Hex.
  destruct (lastFinite_is_Some None a (or_intror Hex)) as [y Hy].
  exists y. split; [|by eapply lastFinite_finite; [|exact Hy]].
  rewrite last_lookup, fillPass_length.
  destruct a as [|x a]; [by apply Exists_nil in Hex|].
  rewrite fillPass_lookup. cbn [length Nat.pred].
  rewrite (take_ge (x :: a)) by (cbn; lia). rewrite Hy.
  destruct (lookup_lt_is_Some_2 (x :: a) (length a)) as [z ->]; [cbn; lia|done].
Qed.

Lemma fillBack_all_finite b y :
  last b = Some y -> isFiniteNum y = true ->
  Forall (fun z => isFiniteNum z = true) (reverse (fillPass None (reverse b))).
Proof.
  intros Hlast Hy. apply Forall_reverse, Forall_lookup. intros k z Hk.
  rewrite fillPass_lookup in Hk.
  destruct (reverse b !! k) as [w|] eqn:Hw; [|done]. cbn in Hk.
  injection Hk as <-.
  assert (exists rest, reverse b = y :: rest) as [rest Hrb].
  { destruct b as [|b0 b'] using rev_ind; [done|].
    rewrite last_snoc in Hlast. injection Hlast as ->.
    rewrite reverse_snoc. eauto. }
  rewrite Hrb. cbn. rewrite Hy.
  destruct (lastFinite_is_Some (Some y) (take k rest)) as [u Hu]; [by left|].
  unfold lastFinite in Hu. rewrite Hu. cbn.
  eapply lastFinite_finite; [|exact Hu]. by intros v [= <-].
Qed.

(** C4.  A series with at least one finite value has no position left
    that is not finite after [fillMissingValues]; a position [i] that is
    not finite and has a finite value before it takes the most recent one
    (the value at [j] when nothing between [j] and [i] is finite), whatever
    comes after [i]; and [1, NaN, 3] fills to [1, 1, 3]. *)
Theorem fillMissingValues_fills (a : list num) :
    Exists (fun x => isFiniteNum x = true) a ->
    Forall (fun y => isFiniteNum y = true) (fillMissingValues a)
    /\ (forall j i x, (j < i < length a)%nat ->
          a !! j = Some x -> isFiniteNum x = true ->
          (forall k y, (j < k <= i)%nat -> a !! k = Some y -> isFiniteNum y = false) ->
          fillMissingValues a !! i = Some x)
    /\ fillMissingValues [one; NaN; three] = [one; one; three].
Proof.
  intros Hex. split; [|split; [|reflexivity]].
  - destruct (fillPass_last_finite a Hex) as (y & Hlast & Hy).
    by eapply fillBack_all_finite.
  - intros j i x [Hji Hi] Hj Hx Hgap.
    apply fillMissingValues_keeps; [|done].
    rewrite fillPass_lookup.
    destruct (lookup_lt_is_Some_2 a i Hi) as [z Hz]. rewrite Hz. cbn. f_equal.
    assert (take (S i) a = take j a ++ x :: take (i - j) (drop (S j) a)) as ->.
    { rewrite <- (take_drop_middle a j x Hj) at 1.
      rewrite take_app_ge by (rewrite length_take; lia).
      rewrite length_take, Nat.min_l by lia.
      replace (S i - j)%nat with (S (i - j)) by lia. done. }
    rewrite lastFinite_app. cbn. rewrite Hx.
    fold (lastFinite (Some x) (take (i - j) (drop (S j) a))).
    rewrite lastFinite_gap; [done|].
    apply Forall_lookup. intros k y Hk.
    rewrite lookup_take_Some in Hk. destruct Hk as [Hk Hlt].
    rewrite lookup_drop in Hk. apply (Hgap (S j + k)%nat y); [lia|done].
Qed.

Lemma fillMissingValues_fills_witness :
  Exists (fun x => isFiniteNum x = true) [NaN; one; NaN; NaN; three]
  /\ Forall (fun y => isFiniteNum y = true)
       (fillMissingValues [NaN; one; NaN; NaN; three])
  /\ fillMissingValues [NaN; one; NaN; NaN; three] !! 3%nat = Some one.
Proof.
  assert (H : Exists (fun x => isFiniteNum x = true) [NaN; one; NaN; NaN; three])
    by (apply Exists_cons_tl, Exists_cons_hd; reflexivity).
  destruct (fillMissingValues_fills _ H) as (Hall & Hgap & _).
  split; [exact H|]. split; [exact Hall|].
  apply (Hgap 1%nat 3%nat one); [simpl; lia|reflexivity|reflexivity|].
  intros k y Hk Hy.
  destruct k as [|[|[|[|k]]]]; try lia; injection Hy as <-; reflexivity.
Defined.

(** ** Numbers *)

Lemma compare_refl_finite x : isFiniteNum x = true -> SFcompare x x = Some Eq.
Proof.
  destruct x as [s|s| |s m e]; try done; intros _; cbn.
  rewrite Z.compare_refl, Pos.compare_cont_refl. by destruct s.
Qed.

Lemma eqb_refl_finite x : isFiniteNum x = true -> eqb x x = true.
Proof. intros H. unfold eqb, SFeqb. by rewrite compare_refl_finite. Qed.

Lemma ltb_irrefl x : ltb x x = false.
Proof.
  unfold ltb, SFltb. destruct (isFiniteNum x) eqn:H.
  - by rewrite compare_refl_finite.
  - destruct x as [s|[]| |s m e]; done.
Qed.

Lemma ltb_finite_infinity x : isFiniteNum x = true -> ltb x POSITIVE_INFINITY = true.
Proof. by destruct x as [s|s| |s m e]. Qed.

Lemma ltb_infinity_finite x : isFiniteNum x = true -> ltb NEGATIVE_INFINITY x = true.
Proof. by destruct x as [s|s| |s m e]. Qed.

(** ** Rounding never invents NaN *)

Lemma iter_pos_invariant {A} (P : A -> Prop) (f : A -> A) :
  (forall x, P x -> P (f x)) -> forall n x, P x -> P (SpecFloat.iter_pos f n x).
Proof.
  intros Hf. induction n as [n IH|n IH|]; intros x Hx; cbn; auto.
Qed.

Lemma shr_1_nonneg mrs : 0 <= shr_m mrs -> 0 <= shr_m (shr_1 mrs).
Proof.
  destruct mrs as [m r s]. cbn. intros Hm.
  destruct m as [|[p|p|]|p]; cbn; lia.
Qed.

Lemma shr_nonneg mrs e n : 0 <= shr_m mrs -> 0 <= shr_m (shr mrs e n).1.
Proof.
  intros Hm. destruct n as [|p|p]; cbn; [done| |done].
  by apply (iter_pos_invariant (fun x => 0 <= shr_m x)); [apply shr_1_nonneg|].
Qed.

Lemma shr_fexp_nonneg m e l : 0 <= m -> 0 <= shr_m (shr_fexp prec emax m e l).1.
Proof.
  intros Hm. unfold shr_fexp. apply shr_nonneg.
  by destruct l as [|[]].
Qed.

Lemma round_nearest_even_nonneg m l : 0 <= m -> 0 <= round_nearest_even m l.
Proof.
  intros Hm. destruct l as [|[]]; cbn; try lia. destruct (Z.even m); lia.
Qed.

Lemma binary_round_aux_not_nan s m e l :
  0 <= m -> isNaN (binary_round_aux prec emax s m e l) = false.
Proof.
  intros Hm. unfold binary_round_aux.
  pose proof (shr_fexp_nonneg m e l Hm) as H1.
  destruct (shr_fexp prec emax m e l) as [mrs' e']. cbn in H1.
  pose proof (shr_fexp_nonneg _ e' loc_Exact
                (round_nearest_even_nonneg _ (loc_of_shr_record mrs') H1)) as H2.
  destruct (shr_fexp prec emax _ e' loc_Exact) as [mrs'' e'']. cbn in H2.
  destruct (shr_m mrs'') as [|p|p]; [done| |lia].
  by destruct (e'' <=? emax - prec).
Qed.

(** A product is NaN only for a NaN factor or for zero times infinity. *)
Lemma mul_finite_not_nan s m e p :
  isNaN p = false -> isNaN (mul (S754_finite s m e) p) = false.
Proof.
  intros Hp. destruct p as [t|t| |t m' e']; try done.
  cbn. by apply binary_round_aux_not_nan.
Qed.

(** ** The number of a positive integer below 2^53 *)

Lemma digits2_pos_iter m k :
  digits2_pos (Pos.iter xO m k) = (digits2_pos m + k)%positive.
Proof.
  induction k as [|k IH] using Pos.peano_ind.
  - cbn. lia.
  - rewrite Pos.iter_succ. cbn. rewrite IH. lia.
Qed.

Lemma digits2_pos_bound m k :
  Z.pos m < 2 ^ k -> 0 <= k -> Z.pos (digits2_pos m) <= k.
Proof.
  revert k. induction m as [m IH|m IH|]; intros k Hm Hk; cbn [digits2_pos].
  - assert (0 < k) by (destruct (Z.eq_dec k 0) as [->|]; [cbn in Hm; lia|lia]).
    specialize (IH (k - 1)).
    replace (2 ^ k) with (2 * 2 ^ (k - 1)) in Hm
      by (rewrite <- Z.pow_succ_r by lia; f_equal; lia).
    lia.
  - assert (0 < k) by (destruct (Z.eq_dec k 0) as [->|]; [cbn in Hm; lia|lia]).
    specialize (IH (k - 1)).
    replace (2 ^ k) with (2 * 2 ^ (k - 1)) in Hm
      by (rewrite <- Z.pow_succ_r by lia; f_equal; lia).
    lia.
  - assert (0 < k) by (destruct (Z.eq_dec k 0) as [->|]; [cbn in Hm; lia|lia]).
    lia.
Qed.

Lemma ofZ_pos_finite m :
  Z.pos m < 2 ^ 53 -> exists m' e', ofZ (Z.pos m) = S754_finite false m' e'.
Proof.
  intros Hm.
  pose proof (digits2_pos_bound m 53 Hm ltac:(lia)) as Hd.
  unfold ofZ, binary_normalize, binary_round.
  set (d := digits2_pos m) in *.
  assert (Hfexp : fexp prec emax (Z.pos d + 0) = Z.pos d - 53).
  { unfold fexp, emin, prec, emax. lia. }
  rewrite Hfexp.
  assert (exists mz, shl_align m 0 (Z.pos d - 53) = (mz, Z.pos d - 53)
                     /\ Z.pos (digits2_pos mz) = 53) as (mz & -> & Hmz).
  { unfold shl_align. rewrite Z.sub_0_r.
    destruct (Z.pos d - 53) as [|q|q] eqn:Hq; [|lia|].
    - exists m. split; [done|]. fold d. lia.
    - exists (Pos.iter xO m q). split; [done|].
      rewrite digits2_pos_iter. fold d. lia. }
  unfold binary_round_aux, shr_fexp. cbn [shr_record_of_loc Zdigits2].
  rewrite Hmz.
  assert (fexp prec emax (53 + (Z.pos d - 53)) - (Z.pos d - 53) = 0) as ->.
  { unfold fexp, emin, prec, emax. lia. }
  cbn [shr fst snd shr_m loc_of_shr_record round_nearest_even Zdigits2].
  rewrite Hmz.
  assert (fexp prec emax (53 + (Z.pos d - 53)) - (Z.pos d - 53) = 0) as ->.
  { unfold fexp, emin, prec, emax. lia. }
  cbn [shr shr_m].
  assert ((Z.pos d - 53 <=? emax - prec) = true) as ->.
  { apply Z.leb_le. unfold emax, prec. lia. }
  by eexists _, _.
Qed.

Lemma mul_ofZ_not_nan n p :
  0 < n < 2 ^ 53 -> isNaN p = false -> isNaN (mul (ofZ n) p) = false.
Proof.
  intros [Hn0 Hn] Hp. destruct n as [|m|m]; [lia| |lia].
  destruct (ofZ_pos_finite m Hn) as (m' & e' & ->).
  by apply mul_finite_not_nan.
Qed.

(** ** The shift of the rounding *)

Lemma iter_pos_nat {A} (f : A -> A) p x :
  SpecFloat.iter_pos f p x = Nat.iter (Pos.to_nat p) f x.
Proof.
  revert x. induction p as [p IH|p IH|]; intros x; cbn [SpecFloat.iter_pos].
  - rewrite !IH, Pos2Nat.inj_xI.
    replace (S (2 * Pos.to_nat p)) with (Pos.to_nat p + (Pos.to_nat p + 1))%nat by lia.
    rewrite !Nat.iter_add. done.
  - rewrite !IH, Pos2Nat.inj_xO.
    replace (2 * Pos.to_nat p)%nat with (Pos.to_nat p + Pos.to_nat p)%nat by lia.
    by rewrite Nat.iter_add.
  - done.
Qed.

Lemma shr_1_m mrs : 0 <= shr_m mrs -> shr_m (shr_1 mrs) = shr_m mrs / 2.
Proof.
  destruct mrs as [m r s]. cbn [shr_m]. intros Hm. rewrite <- Z.div2_div.
  destruct m as [|[p|p|]|p]; try done; lia.
Qed.

Lemma iter_shr_1_m n mrs :
  0 <= shr_m mrs -> shr_m (Nat.iter n shr_1 mrs) = shr_m mrs / 2 ^ Z.of_nat n.
Proof.
  intros Hm. induction n as [|n IH].
  - cbn. by rewrite Z.div_1_r.
  - rewrite Nat.iter_succ, shr_1_m.
    + rewrite IH, Z.div_div by lia. f_equal.
      rewrite Nat2Z.inj_succ, Z.pow_succ_r by lia. lia.
    + rewrite IH. apply Z.div_pos; lia.
Qed.

(** The mantissa after the shift is the quotient by the power of two,
    whatever the location says. *)
Lemma shr_m_spec mrs e n :
  0 <= shr_m mrs -> 0 <= n -> shr_m (shr mrs e n).1 = shr_m mrs / 2 ^ n /\ (shr mrs e n).2 = e + n.
Proof.
  intros Hm Hn. destruct n as [|p|p]; cbn [shr fst snd]; [|
    rewrite iter_pos_nat, iter_shr_1_m by done; rewrite positive_nat_Z; split; [done|lia] | lia].
  cbn. rewrite Z.div_1_r. split; [done|lia].
Qed.

(** ** Digits *)

Lemma digits2_pos_size m : digits2_pos m = Pos.size m.
Proof. induction m as [m IH|m IH|]; cbn; by rewrite ?IH. Qed.

Lemma digits2_log2 m : Z.pos (digits2_pos m) = Z.log2 (Z.pos m) + 1.
Proof.
  rewrite digits2_pos_size. destruct m as [m|m|]; cbn; try done; lia.
Qed.

Lemma digits2_bounds m :
  2 ^ (Z.pos (digits2_pos m) - 1) <= Z.pos m < 2 ^ Z.pos (digits2_pos m).
Proof.
  rewrite digits2_log2. replace (Z.log2 (Z.pos m) + 1 - 1) with (Z.log2 (Z.pos m)) by lia.
  pose proof (Z.log2_spec (Z.pos m) ltac:(lia)). lia.
Qed.

Lemma digits2_unique m d :
  2 ^ (d - 1) <= Z.pos m < 2 ^ d -> Z.pos (digits2_pos m) = d.
Proof.
  intros H. rewrite digits2_log2.
  assert (0 < d).
  { destruct (Z_lt_le_dec 0 d) as [|Hd]; [done|].
    destruct (Z.eq_dec d 0) as [->|]; [cbn in H; lia|].
    rewrite (Z.pow_neg_r 2 d) in H by lia. lia. }
  replace d with (Z.succ (d - 1)) in H at 2 by lia.
  rewrite (Z.log2_unique (Z.pos m) (d - 1)) by (done || lia). lia.
Qed.

(** ** Rounding to nearest, ties to even, on integers *)

Lemma rne_bounds K n : 0 <= n -> K / 2 ^ n <= rne K n <= K / 2 ^ n + 1.
Proof.
  intros Hn. unfold rne. destruct (_ ?= _); [destruct (Z.even _)| |]; lia.
Qed.

Lemma rne_exact K n : 0 <= n -> K mod 2 ^ n = 0 -> rne K n = K / 2 ^ n.
Proof.
  intros Hn H. unfold rne. rewrite H.
  assert (0 < 2 ^ n) by (apply Z.pow_pos_nonneg; lia).
  destruct (Z.compare_spec (2 * 0) (2 ^ n)); lia.
Qed.

Lemma rne_mono K1 K2 n : 0 <= n -> K1 <= K2 -> rne K1 n <= rne K2 n.
Proof.
  intros Hn HK.
  assert (Hp : 0 < 2 ^ n) by (apply Z.pow_pos_nonneg; lia).
  pose proof (Z.div_le_mono K1 K2 (2 ^ n) Hp HK) as Hq.
  destruct (Z.eq_dec (K1 / 2 ^ n) (K2 / 2 ^ n)) as [Heq|Hne].
  - assert (Hr : K1 mod 2 ^ n <= K2 mod 2 ^ n).
    { rewrite !Z.mod_eq by lia. rewrite Heq. lia. }
    unfold rne. rewrite Heq.
    destruct (Z.compare_spec (2 * (K1 mod 2 ^ n)) (2 ^ n)),
             (Z.compare_spec (2 * (K2 mod 2 ^ n)) (2 ^ n));
      try destruct (Z.even _); lia.
  - pose proof (rne_bounds K1 n Hn). pose proof (rne_bounds K2 n Hn). lia.
Qed.

Lemma rne_shift m j n : 0 <= j -> 0 <= n -> rne (m * 2 ^ j) (n + j) = rne m n.
Proof.
  intros Hj Hn. unfold rne.
  assert (0 < 2 ^ j) by (apply Z.pow_pos_nonneg; lia).
  assert (0 < 2 ^ n) by (apply Z.pow_pos_nonneg; lia).
  rewrite Z.pow_add_r by lia.
  rewrite Z.div_mul_cancel_r by lia.
  rewrite Zmult_mod_distr_r.
  destruct (Z.compare_spec (2 * (m mod 2 ^ n)) (2 ^ n)),
           (Z.compare_spec (2 * (m mod 2 ^ n * 2 ^ j)) (2 ^ n * 2 ^ j)); try done; nia.
Qed.

(** ** The location after an exact shift *)

Lemma shr_1_spec m r s :
  0 <= m ->
  shr_1 {| shr_m := m; shr_r := r; shr_s := s |}
  = {| shr_m := m / 2; shr_r := Z.odd m; shr_s := r || s |}.
Proof.
  intros Hm. rewrite <- Z.div2_div. destruct m as [|[p|p|]|p]; try done; lia.
Qed.

Lemma odd_mod2 m : m mod 2 = if Z.odd m then 1 else 0.
Proof. rewrite Zmod_odd. done. Qed.

(** After [n >= 1] exact shifts of [K], the round bit and the sticky bit
    tell where [K mod 2^n] lies. *)
Lemma iter_shr_1_loc K n :
  0 <= K -> (1 <= n)%nat ->
  let mrs := Nat.iter n shr_1 {| shr_m := K; shr_r := false; shr_s := false |} in
  shr_m mrs = K / 2 ^ Z.of_nat n
  /\ exists t, 0 <= t < 2 ^ (Z.of_nat n - 1)
       /\ K mod 2 ^ Z.of_nat n = (if shr_r mrs then 2 ^ (Z.of_nat n - 1) else 0) + t
       /\ (shr_s mrs = true <-> 0 < t).
Proof.
  intros HK Hn. induction n as [|n IH]; [lia|].
  destruct n as [|n].
  - unfold Nat.iter. cbn [nat_rect]. rewrite shr_1_spec by done.
    cbn [shr_m shr_r shr_s orb].
    split; [done|]. exists 0. change (2 ^ (1 - 1)) with 1. change (2 ^ 1) with 2.
    rewrite odd_mod2. split; [lia|]. split; [by destruct (Z.odd K)|]. split; [done|lia].
  - specialize (IH ltac:(lia)). cbn zeta in IH.
    rewrite Nat.iter_succ. cbn zeta.
    destruct (Nat.iter (S n) shr_1 _) as [m r s]. cbn [shr_m shr_r shr_s] in IH.
    destruct IH as (Hm & t & Ht & Hmod & Hs).
    assert (Hm0 : 0 <= m) by (rewrite Hm; apply Z.div_pos; lia).
    rewrite shr_1_spec by done. cbn [shr_m shr_r shr_s].
    set (N := Z.of_nat (S n)) in *.
    replace (Z.of_nat (S (S n))) with (N + 1) by lia.
    replace (N + 1 - 1) with N by lia.
    assert (HN : 1 <= N) by lia.
    assert (Hp : 0 < 2 ^ N) by (apply Z.pow_pos_nonneg; lia).
    assert (Hp1 : 2 ^ N = 2 * 2 ^ (N - 1)).
    { rewrite <- Z.pow_succ_r by lia. f_equal. lia. }
    split.
    + rewrite Hm, Z.pow_add_r, Z.div_div by lia. done.
    + exists (K mod 2 ^ N). split; [apply Z.mod_pos_bound; lia|]. split.
      * rewrite Z.pow_add_r by lia. change (2 ^ 1) with 2.
        rewrite Z.rem_mul_r by lia. rewrite <- Hm, odd_mod2.
        destruct (Z.odd m); lia.
      * rewrite Hmod. destruct r; cbn [orb].
        -- split; [intros _|done]. assert (0 < 2 ^ (N - 1)) by (apply Z.pow_pos_nonneg; lia). lia.
        -- rewrite Hs. lia.
Qed.

Lemma shr_exact_round K e n :
  0 <= K -> 0 <= n ->
  let mrs := (shr {| shr_m := K; shr_r := false; shr_s := false |} e n).1 in
  round_nearest_even (shr_m mrs) (loc_of_shr_record mrs) = rne K n.
Proof.
  intros HK Hn. destruct n as [|p|p]; [| |lia].
  - cbn [shr fst shr_m loc_of_shr_record round_nearest_even].
    rewrite rne_exact by (done || apply Z.mod_1_r). by rewrite Z.div_1_r.
  - cbn [shr fst]. rewrite iter_pos_nat.
    destruct (iter_shr_1_loc K (Pos.to_nat p) HK ltac:(lia)) as (Hm & t & Ht & Hmod & Hs).
    rewrite positive_nat_Z in *.
    destruct (Nat.iter _ _ _) as [m r s]. cbn [shr_m shr_r shr_s] in *.
    unfold rne. rewrite <- Hm, Hmod.
    assert (Hp1 : 2 ^ Z.pos p = 2 * 2 ^ (Z.pos p - 1)).
    { rewrite <- Z.pow_succ_r by lia. f_equal. lia. }
    assert (0 < 2 ^ (Z.pos p - 1)) by (apply Z.pow_pos_nonneg; lia).
    destruct r, s; cbn [loc_of_shr_record round_nearest_even].
    + destruct (Z.compare_spec (2 * (2 ^ (Z.pos p - 1) + t)) (2 ^ Z.pos p));
        [lia| |done]. destruct Hs as [Hs _]. specialize (Hs eq_refl). lia.
    + assert (t = 0) as ->.
      { destruct (Z.eq_dec t 0); [done|]. destruct Hs as [_ Hs]. discriminate Hs. lia. }
      destruct (Z.compare_spec (2 * (2 ^ (Z.pos p - 1) + 0)) (2 ^ Z.pos p)); [done|lia|lia].
    + destruct (Z.compare_spec (2 * (0 + t)) (2 ^ Z.pos p)); [lia|done|lia].
    + destruct (Z.compare_spec (2 * (0 + t)) (2 ^ Z.pos p)); [lia|done|lia].
Qed.

(** ** Numbers as integers *)

Lemma fexp_eq k : fexp prec emax k = Z.max (k - 53) (-1074).
Proof. reflexivity. Qed.

Lemma bounded_inv m e :
  bounded prec emax m e = true ->
  -1074 <= e <= 971
  /\ Z.pos (digits2_pos m) <= 53
  /\ (Z.pos (digits2_pos m) = 53 \/ e = -1074).
Proof.
  unfold bounded, canonical_mantissa. rewrite fexp_eq.
  intros [Hc He]%andb_prop. apply Z.eqb_eq in Hc. apply Z.leb_le in He.
  unfold emax, prec in He. lia.
Qed.

Lemma bounded_intro m e :
  -1074 <= e <= 971 -> Z.pos (digits2_pos m) <= 53 ->
  (Z.pos (digits2_pos m) = 53 \/ e = -1074) ->
  bounded prec emax m e = true.
Proof.
  intros He Hd Hc. unfold bounded, canonical_mantissa. rewrite fexp_eq.
  apply andb_true_intro. split; [apply Z.eqb_eq; lia|apply Z.leb_le; unfold emax, prec; lia].
Qed.

Lemma pos_iter_xO m d : Z.pos (Pos.iter xO m d) = Z.pos m * 2 ^ Z.pos d.
Proof.
  induction d as [|d IH] using Pos.peano_ind.
  - cbn. lia.
  - rewrite Pos.iter_succ, Pos2Z.inj_xO, IH, Pos2Z.inj_succ, Z.pow_succ_r by lia. lia.
Qed.

Lemma shl_align_value m e e' :
  e' <= e ->
  shl_align m e e' = ((shl_align m e e').1, e')
  /\ Z.pos (shl_align m e e').1 = Z.pos m * 2 ^ (e - e').
Proof.
  intros He. unfold shl_align. destruct (e' - e) as [|d|d] eqn:Hd; [|lia|].
  - cbn. replace e' with e by lia. rewrite Z.sub_diag. split; [done|lia].
  - cbn. rewrite pos_iter_xO. split; [done|]. f_equal. f_equal. lia.
Qed.

Lemma log2_mul_pow2 K j : 0 < K -> 0 <= j -> Z.log2 (K * 2 ^ j) = Z.log2 K + j.
Proof. intros. rewrite Z.log2_mul_pow2; lia. Qed.

(** A number that needs no more than 53 bits is not changed. *)
Lemma RN_small K : 0 < K < 2 ^ 53 -> RN K = K.
Proof.
  intros HK. unfold RN.
  assert (Z.log2 K < 53) by (apply Z.log2_lt_pow2; lia).
  rewrite Z.max_l by lia. rewrite rne_exact by (done || apply Z.mod_1_r).
  change (2 ^ 0) with 1. rewrite Z.div_1_r. lia.
Qed.

(** Nor is a multiple of the right power of two. *)
Lemma RN_exact m j :
  2 ^ 52 <= m < 2 ^ 53 -> 0 <= j -> RN (m * 2 ^ j) = m * 2 ^ j.
Proof.
  intros Hm Hj. unfold RN.
  assert (Z.log2 m = 52) by (apply Z.log2_unique; lia).
  rewrite log2_mul_pow2 by lia.
  replace (Z.max 0 (Z.log2 m + j + 1 - 53)) with j by lia.
  assert (0 < 2 ^ j) by (apply Z.pow_pos_nonneg; lia).
  rewrite rne_exact by (done || apply Z.mod_mul; lia).
  rewrite Z.div_mul by lia. done.
Qed.

(** ** What rounding returns *)

Lemma shr_fexp_exact m e :
  0 < m -> e <= fexp prec emax (Zdigits2 m + e) ->
  let n := fexp prec emax (Zdigits2 m + e) - e in
  let mrs := (shr_fexp prec emax m e loc_Exact).1 in
  (shr_fexp prec emax m e loc_Exact).2 = e + n
  /\ shr_m mrs = m / 2 ^ n
  /\ round_nearest_even (shr_m mrs) (loc_of_shr_record mrs) = rne m n.
Proof.
  intros Hm Hn n mrs. unfold shr_fexp in *. cbn [shr_record_of_loc] in *.
  fold n in mrs |- *.
  destruct (shr_m_spec {| shr_m := m; shr_r := false; shr_s := false |} e n) as [H1 H2];
    [cbn; lia|lia|].
  split; [exact H2|]. split; [exact H1|].
  apply shr_exact_round; lia.
Qed.

Lemma pow2_split a b : 0 <= a -> 0 <= b -> 2 ^ (a + b) = 2 ^ a * 2 ^ b.
Proof. intros. by rewrite Z.pow_add_r. Qed.

Lemma binary_round_aux_scaled m e :
  -1074 <= e -> e <= fexp prec emax (Z.pos (digits2_pos m) + e) ->
  roundsTo (Z.pos m * 2 ^ (e + 1074))
    (binary_round_aux prec emax false (Z.pos m) e loc_Exact).
Proof.
  intros He Hn.
  set (d := Z.pos (digits2_pos m)) in *.
  set (E := fexp prec emax (d + e)) in *.
  set (n := E - e).
  set (K := Z.pos m * 2 ^ (e + 1074)).
  pose proof (digits2_bounds m) as Hd. fold d in Hd.
  assert (HE : E = Z.max (d + e - 53) (-1074)) by apply fexp_eq.
  destruct (shr_fexp_exact (Z.pos m) e ltac:(lia) Hn) as (He1 & Hq & Hround).
  cbn [Zdigits2] in He1, Hq, Hround. fold d E n in He1, Hq, Hround.
  unfold binary_round_aux.
  destruct (shr_fexp prec emax (Z.pos m) e loc_Exact) as [mrs1 e1].
  cbn [fst snd] in He1, Hq, Hround. rewrite Hround.
  assert (He1' : e1 = E) by lia. clear He1. subst e1.
  set (M1 := rne (Z.pos m) n) in *.
  (* the rounded mantissa and the value it stands for *)
  assert (HM1 : 0 < M1 <= 2 ^ 53
                /\ M1 * 2 ^ (E + 1074) = RN K
                /\ (M1 < 2 ^ 53 -> 2 ^ 52 <= M1 \/ E = -1074)).
  { destruct (Z.eq_dec n 0) as [Hn0|Hn0].
    - assert (HM : M1 = Z.pos m).
      { subst M1. rewrite Hn0, rne_exact by (done || apply Z.mod_1_r). apply Z.div_1_r. }
      assert (d <= 53) by lia.
      assert (Z.pos m < 2 ^ 53).
      { eapply Z.lt_le_trans; [apply Hd|]. apply Z.pow_le_mono_r; lia. }
      rewrite HM. replace E with e by lia. fold K.
      split; [lia|]. split.
      + destruct (Z.eq_dec d 53) as [Hd53|Hd53].
        * symmetry. apply RN_exact; [|lia]. rewrite Hd53 in Hd. exact Hd.
        * assert (e = -1074) as -> by lia. subst K. change (2 ^ (-1074 + 1074)) with 1.
          rewrite Z.mul_1_r. symmetry. apply RN_small. lia.
      + intros _. destruct (Z.eq_dec d 53) as [Hd53|Hd53]; [left|right; lia].
        rewrite Hd53 in Hd. apply Hd.
    - assert (Hn1 : 1 <= n) by lia.
      assert (Hdn : n = d - 53) by lia.
      assert (Hq' : 2 ^ 52 <= Z.pos m / 2 ^ n < 2 ^ 53).
      { assert (0 < 2 ^ n) by (apply Z.pow_pos_nonneg; lia).
        assert (H52 : 2 ^ (d - 1) = 2 ^ 52 * 2 ^ n).
        { rewrite <- Z.pow_add_r by lia. f_equal. lia. }
        assert (H53 : 2 ^ d = 2 ^ 53 * 2 ^ n).
        { rewrite <- Z.pow_add_r by lia. f_equal. lia. }
        split.
        - apply Z.div_le_lower_bound; [lia|]. lia.
        - apply Z.div_lt_upper_bound; [lia|]. lia. }
      pose proof (rne_bounds (Z.pos m) n ltac:(lia)) as Hb. fold M1 in Hb.
      split; [lia|]. split; [|intros _; left; lia].
      subst K. unfold RN.
      assert (Hlog : Z.log2 (Z.pos m * 2 ^ (e + 1074)) + 1 = d + (e + 1074)).
      { rewrite log2_mul_pow2 by lia. unfold d. rewrite digits2_log2. lia. }
      rewrite Hlog.
      replace (Z.max 0 (d + (e + 1074) - 53)) with (n + (e + 1074)) by lia.
      rewrite rne_shift by lia. fold M1. f_equal. f_equal. lia. }
  destruct HM1 as (HM1 & Hval & Hnorm).
  (* the second shift only repairs a mantissa that reached 2^53 *)
  destruct (Z.eq_dec M1 (2 ^ 53)) as [Htop|Htop].
  - rewrite Htop in *. cbv zeta.
    assert (Hshr : shr_fexp prec emax (2 ^ 53) E loc_Exact
                   = ({| shr_m := 2 ^ 52; shr_r := false; shr_s := false |}, E + 1)).
    { unfold shr_fexp. change (Zdigits2 (2 ^ 53)) with 54. rewrite fexp_eq.
      replace (Z.max (54 + E - 53) (-1074) - E) with 1 by lia. reflexivity. }
    rewrite Hshr. cbn [shr_m]. change (2 ^ 52) with (Z.pos 4503599627370496).
    cbv iota beta.
    destruct (Z.leb_spec (E + 1) (emax - prec)) as [Hle|Hgt]; unfold emax, prec in *.
    + cbn [roundsTo]. split.
      * apply bounded_intro; [lia|done|by left].
      * rewrite <- Hval. replace (E + 1 + 1074) with (1 + (E + 1074)) by lia.
        rewrite pow2_split by lia. change (2 ^ 1) with 2. lia.
    + cbn [roundsTo]. rewrite <- Hval.
      replace (E + 1074) with ((E + 1074 - 2045) + 2045) by lia.
      rewrite pow2_split by lia.
      assert (0 < 2 ^ (E + 1074 - 2045)) by (apply Z.pow_pos_nonneg; lia).
      change (2 ^ 2098) with (2 ^ 53 * 2 ^ 2045). nia.
  - assert (HM1lt : M1 < 2 ^ 53) by lia. specialize (Hnorm HM1lt).
    destruct M1 as [|p|p] eqn:HM1p; [lia| |lia].
    assert (Hdp : Z.pos (digits2_pos p) <= 53).
    { apply digits2_pos_bound; lia. }
    assert (Hdp' : Z.pos (digits2_pos p) = 53 \/ E = -1074).
    { destruct Hnorm as [H52|?]; [left|by right].
      apply digits2_unique. change (2 ^ (53 - 1)) with (2 ^ 52). lia. }
    assert (Hshr : shr_fexp prec emax (Z.pos p) E loc_Exact
                   = ({| shr_m := Z.pos p; shr_r := false; shr_s := false |}, E)).
    { unfold shr_fexp. cbn [Zdigits2]. rewrite fexp_eq.
      replace (Z.max (Z.pos (digits2_pos p) + E - 53) (-1074) - E) with 0 by lia.
      reflexivity. }
    cbv zeta. rewrite Hshr. cbn [shr_m]. cbv iota beta.
    destruct (Z.leb_spec E (emax - prec)) as [Hle|Hgt]; unfold emax, prec in *.
    + cbn [roundsTo]. split; [|done]. apply bounded_intro; [lia|done|done].
    + cbn [roundsTo]. rewrite <- Hval.
      destruct Hnorm as [H52|?]; [|lia].
      replace (E + 1074) with ((E + 1074 - 2046) + 2046) by lia.
      rewrite pow2_split by lia.
      assert (0 < 2 ^ (E + 1074 - 2046)) by (apply Z.pow_pos_nonneg; lia).
      change (2 ^ 2098) with (2 ^ 52 * 2 ^ 2046). nia.
Qed.

Lemma binary_round_scaled m e :
  -1074 <= e ->
  roundsTo (Z.pos m * 2 ^ (e + 1074)) (binary_round prec emax false m e).
Proof.
  intros He. unfold binary_round.
  set (E := fexp prec emax (Z.pos (digits2_pos m) + e)).
  assert (HE : E = Z.max (Z.pos (digits2_pos m) + e - 53) (-1074)) by apply fexp_eq.
  destruct (Z_lt_le_dec E e) as [Hlt|Hge].
  - destruct (shl_align_value m e E ltac:(lia)) as [Hpair Hval].
    rewrite Hpair. set (m' := (shl_align m e E).1) in *.
    assert (Hd' : Z.pos (digits2_pos m') = Z.pos (digits2_pos m) + (e - E)).
    { rewrite !digits2_log2, Hval, log2_mul_pow2 by lia. lia. }
    replace (Z.pos m * 2 ^ (e + 1074)) with (Z.pos m' * 2 ^ (E + 1074)).
    + apply binary_round_aux_scaled; [lia|]. rewrite Hd', fexp_eq. lia.
    + rewrite Hval, <- Z.mul_assoc, <- pow2_split by lia. f_equal. f_equal. lia.
  - assert (shl_align m e E = (m, e)) as ->.
    { unfold shl_align. destruct (E - e) eqn:H; [done|done|lia]. }
    apply binary_round_aux_scaled; [done|]. fold E. lia.
Qed.

(** ** The order of the finite numbers *)

Lemma good_finite s m e :
  good (S754_finite s m e) = true -> bounded prec emax m e = true.
Proof. done. Qed.

Lemma scaled_pos_lt m1 e1 m2 e2 :
  bounded prec emax m1 e1 = true -> bounded prec emax m2 e2 = true -> e1 < e2 ->
  Z.pos m1 * 2 ^ (e1 + 1074) < Z.pos m2 * 2 ^ (e2 + 1074).
Proof.
  intros (He1 & Hd1 & _)%bounded_inv (He2 & Hd2 & Hc2)%bounded_inv Hlt.
  pose proof (digits2_bounds m1) as Hb1. pose proof (digits2_bounds m2) as Hb2.
  assert (Z.pos (digits2_pos m2) = 53) as Hd53 by lia. rewrite Hd53 in Hb2.
  change (2 ^ (53 - 1)) with (2 ^ 52) in Hb2.
  assert (Z.pos m1 < 2 ^ 53).
  { eapply Z.lt_le_trans; [apply Hb1|]. apply Z.pow_le_mono_r; lia. }
  replace (e2 + 1074) with ((e2 - e1 - 1) + 1 + (e1 + 1074)) by lia.
  rewrite (pow2_split (e2 - e1 - 1 + 1)), (pow2_split (e2 - e1 - 1)) by lia.
  change (2 ^ 1) with 2.
  assert (0 < 2 ^ (e1 + 1074)) by (apply Z.pow_pos_nonneg; lia).
  assert (0 < 2 ^ (e2 - e1 - 1)) by (apply Z.pow_pos_nonneg; lia).
  set (P := 2 ^ (e1 + 1074)) in *. set (Q := 2 ^ (e2 - e1 - 1)) in *.
  apply Z.lt_le_trans with (2 ^ 53 * P); [nia|].
  apply Z.le_trans with (Z.pos m2 * (1 * 2 * P)).
  - change (2 ^ 53) with (2 ^ 52 * 2). nia.
  - apply Z.mul_le_mono_nonneg_l; [lia|]. nia.
Qed.

Lemma compare_pos_scaled m1 e1 m2 e2 :
  bounded prec emax m1 e1 = true -> bounded prec emax m2 e2 = true ->
  match e1 ?= e2 with
  | Eq => Pos.compare_cont Eq m1 m2
  | Lt => Lt
  | Gt => Gt
  end = (Z.pos m1 * 2 ^ (e1 + 1074) ?= Z.pos m2 * 2 ^ (e2 + 1074)).
Proof.
  intros H1 H2. destruct (Z.compare_spec e1 e2) as [->|Hlt|Hgt].
  - pose proof (bounded_inv _ _ H2) as (He & _).
    assert (0 < 2 ^ (e2 + 1074)) by (apply Z.pow_pos_nonneg; lia).
    change (Pos.compare_cont Eq m1 m2) with (Z.pos m1 ?= Z.pos m2).
    symmetry. destruct (Z.compare_spec (Z.pos m1) (Z.pos m2)) as [Heq|?|?].
    + rewrite Heq. apply Z.compare_refl.
    + apply Z.compare_lt_iff. nia.
    + apply Z.compare_gt_iff. nia.
  - symmetry. apply Z.compare_lt_iff. by apply scaled_pos_lt.
  - symmetry. apply Z.compare_gt_iff. by apply scaled_pos_lt.
Qed.

(** On the finite numbers of binary64 the comparison is the one of the
    integers they stand for. *)
Lemma compare_scaled x y :
  good x = true -> good y = true ->
  SFcompare x y = Some (scaled x ?= scaled y).
Proof.
  destruct x as [s| | |s m e], y as [t| | |t n f]; try done; intros Hx Hy.
  - apply good_finite, bounded_inv in Hy as (He & _).
    assert (0 < 2 ^ (f + 1074)) by (apply Z.pow_pos_nonneg; lia).
    unfold SFcompare, scaled. f_equal. symmetry. destruct t.
    + apply Z.compare_gt_iff. nia.
    + apply Z.compare_lt_iff. nia.
  - apply good_finite, bounded_inv in Hx as (He & _).
    assert (0 < 2 ^ (e + 1074)) by (apply Z.pow_pos_nonneg; lia).
    unfold SFcompare, scaled. f_equal. symmetry. destruct s.
    + apply Z.compare_lt_iff. nia.
    + apply Z.compare_gt_iff. nia.
  - apply good_finite in Hx, Hy.
    pose proof (bounded_inv _ _ Hx) as (Hex & _).
    pose proof (bounded_inv _ _ Hy) as (Hey & _).
    assert (0 < 2 ^ (e + 1074)) by (apply Z.pow_pos_nonneg; lia).
    assert (0 < 2 ^ (f + 1074)) by (apply Z.pow_pos_nonneg; lia).
    unfold SFcompare. f_equal. destruct s, t.
    + cbn [scaled].
      change (Z.neg m) with (- Z.pos m). change (Z.neg n) with (- Z.pos n).
      rewrite !Z.mul_opp_l, Z.compare_opp.
      rewrite <- (compare_pos_scaled n f m e Hy Hx).
      rewrite (Z.compare_antisym e f).
      destruct (e ?= f); cbn [CompOpp]; try done.
      change (PosDef.Pos.compare_cont Eq m n) with (Pos.compare_cont Eq m n).
      change (Pos.compare_cont Eq m n) with (Pos.compare m n).
      change (Pos.compare_cont Eq n m) with (Pos.compare n m).
      by rewrite (Pos.compare_antisym m n).
    + cbn [scaled]. symmetry. apply Z.compare_lt_iff. nia.
    + cbn [scaled]. symmetry. apply Z.compare_gt_iff. nia.
    + change (PosDef.Pos.compare_cont Eq m n) with (Pos.compare_cont Eq m n).
      apply (compare_pos_scaled m e n f Hx Hy).
Qed.

(** ** Rounding is monotone *)

Lemma rne_pow2 a n : 0 <= n <= a -> rne (2 ^ a) n = 2 ^ (a - n).
Proof.
  intros H. replace a with ((a - n) + n) at 1 by lia.
  rewrite pow2_split by lia.
  rewrite rne_exact by (lia || apply Z.mod_mul; apply Z.pow_nonzero; lia).
  apply Z.div_mul. apply Z.pow_nonzero; lia.
Qed.

Lemma RN_pow2_le K a :
  0 < K -> K <= 2 ^ a -> 0 <= a -> RN K <= 2 ^ a.
Proof.
  intros HK Hle Ha. unfold RN.
  set (k := Z.max 0 (Z.log2 K + 1 - 53)).
  assert (Z.log2 K <= a).
  { rewrite <- (Z.log2_pow2 a) by lia. by apply Z.log2_le_mono. }
  destruct (Z_lt_le_dec a k) as [Hlt|Hge].
  - exfalso. lia.
  - pose proof (rne_mono K (2 ^ a) k ltac:(lia) Hle) as Hm.
    rewrite rne_pow2 in Hm by lia.
    assert (0 < 2 ^ k) by (apply Z.pow_pos_nonneg; lia).
    assert (2 ^ a = 2 ^ (a - k) * 2 ^ k) as Hs
      by (rewrite <- pow2_split by lia; f_equal; lia).
    rewrite Hs. nia.
Qed.

Lemma RN_pow2_ge K a :
  2 ^ a <= K -> 0 <= a -> 2 ^ a <= RN K.
Proof.
  intros Hle Ha. unfold RN.
  assert (0 < 2 ^ a) by (apply Z.pow_pos_nonneg; lia).
  set (k := Z.max 0 (Z.log2 K + 1 - 53)).
  assert (a <= Z.log2 K).
  { rewrite <- (Z.log2_pow2 a) by lia. by apply Z.log2_le_mono. }
  destruct (Z_lt_le_dec a k) as [Hlt|Hge].
  - (* k > a means K has more than 53 bits. *)
    assert (Hk : k = Z.log2 K - 52) by lia.
    pose proof (Z.log2_spec K ltac:(lia)) as [Hlo _].
    pose proof (rne_mono (2 ^ Z.log2 K) K k ltac:(lia) Hlo) as Hm.
    rewrite rne_pow2 in Hm by lia.
    replace (Z.log2 K - k) with 52 in Hm by lia.
    assert (0 < 2 ^ k) by (apply Z.pow_pos_nonneg; lia).
    apply Z.le_trans with (2 ^ 52 * 2 ^ k); [|nia].
    rewrite <- pow2_split by lia. apply Z.pow_le_mono_r; lia.
  - pose proof (rne_mono (2 ^ a) K k ltac:(lia) Hle) as Hm.
    rewrite rne_pow2 in Hm by lia.
    assert (0 < 2 ^ k) by (apply Z.pow_pos_nonneg; lia).
    assert (2 ^ a = 2 ^ (a - k) * 2 ^ k) as Hs
      by (rewrite <- pow2_split by lia; f_equal; lia).
    rewrite Hs. nia.
Qed.

Lemma RN_mono K1 K2 : 0 < K1 -> K1 <= K2 -> RN K1 <= RN K2.
Proof.
  intros H1 Hle.
  destruct (Z.eq_dec (Z.log2 K1) (Z.log2 K2)) as [Heq|Hne].
  - unfold RN. rewrite Heq.
    set (k := Z.max 0 (Z.log2 K2 + 1 - 53)).
    assert (0 < 2 ^ k) by (apply Z.pow_pos_nonneg; lia).
    pose proof (rne_mono K1 K2 k ltac:(lia) Hle). nia.
  - pose proof (Z.log2_le_mono K1 K2 Hle) as Hl.
    pose proof (Z.log2_nonneg K1) as Hn.
    pose proof (Z.log2_spec K1 H1) as [_ Hhi].
    pose proof (Z.log2_spec K2 ltac:(lia)) as [Hlo _].
    apply Z.le_trans with (2 ^ Z.log2 K2).
    + apply RN_pow2_le; [done| |lia].
      apply Z.le_trans with (2 ^ Z.succ (Z.log2 K1)); [lia|].
      apply Z.pow_le_mono_r; lia.
    + apply RN_pow2_ge; lia.
Qed.

(** A finite number of binary64 is its own rounding. *)
Lemma RN_bounded m e :
  bounded prec emax m e = true ->
  RN (Z.pos m * 2 ^ (e + 1074)) = Z.pos m * 2 ^ (e + 1074).
Proof.
  intros (He & Hd & Hc)%bounded_inv.
  pose proof (digits2_bounds m) as Hb.
  destruct Hc as [Hc|Hc].
  - rewrite Hc in Hb. apply RN_exact; [exact Hb|lia].
  - subst e. change (2 ^ (-1074 + 1074)) with 1. rewrite Z.mul_1_r.
    apply RN_small. split; [lia|].
    eapply Z.lt_le_trans; [apply Hb|]. apply Z.pow_le_mono_r; lia.
Qed.

Lemma roundsTo_self m e :
  bounded prec emax m e = true ->
  roundsTo (Z.pos m * 2 ^ (e + 1074)) (S754_finite false m e).
Proof. intros H. split; [done|]. by rewrite RN_bounded. Qed.

(** ** Subtraction *)

Lemma aligned_scaled s m e ez :
  -1074 <= ez -> ez <= e ->
  cond_Zopp s (Z.pos (shl_align m e ez).1) * 2 ^ (ez + 1074)
  = scaled (S754_finite s m e).
Proof.
  intros Hz He. destruct (shl_align_value m e ez He) as [_ ->].
  cbn [scaled]. replace (e + 1074) with ((e - ez) + (ez + 1074)) by lia.
  rewrite (pow2_split (e - ez)) by lia. destruct s; cbn [cond_Zopp]; lia.
Qed.

(** The difference of two finite numbers, the larger first, is the
    rounding of the exact difference. *)
Lemma sub_scaled x y :
  good x = true -> good y = true -> scaled y < scaled x ->
  roundsTo (scaled x - scaled y) (sub x y).
Proof.
  destruct x as [sx| | |sx mx ex], y as [sy| | |sy my ey]; try done;
    intros Hx Hy Hlt.
  - apply good_finite in Hy. pose proof (bounded_inv _ _ Hy) as (He & _).
    assert (0 < 2 ^ (ey + 1074)) by (apply Z.pow_pos_nonneg; lia).
    destruct sy; cbn [scaled] in *; [|nia].
    unfold sub. cbn [SFsub negb].
    replace (0 - Z.neg my * 2 ^ (ey + 1074)) with (Z.pos my * 2 ^ (ey + 1074)) by lia.
    by apply roundsTo_self.
  - apply good_finite in Hx. pose proof (bounded_inv _ _ Hx) as (He & _).
    assert (0 < 2 ^ (ex + 1074)) by (apply Z.pow_pos_nonneg; lia).
    destruct sx; cbn [scaled] in *; [nia|].
    unfold sub. cbn [SFsub]. rewrite Z.sub_0_r. by apply roundsTo_self.
  - apply good_finite in Hx, Hy.
    pose proof (bounded_inv _ _ Hx) as (Hex & _).
    pose proof (bounded_inv _ _ Hy) as (Hey & _).
    unfold sub. cbn [SFsub]. set (ez := Z.min ex ey).
    pose proof (aligned_scaled sx mx ex ez ltac:(lia) ltac:(lia)) as Hax.
    pose proof (aligned_scaled sy my ey ez ltac:(lia) ltac:(lia)) as Hay.
    set (ax := cond_Zopp sx _) in *. set (ay := cond_Zopp sy _) in *.
    assert (0 < 2 ^ (ez + 1074)) by (apply Z.pow_pos_nonneg; lia).
    rewrite <- Hax, <- Hay in *.
    destruct (ax - ay) as [|d|d] eqn:Hd; [nia| |nia].
    cbn [binary_normalize].
    replace (ax * 2 ^ (ez + 1074) - ay * 2 ^ (ez + 1074))
      with (Z.pos d * 2 ^ (ez + 1074)) by nia.
    apply binary_round_scaled. lia.
Qed.

(** ** A quotient that is at most one *)

Lemma shr_record_of_loc_m m l : shr_m (shr_record_of_loc m l) = m.
Proof. by destruct l as [|[]]. Qed.

Lemma loc_of_shr_record_of_loc m l :
  loc_of_shr_record (shr_record_of_loc m l) = l.
Proof. by destruct l as [|[]]. Qed.

Lemma round_nearest_even_bounds m l :
  m <= round_nearest_even m l <= m + 1.
Proof. destruct l as [|[]]; cbn; [lia| |lia|lia]. destruct (Z.even m); lia. Qed.

Lemma Zdigits2_le q a :
  0 <= q <= 2 ^ a -> 0 <= a -> Zdigits2 q <= a + 1.
Proof.
  intros [H0 Hq] Ha. destruct q as [|p|p]; [cbn; lia| |lia].
  cbn [Zdigits2]. rewrite digits2_log2.
  assert (Z.log2 (Z.pos p) <= a); [|lia].
  rewrite <- (Z.log2_pow2 a) by lia. by apply Z.log2_le_mono.
Qed.

(** Rounding a number that is at most one, held as [q 2^e], leaves it at
    most one. *)
Lemma shr_fexp_le_one q e l :
  0 <= q <= 2 ^ (- e) -> e <= -52 -> (q = 2 ^ (- e) -> l = loc_Exact) ->
  let mrs := (shr_fexp prec emax q e l).1 in
  let e' := (shr_fexp prec emax q e l).2 in
  let M := round_nearest_even (shr_m mrs) (loc_of_shr_record mrs) in
  e' <= -52 /\ 0 <= shr_m mrs <= M /\ M <= 2 ^ (- e').
Proof.
  intros Hq He Hl. cbv zeta. unfold shr_fexp.
  pose proof (Zdigits2_le q (- e) Hq ltac:(lia)) as Hd.
  set (n := fexp prec emax (Zdigits2 q + e) - e).
  assert (Hn : e + n <= -52).
  { unfold n. rewrite fexp_eq. lia. }
  destruct (Z_le_gt_dec n 0) as [Hn0|Hn0].
  - assert (shr (shr_record_of_loc q l) e n = (shr_record_of_loc q l, e)) as ->.
    { destruct n; try done; lia. }
    cbn [fst snd]. rewrite shr_record_of_loc_m, loc_of_shr_record_of_loc.
    pose proof (round_nearest_even_bounds q l) as Hb.
    split; [done|]. split; [lia|].
    destruct (Z.eq_dec q (2 ^ (- e))) as [Heq|Hne].
    + rewrite (Hl Heq). cbn. lia.
    + lia.
  - destruct (shr_m_spec (shr_record_of_loc q l) e n) as [Hm He'];
      [rewrite shr_record_of_loc_m; lia|lia|].
    rewrite shr_record_of_loc_m in Hm.
    assert (Hp : 0 < 2 ^ n) by (apply Z.pow_pos_nonneg; lia).
    assert (Hs : 2 ^ (- e) = 2 ^ (- (e + n)) * 2 ^ n).
    { rewrite <- pow2_split by lia. f_equal. lia. }
    assert (Hm' : 0 <= q / 2 ^ n <= 2 ^ (- (e + n))).
    { split; [apply Z.div_pos; lia|].
      apply Z.div_le_upper_bound; [lia|]. lia. }
    destruct (Z.eq_dec q (2 ^ (- e))) as [Heq|Hne].
    + rewrite (Hl Heq) in *. cbn [shr_record_of_loc] in *.
      pose proof (shr_exact_round q e n ltac:(lia) ltac:(lia)) as Hr.
      cbv zeta in Hr. rewrite Hr, He', Hm.
      rewrite rne_exact; [lia|lia|].
      rewrite Heq, Hs. apply Z.mod_mul. lia.
    + rewrite He'.
      pose proof (round_nearest_even_bounds
                    (shr_m (shr (shr_record_of_loc q l) e n).1)
                    (loc_of_shr_record (shr (shr_record_of_loc q l) e n).1)) as Hb.
      rewrite Hm in *. split; [done|]. split; [lia|].
      assert (q / 2 ^ n < 2 ^ (- (e + n))); [|lia].
      apply Z.div_lt_upper_bound; [lia|]. lia.
Qed.

Lemma binary_round_aux_le_one q e l :
  0 <= q <= 2 ^ (- e) -> e <= -52 -> (q = 2 ^ (- e) -> l = loc_Exact) ->
  let r := binary_round_aux prec emax false q e l in
  leb zero r = true /\ leb r one = true.
Proof.
  intros Hq He Hl. cbv zeta. unfold binary_round_aux.
  destruct (shr_fexp_le_one q e l Hq He Hl) as (He1 & Hm1 & HM).
  destruct (shr_fexp prec emax q e l) as [mrs1 e1]. cbn [fst snd] in *.
  set (M := round_nearest_even _ _) in *.
  destruct (shr_fexp_le_one M e1 loc_Exact ltac:(lia) He1 ltac:(done))
    as (He2 & Hm2 & HM2).
  destruct (shr_fexp prec emax M e1 loc_Exact) as [mrs2 e2]. cbn [fst snd] in *.
  destruct (shr_m mrs2) as [|p|p] eqn:Hp; [done| |lia].
  destruct (Z.leb_spec e2 (emax - prec)) as [_|Hgt]; [|unfold emax, prec in Hgt; lia].
  split; [done|].
  unfold leb, SFleb, one, SFcompare.
  destruct (Z.compare_spec e2 (-52)) as [->|?|?]; [|done|lia].
  change (- -52) with 52 in HM2. change (2 ^ 52) with 4503599627370496 in HM2.
  assert (Hp52 : Z.pos p <= 4503599627370496) by lia.
  destruct (PosDef.Pos.compare_cont Eq p 4503599627370496) eqn:Hc; try done;
    exfalso; apply Hp52; exact Hc.
Qed.

Lemma new_location_zero nb : new_location nb 0 = loc_Exact.
Proof. unfold new_location. by destruct (Z.even nb). Qed.

(** The quotient of two positive numbers, the smaller above, is in
    [0, 1]. *)
Lemma div_le_one m1 e1 m2 e2 :
  -1074 <= e1 -> -1074 <= e2 ->
  Z.pos m1 * 2 ^ (e1 + 1074) <= Z.pos m2 * 2 ^ (e2 + 1074) ->
  let r := div (S754_finite false m1 e1) (S754_finite false m2 e2) in
  leb zero r = true /\ leb r one = true.
Proof.
  intros He1 He2 Hle. cbv zeta. unfold div, SFdiv, SFdiv_core_binary.
  cbn [Zdigits2 xorb].
  set (d1 := Z.pos (digits2_pos m1)). set (d2 := Z.pos (digits2_pos m2)).
  pose proof (digits2_bounds m1) as Hb1. pose proof (digits2_bounds m2) as Hb2.
  fold d1 in Hb1. fold d2 in Hb2.
  assert (Hd : d1 + e1 <= d2 + e2).
  { assert (2 ^ (d1 - 1 + (e1 + 1074)) < 2 ^ (d2 + (e2 + 1074))) as Hlt.
    { assert (0 < d1 /\ 0 < d2) as [? ?] by (unfold d1, d2; lia).
      rewrite (pow2_split (d1 - 1)), (pow2_split d2) by lia.
      assert (0 < 2 ^ (e1 + 1074)) by (apply Z.pow_pos_nonneg; lia).
      assert (0 < 2 ^ (e2 + 1074)) by (apply Z.pow_pos_nonneg; lia).
      apply Z.le_lt_trans with (Z.pos m1 * 2 ^ (e1 + 1074)).
      - apply Z.mul_le_mono_nonneg_r; lia.
      - eapply Z.le_lt_trans; [exact Hle|].
        apply Z.mul_lt_mono_pos_r; lia. }
    apply Z.pow_lt_mono_r_iff in Hlt; lia. }
  set (e' := Z.min (fexp prec emax (d1 + e1 - (d2 + e2))) (e1 - e2)).
  assert (He' : e' <= -53).
  { unfold e'. rewrite fexp_eq. lia. }
  set (s := e1 - e2 - e').
  assert (Hs : 0 <= s) by (unfold s, e'; lia).
  set (m' := match s with Z.pos _ => Z.shiftl (Z.pos m1) s | 0 => Z.pos m1
             | Z.neg _ => 0 end).
  assert (Hm' : m' = Z.pos m1 * 2 ^ s).
  { unfold m'. destruct s as [|p|p] eqn:Hsp; [lia| |lia].
    by rewrite Z.shiftl_mul_pow2. }
  (* [m'] against the divisor *)
  assert (Hbound : m' <= Z.pos m2 * 2 ^ (- e')).
  { rewrite Hm'.
    assert (0 < 2 ^ (e1 + 1074)) by (apply Z.pow_pos_nonneg; lia).
    apply Z.mul_le_mono_pos_r with (2 ^ (e1 + 1074)); [done|].
    rewrite <- !Z.mul_assoc, <- !pow2_split by lia.
    replace (- e' + (e1 + 1074)) with (s + (e2 + 1074)) by (unfold s; lia).
    rewrite (pow2_split s (e2 + 1074)) by lia.
    rewrite (pow2_split s (e1 + 1074)) by lia.
    assert (0 < 2 ^ s) by (apply Z.pow_pos_nonneg; lia). nia. }
  pose proof (Z_div_mod m' (Z.pos m2) ltac:(lia)) as Hdm.
  destruct (Z.div_eucl m' (Z.pos m2)) as [q r]. destruct Hdm as [Hdm Hr].
  assert (0 <= m') by (rewrite Hm'; apply Z.mul_nonneg_nonneg; [lia|apply Z.pow_nonneg; lia]).
  assert (0 < 2 ^ (- e')) by (apply Z.pow_pos_nonneg; lia).
  apply binary_round_aux_le_one.
  - split; nia.
  - lia.
  - intros Hq. assert (r = 0) as -> by nia. apply new_location_zero.
Qed.

(** ** Minimum and maximum of finite numbers *)

Lemma good_isFiniteNum x : good x = true -> isFiniteNum x = true.
Proof. by intros [? _]%andb_prop. Qed.

Lemma good_not_NaN xs :
  Forall (fun x => good x = true) xs -> existsb isNaN xs = false.
Proof.
  induction 1 as [|x xs Hx _ IH]; [done|]. cbn [existsb]. rewrite IH.
  by destruct x.
Qed.

Lemma filter_good xs :
  Forall (fun x => good x = true) xs -> List.filter isFiniteNum xs = xs.
Proof.
  induction 1 as [|x xs Hx _ IH]; [done|]. cbn [List.filter].
  by rewrite (good_isFiniteNum x Hx), IH.
Qed.

Lemma ltb_scaled x y :
  good x = true -> good y = true -> ltb x y = (scaled x <? scaled y).
Proof.
  intros Hx Hy. unfold ltb, SFltb, Z.ltb. rewrite (compare_scaled x y Hx Hy).
  by destruct (scaled x ?= scaled y).
Qed.

Lemma eqb_scaled x y :
  good x = true -> good y = true -> eqb x y = (scaled x =? scaled y).
Proof.
  intros Hx Hy. unfold eqb, SFeqb. rewrite (compare_scaled x y Hx Hy).
  destruct (Z.compare_spec (scaled x) (scaled y)),
    (Z.eqb_spec (scaled x) (scaled y)); try done; lia.
Qed.

Lemma min_step_good lowest number :
  good lowest = true -> good number = true ->
  good (min_step lowest number) = true
  /\ scaled (min_step lowest number) = Z.min (scaled lowest) (scaled number).
Proof.
  intros Hl Hn. unfold min_step.
  destruct (isNegZero number && isPosZero lowest) eqn:Hz.
  - split; [done|]. apply andb_prop in Hz as [H1 H2].
    destruct number as [[]| | |]; try done. by destruct lowest as [[]| | |].
  - rewrite (ltb_scaled number lowest Hn Hl).
    destruct (Z.ltb_spec (scaled number) (scaled lowest)); split; try done; lia.
Qed.

Lemma max_step_good highest number :
  good highest = true -> good number = true ->
  good (max_step highest number) = true
  /\ scaled (max_step highest number) = Z.max (scaled highest) (scaled number).
Proof.
  intros Hh Hn. unfold max_step.
  destruct (isPosZero number && isNegZero highest) eqn:Hz.
  - split; [done|]. apply andb_prop in Hz as [H1 H2].
    destruct number as [[]| | |]; try done. by destruct highest as [[]| | |].
  - rewrite (ltb_scaled highest number Hh Hn).
    destruct (Z.ltb_spec (scaled highest) (scaled number)); split; try done; lia.
Qed.

Lemma fold_min_good xs acc :
  good acc = true -> Forall (fun x => good x = true) xs ->
  good (fold_left min_step xs acc) = true
  /\ scaled (fold_left min_step xs acc) <= scaled acc
  /\ Forall (fun x => scaled (fold_left min_step xs acc) <= scaled x) xs.
Proof.
  intros Hacc Hxs. revert acc Hacc.
  induction Hxs as [|x xs Hx _ IH]; intros acc Hacc; cbn [fold_left].
  - split; [done|]. split; [lia|constructor].
  - destruct (min_step_good acc x Hacc Hx) as [Hg Hs].
    destruct (IH _ Hg) as (Hg' & Hle & Hall). rewrite Hs in Hle.
    split; [done|]. split; [lia|]. constructor; [lia|done].
Qed.

Lemma fold_max_good xs acc :
  good acc = true -> Forall (fun x => good x = true) xs ->
  good (fold_left max_step xs acc) = true
  /\ scaled acc <= scaled (fold_left max_step xs acc)
  /\ Forall (fun x => scaled x <= scaled (fold_left max_step xs acc)) xs.
Proof.
  intros Hacc Hxs. revert acc Hacc.
  induction Hxs as [|x xs Hx _ IH]; intros acc Hacc; cbn [fold_left].
  - split; [done|]. split; [lia|constructor].
  - destruct (max_step_good acc x Hacc Hx) as [Hg Hs].
    destruct (IH _ Hg) as (Hg' & Hle & Hall). rewrite Hs in Hle.
    split; [done|]. split; [lia|]. constructor; [lia|done].
Qed.

(** [Math.min] of finite numbers is a finite number below all of them. *)
Lemma Math_min_good x xs :
  Forall (fun x => good x = true) (x :: xs) ->
  good (Math_min (x :: xs)) = true
  /\ Forall (fun y => scaled (Math_min (x :: xs)) <= scaled y) (x :: xs).
Proof.
  intros Hall. unfold Math_min. rewrite (good_not_NaN _ Hall).
  inversion Hall as [|? ? Hx Hxs]; subst. cbn [fold_left].
  assert (min_step POSITIVE_INFINITY x = x) as ->.
  { by destruct x as [[]| | |[]]. }
  destruct (fold_min_good xs x Hx Hxs) as (Hg & Hle & Hrest).
  split; [done|]. by constructor.
Qed.

Lemma Math_max_good x xs :
  Forall (fun x => good x = true) (x :: xs) ->
  good (Math_max (x :: xs)) = true
  /\ Forall (fun y => scaled y <= scaled (Math_max (x :: xs))) (x :: xs).
Proof.
  intros Hall. unfold Math_max. rewrite (good_not_NaN _ Hall).
  inversion Hall as [|? ? Hx Hxs]; subst. cbn [fold_left].
  assert (max_step NEGATIVE_INFINITY x = x) as ->.
  { by destruct x as [[]| | |[]]. }
  destruct (fold_max_good xs x Hx Hxs) as (Hg & Hle & Hrest).
  split; [done|]. by constructor.
Qed.

(** ** The scaled values *)

Lemma sub_scaled_eq x y :
  good x = true -> good y = true -> scaled x = scaled y ->
  exists s, sub x y = S754_zero s.
Proof.
  destruct x as [sx| | |sx mx ex], y as [sy| | |sy my ey]; try done;
    intros Hx Hy Heq.
  - unfold sub. cbn [SFsub]. destruct sx, sy; by eexists.
  - apply good_finite in Hy. pose proof (bounded_inv _ _ Hy) as (He & _).
    assert (0 < 2 ^ (ey + 1074)) by (apply Z.pow_pos_nonneg; lia).
    cbn [scaled] in Heq. destruct sy; nia.
  - apply good_finite in Hx. pose proof (bounded_inv _ _ Hx) as (He & _).
    assert (0 < 2 ^ (ex + 1074)) by (apply Z.pow_pos_nonneg; lia).
    cbn [scaled] in Heq. destruct sx; nia.
  - apply good_finite in Hx, Hy.
    pose proof (bounded_inv _ _ Hx) as (Hex & _).
    pose proof (bounded_inv _ _ Hy) as (Hey & _).
    unfold sub. cbn [SFsub]. set (ez := Z.min ex ey).
    pose proof (aligned_scaled sx mx ex ez ltac:(lia) ltac:(lia)) as Hax.
    pose proof (aligned_scaled sy my ey ez ltac:(lia) ltac:(lia)) as Hay.
    set (ax := cond_Zopp sx _) in *. set (ay := cond_Zopp sy _) in *.
    assert (0 < 2 ^ (ez + 1074)) by (apply Z.pow_pos_nonneg; lia).
    rewrite <- Hax, <- Hay in Heq.
    assert (ax - ay = 0) as -> by nia. by eexists.
Qed.

Lemma bounded_below_overflow m e :
  bounded prec emax m e = true -> Z.pos m * 2 ^ (e + 1074) < 2 ^ 2098.
Proof.
  intros (He & Hd & _)%bounded_inv.
  pose proof (digits2_bounds m) as [_ Hb].
  assert (Z.pos m < 2 ^ 53).
  { eapply Z.lt_le_trans; [apply Hb|]. apply Z.pow_le_mono_r; lia. }
  assert (2 ^ (e + 1074) <= 2 ^ 2045) by (apply Z.pow_le_mono_r; lia).
  assert (0 < 2 ^ (e + 1074)) by (apply Z.pow_pos_nonneg; lia).
  change (2 ^ 2098) with (2 ^ 53 * 2 ^ 2045). nia.
Qed.

(** One scaled value: [(value - min) / (max - min)] with
    [min <= value <= max], [min < max] and a range that did not
    overflow. *)
Lemma scaled_value_inUnit value min max :
  good value = true -> good min = true -> good max = true ->
  scaled min <= scaled value <= scaled max -> scaled min < scaled max ->
  isFiniteNum (sub max min) = true ->
  inUnit (div (sub value min) (sub max min)) = true.
Proof.
  intros Hv Hlo Hhi [Hle1 Hle2] Hlt Hfin.
  pose proof (sub_scaled max min Hhi Hlo Hlt) as Hd.
  destruct (sub max min) as [| | |[] M e]; try done.
  cbn [roundsTo] in Hd. destruct Hd as [HdB HdV].
  pose proof (bounded_inv _ _ HdB) as (HdE & _).
  destruct (Z.eq_dec (scaled value) (scaled min)) as [Heq|Hne].
  - destruct (sub_scaled_eq value min Hv Hlo Heq) as [s ->].
    unfold div. cbn [SFdiv]. by destruct s.
  - pose proof (sub_scaled value min Hv Hlo ltac:(lia)) as Hn.
    pose proof (RN_mono (scaled value - scaled min) (scaled max - scaled min)
                  ltac:(lia) ltac:(lia)) as Hmono.
    rewrite <- HdV in Hmono.
    pose proof (bounded_below_overflow _ _ HdB) as Hov.
    destruct (sub value min) as [| [] | |[] Mn en]; try done.
    + cbn [roundsTo] in Hn. lia.
    + cbn [roundsTo] in Hn. destruct Hn as [HnB HnV].
      pose proof (bounded_inv _ _ HnB) as (HnE & _).
      destruct (div_le_one Mn en M e ltac:(lia) ltac:(lia) ltac:(lia)) as [H0 H1].
      unfold inUnit. by rewrite H0, H1.
Qed.

(** Min-max scaling of finite numbers whose range does not overflow
    gives numbers of [0, 1]. *)
Lemma minMaxScale_inUnit series :
  Forall (fun x => good x = true) series ->
  isFiniteNum (sub (Math_max series) (Math_min series)) = true ->
  Forall (fun y => inUnit y = true) (minMaxScale series).
Proof.
  intros Hall Hfin. unfold minMaxScale. rewrite (filter_good _ Hall).
  destruct series as [|x xs]; [by destruct (_ || _)|].
  destruct (Math_min_good x xs Hall) as [Hlo Hlos].
  destruct (Math_max_good x xs Hall) as [Hhi His].
  set (lo := Math_min (x :: xs)) in *. set (hi := Math_max (x :: xs)) in *.
  rewrite (good_isFiniteNum _ Hlo), (good_isFiniteNum _ Hhi).
  rewrite (eqb_scaled lo hi Hlo Hhi). cbn [negb orb].
  destruct (Z.eqb_spec (scaled lo) (scaled hi)) as [Heq|Hne].
  - apply List.Forall_forall. intros y (v & <- & _)%List.in_map_iff. done.
  - assert (Hlt : scaled lo < scaled hi).
    { inversion Hlos; inversion His; subst. lia. }
    apply List.Forall_forall. intros y (v & <- & Hv)%List.in_map_iff.
    rewrite List.Forall_forall in Hall, Hlos, His.
    apply scaled_value_inUnit; auto.
Qed.

(** ** Scaling *)

Lemma filter_none_finite (series : list num) :
  Forall (fun x => isFiniteNum x = false) series ->
  List.filter isFiniteNum series = [].
Proof.
  induction 1 as [|x l Hx _ IH]; [done|]. cbn. by rewrite Hx.
Qed.

Lemma filter_all_finite (series : list num) :
  Forall (fun x => isFiniteNum x = true) series ->
  List.filter isFiniteNum series = series.
Proof.
  induction 1 as [|x l Hx _ IH]; [done|]. cbn. by rewrite Hx, IH.
Qed.

Lemma fillPass_none_finite (series : list num) :
  Forall (fun x => isFiniteNum x = false) series -> fillPass None series = series.
Proof.
  induction 1 as [|x l Hx _ IH]; [done|]. cbn. by rewrite Hx, IH.
Qed.

Lemma fillMissingValues_none_finite (series : list num) :
  Forall (fun x => isFiniteNum x = false) series ->
  fillMissingValues series = series.
Proof.
  intros H. unfold fillMissingValues.
  rewrite (fillPass_none_finite series H).
  rewrite fillPass_none_finite by by apply Forall_reverse.
  apply reverse_involutive.
Qed.

Lemma map_const_replicate {A B} (b : B) (l : list A) :
  map (fun _ => b) l = replicate (length l) b.
Proof. induction l as [|x l IH]; [done|]. cbn. by rewrite IH. Qed.

Lemma minMaxScale_none_finite (series : list num) :
  Forall (fun x => isFiniteNum x = false) series ->
  minMaxScale series = replicate (length series) zero.
Proof.
  intros H. unfold minMaxScale. rewrite (filter_none_finite series H). cbn.
  apply map_const_replicate.
Qed.

Lemma existsb_isNaN_replicate n c :
  isFiniteNum c = true -> existsb isNaN (replicate n c) = false.
Proof.
  intros Hc. induction n as [|n IH]; [done|]. cbn. rewrite IH.
  by destruct c.
Qed.

Lemma fold_min_replicate n c :
  fold_left min_step (replicate n c) c = c.
Proof.
  induction n as [|n IH]; [done|]. cbn.
  assert (min_step c c = c) as ->; [|done].
  unfold min_step. rewrite ltb_irrefl. by destruct c as [[]|[]| |[] m e].
Qed.

Lemma fold_max_replicate n c :
  fold_left max_step (replicate n c) c = c.
Proof.
  induction n as [|n IH]; [done|]. cbn.
  assert (max_step c c = c) as ->; [|done].
  unfold max_step. rewrite ltb_irrefl. by destruct c as [[]|[]| |[] m e].
Qed.

Lemma Math_min_replicate n c :
  isFiniteNum c = true -> Math_min (replicate (S n) c) = c.
Proof.
  intros Hc. unfold Math_min. rewrite existsb_isNaN_replicate by done. cbn.
  assert (min_step POSITIVE_INFINITY c = c) as ->.
  { unfold min_step. rewrite ltb_finite_infinity by done. by destruct c as [[]|[]| |[] m e]. }
  apply fold_min_replicate.
Qed.

Lemma Math_max_replicate n c :
  isFiniteNum c = true -> Math_max (replicate (S n) c) = c.
Proof.
  intros Hc. unfold Math_max. rewrite existsb_isNaN_replicate by done. cbn.
  assert (max_step NEGATIVE_INFINITY c = c) as ->.
  { unfold max_step. rewrite ltb_infinity_finite by done. by destruct c as [[]|[]| |[] m e]. }
  apply fold_max_replicate.
Qed.

(** Min-max scaling sends every constant series to zeros, whatever the
    constant (a number, an infinity or NaN) and the length. *)
Lemma minMaxScale_constant n c :
  minMaxScale (replicate n c) = replicate n zero.
Proof.
  destruct (isFiniteNum c) eqn:Hc.
  - unfold minMaxScale.
    rewrite filter_all_finite by (apply Forall_replicate; done).
    destruct n as [|n]; [done|].
    rewrite Math_min_replicate, Math_max_replicate by done.
    rewrite Hc, eqb_refl_finite by done. cbn [negb orb].
    by rewrite map_const_replicate, length_replicate.
  - rewrite minMaxScale_none_finite by (apply Forall_replicate; done).
    by rewrite length_replicate.
Qed.

Lemma sumBy_zeros (g : num -> num) n :
  g zero = zero -> sumBy g (replicate n zero) = zero.
Proof.
  intros Hg. unfold sumBy. induction n as [|n IH]; [done|].
  cbn. by rewrite Hg.
Qed.

(** Standard scaling sends the series of zeros to zeros: the mean and the
    standard deviation are computed as 0. *)
Lemma standardScale_zeros n :
  Z.of_nat n < 2 ^ 53 -> standardScale (replicate n zero) = replicate n zero.
Proof.
  intros Hn. unfold standardScale.
  rewrite filter_all_finite by (by apply Forall_replicate).
  rewrite length_replicate. destruct n as [|n]; [done|].
  cbn [Nat.eqb].
  destruct (ofZ_pos_finite (Pos.of_succ_nat n)) as (m & e & Hof); [lia|].
  replace (Z.of_nat (S n)) with (Z.pos (Pos.of_succ_nat n)) by lia. rewrite Hof.
  rewrite (sumBy_zeros (fun value => value)) by done.
  change (div zero (S754_finite false m e)) with zero.
  rewrite (sumBy_zeros (fun value => square (sub value zero))) by done.
  change (div zero (S754_finite false m e)) with zero.
  change (sqrt zero) with zero. cbn [isFiniteNum zero negb orb].
  change (eqb zero zero) with true. cbv iota.
  by rewrite map_const_replicate, length_replicate.
Qed.

(** The three derived series start with 0, so a derived series that is
    constant is a series of zeros. *)
Lemma derived_constant_is_zero closes n c :
  (0 < n)%nat ->
  returnsOf closes = replicate n c \/ momentum3Of closes = replicate n c
  \/ volatility5Of closes = replicate n c ->
  c = zero.
Proof.
  intros Hn H.
  assert (Hhead : forall series, series = replicate n c -> series !! 0%nat = Some c).
  { intros series ->. by apply lookup_replicate_2. }
  destruct H as [H|[H|H]]; apply Hhead in H;
    destruct closes as [|x closes]; cbn in H; congruence.
Qed.

(** C5.  Standard scaling does not send every constant series to zeros:
    the mean of [0.1, 0.1, 0.1] is computed as 0.10000000000000002, the
    standard deviation is then 2^-56 and not 0, and the three values are
    scaled to -1.  Min-max scaling of a finite series whose range
    overflows leaves [0, 1] as well: [-MAX_VALUE, MAX_VALUE] gives
    [0, NaN], also as the normalised closes of a symbol with these two
    closes in the rows. *)
Theorem standardScale_constant_not_zero :
  standardScale [tenth; tenth; tenth] = [SFopp one; SFopp one; SFopp one]
  /\ minMaxScale [SFopp MAX_VALUE; MAX_VALUE] = [zero; NaN]
  /\ series_Close <$>
       normalisedCube (buildFeatureCube isoTimeValue (loaderOf 1 1 lit_0_8 rowsHuge)) !! "A"
     = Some [zero; NaN].
Proof. split; [|split]; vm_compute; reflexivity. Qed.

(** ** The window loop *)

Lemma traverse_valid {A B} (body : A -> window B) (xs : list A) :
  (forall x, x ∈ xs -> exists y, body x = Valid y) ->
  exists ys, traverse body xs = Valid ys.
Proof.
  induction xs as [|x xs IH]; intros H; [by eexists|].
  destruct (H x) as [y Hy]; [by left|].
  destruct IH as [ys Hys]; [intros z Hz; apply H; by right|].
  exists (y :: ys). cbn. by rewrite Hy, Hys.
Qed.

Lemma traverse_inv {A B} (body : A -> window B) (xs : list A) ys :
  traverse body xs = Valid ys -> Forall2 (fun x y => body x = Valid y) xs ys.
Proof.
  revert ys. induction xs as [|x xs IH]; intros ys; cbn.
  - intros [= <-]. constructor.
  - destruct (body x) as [y| |e] eqn:Hy; [|done|done]. cbn.
    destruct (traverse body xs) as [ys'| |e]; [|done|done]. cbn.
    intros [= <-]. constructor; [done|]. by apply IH.
Qed.

Lemma collect_length_le {A B} (body : A -> window B) (xs : list A) ys :
  collect body xs = Ok ys -> (length ys <= length xs)%nat.
Proof.
  revert ys. induction xs as [|x xs IH]; intros ys; cbn.
  - intros [= <-]. done.
  - destruct (body x) as [y| |e]; [| |done].
    + destruct (collect body xs) as [ys'|e]; [|done]. cbn.
      intros [= <-]. cbn. specialize (IH ys' eq_refl). lia.
    + intros H. specialize (IH ys H). lia.
Qed.

Lemma collect_all_valid {A B} (body : A -> window B) (xs : list A) :
  (forall x, x ∈ xs -> exists y, body x = Valid y) ->
  exists ys, collect body xs = Ok ys /\ length ys = length xs.
Proof.
  induction xs as [|x xs IH]; intros H; [by eexists|].
  destruct (H x) as [y Hy]; [by left|].
  destruct IH as (ys & Hys & Hlen); [intros z Hz; apply H; by right|].
  exists (y :: ys). cbn. rewrite Hy, Hys. cbn. by rewrite Hlen.
Qed.

Lemma anchorsOf_length l :
  Z.of_nat (length (anchorsOf l)) = Z.max 0 (windowCount l).
Proof. unfold anchorsOf, windowCount. rewrite length_seqZ. lia. Qed.

Lemma seriesComplete_read n series i :
  seriesComplete n series = true -> 0 <= i < Z.of_nat n ->
  exists x, readFinite (get series i) = Valid x.
Proof.
  unfold seriesComplete. intros [Hlen Hfin]%andb_prop Hi.
  apply Nat.eqb_eq in Hlen.
  unfold get. destruct (Z.ltb_spec i 0) as [|_]; [lia|].
  destruct (lookup_lt_is_Some_2 series (Z.to_nat i)) as [x Hx]; [lia|].
  exists x. rewrite Hx. cbn.
  rewrite forallb_forall in Hfin. rewrite Hfin; [done|].
  apply list_elem_of_In. by eapply list_elem_of_lookup_2.
Qed.

Lemma timestepAt_valid l index :
  noMissing l = true -> 0 <= index < Z.of_nat (length (dates l)) ->
  exists t, timestepAt l index = Valid t.
Proof.
  intros Hno Hi. unfold timestepAt.
  match goal with
  | |- context [traverse ?b (symbols l)] =>
      destruct (traverse_valid b (symbols l)) as [parts ->]; [|by eexists]
  end.
  intros symbol Hs. apply traverse_valid. intros key Hk.
  unfold noMissing in Hno. rewrite forallb_forall in Hno.
  specialize (Hno symbol). rewrite <- list_elem_of_In in Hno. specialize (Hno Hs).
  destruct (normalisedCube l !! symbol) as [nf|]; [|done].
  destruct (featureCube l !! symbol) as [f|]; [|done].
  apply andb_prop in Hno as [Hno _]. rewrite forallb_forall in Hno.
  eapply seriesComplete_read; [|done]. apply Hno. by apply list_elem_of_In.
Qed.

Lemma targetAt_valid l anchor :
  noMissing l = true -> 0 <= anchor -> 0 <= predictionHorizon l ->
  anchor + predictionHorizon l < Z.of_nat (length (dates l)) ->
  exists t, targetAt l anchor = Valid t.
Proof.
  intros Hno Ha HH Hlt. unfold targetAt.
  match goal with
  | |- context [traverse ?b (symbols l)] =>
      destruct (traverse_valid b (symbols l)) as [parts ->]; [|by eexists]
  end.
  intros symbol Hs.
  unfold noMissing in Hno. rewrite forallb_forall in Hno.
  specialize (Hno symbol). rewrite <- list_elem_of_In in Hno. specialize (Hno Hs).
  destruct (normalisedCube l !! symbol) as [nf|]; [|done].
  destruct (featureCube l !! symbol) as [f|]; [|done].
  apply andb_prop in Hno as [_ Hno].
  destruct (seriesComplete_read _ _ anchor Hno) as [b ->]; [lia|]. cbn.
  apply traverse_valid. intros horizon Hh.
  apply elem_of_seqZ in Hh.
  destruct (seriesComplete_read _ _ (anchor + horizon) Hno) as [x ->]; [lia|].
  by eexists.
Qed.

Lemma sampleAt_valid l anchor :
  noMissing l = true -> 1 <= sequenceLength l -> 0 <= predictionHorizon l ->
  anchor ∈ anchorsOf l -> exists s, sampleAt l anchor = Valid s.
Proof.
  intros Hno HL HH Ha. unfold anchorsOf in Ha. apply elem_of_seqZ in Ha.
  unfold sampleAt, sequenceAt.
  match goal with
  | |- context [traverse ?b ?xs] =>
      destruct (traverse_valid b xs) as [sequence ->]
  end.
  { intros offset Ho. rewrite elem_of_reverse, elem_of_seqZ in Ho.
    apply timestepAt_valid; [done|lia]. }
  cbn.
  destruct (targetAt_valid l anchor) as [t ->]; [done|lia|done|lia|].
  by eexists.
Qed.

(** ** The split index *)

Lemma Math_floor_NaN x : Math_floor x = NotANumber -> isNaN x = true.
Proof. by destruct x. Qed.

Lemma splitIndexOf_clamp n p :
  2 <= n ->
  splitIndexOf n p = clampIntegral (Math_floor (mul (ofZ n) p)) 1 (n - 1).
Proof.
  intros Hn. unfold splitIndexOf.
  destruct (Math_floor (mul (ofZ n) p)) as [r|[]|]; cbn; try done;
    f_equal; [|lia].
  unfold clamp. destruct (Z.ltb_spec r 1), (Z.ltb_spec (n - 1) r); lia.
Qed.

Lemma splitIndexOf_range n p :
  2 <= n < 2 ^ 53 -> isNaN p = false ->
  exists k, splitIndexOf n p = Int k /\ 1 <= k <= n - 1.
Proof.
  intros Hn Hp. rewrite splitIndexOf_clamp by lia.
  pose proof (mul_ofZ_not_nan n p ltac:(lia) Hp) as Hnan.
  destruct (Math_floor (mul (ofZ n) p)) as [r|[]|] eqn:Hr; cbn.
  - eexists. split; [done|]. unfold clamp.
    destruct (Z.ltb_spec r 1), (Z.ltb_spec (n - 1) r); lia.
  - eexists. split; [done|]. lia.
  - eexists. split; [done|]. lia.
  - apply Math_floor_NaN in Hr. congruence.
Qed.

Lemma tf_slice_prefix {A} (xs : list A) k :
  0 <= k <= Z.of_nat (length xs) ->
  tf_slice (Int 0) (Int k) xs = Ok (take (Z.to_nat k) xs).
Proof.
  intros Hk. unfold tf_slice.
  destruct (Z.leb_spec 0 k); [|lia].
  destruct (Z.leb_spec (0 + k) (Z.of_nat (length xs))); [|lia]. done.
Qed.

Lemma tf_slice_suffix {A} (xs : list A) k :
  0 <= k <= Z.of_nat (length xs) ->
  tf_slice (Int k) (int_sub (Int (Z.of_nat (length xs))) (Int k)) xs
  = Ok (drop (Z.to_nat k) xs).
Proof.
  intros Hk. unfold tf_slice, int_sub.
  destruct (Z.leb_spec 0 k); [|lia].
  destruct (Z.leb_spec 0 (Z.of_nat (length xs) - k)); [|lia].
  destruct (Z.leb_spec (k + (Z.of_nat (length xs) - k)) (Z.of_nat (length xs))); [|lia].
  cbn. f_equal. apply take_ge. rewrite length_drop. lia.
Qed.

(** With two samples or more and a train fraction that is a number,
    [createWindowedDataset] returns, and what it returns is this. *)
Lemma createWindowedDataset_returns l samples :
  windowsOf l = Ok samples ->
  2 <= Z.of_nat (length samples) < 2 ^ 53 ->
  isNaN (trainSplit l) = false ->
  exists k,
    splitIndexOf (Z.of_nat (length samples)) (trainSplit l) = Int k
    /\ 1 <= k <= Z.of_nat (length samples) - 1
    /\ createWindowedDataset l =
       Ok {| X_train := take (Z.to_nat k) (map sequence samples);
             X_test := drop (Z.to_nat k) (map sequence samples);
             y_train := take (Z.to_nat k) (map targetVector samples);
             y_test := drop (Z.to_nat k) (map targetVector samples);
             sampleDates := map sampleDate samples;
             splitIndex := Int k |}.
Proof.
  intros Hw Hn Hp.
  destruct (splitIndexOf_range _ _ Hn Hp) as (k & Hk & Hrange).
  exists k. split; [done|]. split; [done|].
  unfold createWindowedDataset. rewrite Hw. cbn [obind].
  destruct (Z.eqb_spec (Z.of_nat (length samples)) 0) as [|_]; [lia|].
  destruct (Z.ltb_spec (Z.of_nat (length samples)) 2) as [|_]; [lia|].
  rewrite Hk.
  rewrite tf_slice_prefix by (rewrite length_map; lia). cbn [obind].
  rewrite <- (length_map sequence samples) at 1.
  rewrite tf_slice_suffix by (rewrite length_map; lia). cbn [obind].
  rewrite tf_slice_prefix by (rewrite length_map; lia). cbn [obind].
  rewrite <- (length_map targetVector samples) at 1.
  rewrite tf_slice_suffix by (rewrite length_map; lia). done.
Qed.

(** [createWindowedDataset] returns only datasets made of the samples of
    the window loop, two at least. *)
Lemma createWindowedDataset_inv l d :
  createWindowedDataset l = Ok d ->
  exists samples, windowsOf l = Ok samples
    /\ sampleDates d = map sampleDate samples
    /\ (2 <= length samples)%nat.
Proof.
  unfold createWindowedDataset.
  destruct (windowsOf l) as [samples|e]; [|done]. cbn [obind].
  destruct (Z.eqb_spec (Z.of_nat (length samples)) 0) as [|_]; [done|].
  destruct (Z.ltb_spec (Z.of_nat (length samples)) 2) as [|Hn]; [done|].
  intros H. exists samples.
  repeat match type of H with
         | obind ?m _ = _ => destruct m; [cbn [obind] in H|done]
         end.
  injection H as <-. split; [done|]. split; [done|lia].
Qed.

(** C1, as the code has it.  The window loop never yields more than
    max(0, D - L - H + 1) samples, and [createWindowedDataset] returns only
    datasets of at least 2 and at most D - L - H + 1 samples.  When no value
    is missing, the sequence length is at least 1 and the horizon is not
    negative, the loop yields exactly max(0, D - L - H + 1) samples, and
    [createWindowedDataset] returns a dataset of exactly D - L - H + 1
    samples as soon as that number is at least 2 (and the train fraction is
    a number). *)
Theorem window_count (l : DataLoader) :
  match windowsOf l with
  | Ok samples => Z.of_nat (length samples) <= Z.max 0 (windowCount l)
  | Throw _ => True
  end
  /\ match createWindowedDataset l with
     | Ok d => 2 <= Z.of_nat (length (sampleDates d)) <= windowCount l
     | Throw _ => True
     end
  /\ (noMissing l = true -> 1 <= sequenceLength l -> 0 <= predictionHorizon l ->
      (exists samples, windowsOf l = Ok samples
         /\ Z.of_nat (length samples) = Z.max 0 (windowCount l))
      /\ (2 <= windowCount l < 2 ^ 53 -> isNaN (trainSplit l) = false ->
          exists d, createWindowedDataset l = Ok d
            /\ Z.of_nat (length (sampleDates d)) = windowCount l)).
Proof.
  assert (Hle : forall samples, windowsOf l = Ok samples ->
                  Z.of_nat (length samples) <= Z.max 0 (windowCount l)).
  { intros samples H. apply collect_length_le in H.
    rewrite <- anchorsOf_length. lia. }
  split; [|split].
  - destruct (windowsOf l) as [samples|e] eqn:H; [|done]. by apply Hle.
  - destruct (createWindowedDataset l) as [d|e] eqn:H; [|done].
    apply createWindowedDataset_inv in H as (samples & Hw & -> & Hn).
    rewrite length_map. specialize (Hle samples Hw). lia.
  - intros Hno HL HH.
    destruct (collect_all_valid (sampleAt l) (anchorsOf l)) as (samples & Hs & Hlen).
    { intros a Ha. by apply sampleAt_valid. }
    assert (Hcount : Z.of_nat (length samples) = Z.max 0 (windowCount l))
      by (by rewrite Hlen, anchorsOf_length).
    split; [by exists samples|].
    intros Hc Hp.
    destruct (createWindowedDataset_returns l samples Hs ltac:(lia) Hp)
      as (k & _ & _ & Hd).
    eexists. split; [exact Hd|]. cbn. rewrite length_map. lia.
Qed.

Lemma window_count_witness :
  let l := buildFeatureCube isoTimeValue loader5 in
  noMissing l = true /\ windowCount l = 3
  /\ (exists samples, windowsOf l = Ok samples /\ Z.of_nat (length samples) = 3)
  /\ (exists d, createWindowedDataset l = Ok d /\ Z.of_nat (length (sampleDates d)) = 3).
Proof.
  intros l.
  assert (Hno : noMissing l = true) by (vm_compute; reflexivity).
  assert (Hc : windowCount l = 3) by (vm_compute; reflexivity).
  destruct (window_count l) as (_ & _ & H).
  destruct (H Hno ltac:(simpl; lia) ltac:(simpl; lia)) as [Hloop Hset].
  split; [exact Hno|]. split; [exact Hc|]. rewrite Hc in Hloop, Hset.
  split; [exact Hloop|]. apply Hset; [lia|reflexivity].
Defined.

(** The claim of C1 fails on a short series: with 2 dates, L = 3 and H = 2
    nothing is missing and D - L - H + 1 = -2, but the loop yields 0
    samples, which is neither -2 nor at most -2 (and
    [createWindowedDataset] throws). *)
Lemma window_count_short_series :
  let l := buildFeatureCube isoTimeValue (loaderOf 3 2 lit_0_8 rows2) in
  noMissing l = true
  /\ windowCount l = -2
  /\ windowsOf l = Ok []
  /\ ~ (forall samples, windowsOf l = Ok samples ->
          Z.of_nat (length samples) <= windowCount l)
  /\ ~ (exists samples, windowsOf l = Ok samples
          /\ Z.of_nat (length samples) = windowCount l)
  /\ createWindowedDataset l =
     Throw (Error "Unable to construct any sequences. Please provide a longer time series.").
Proof.
  intros l.
  assert (Hw : windowsOf l = Ok []) by (vm_compute; reflexivity).
  assert (Hc : windowCount l = -2) by (vm_compute; reflexivity).
  split; [vm_compute; reflexivity|]. split; [exact Hc|]. split; [exact Hw|].
  split; [|split].
  - intros H. specialize (H [] Hw). rewrite Hc in H. cbn in H. lia.
  - intros (samples & Hs & Hlen). rewrite Hc in Hlen. lia.
  - vm_compute. reflexivity.
Qed.


(** ** Labels *)

Lemma concat_lookup_uniform {A} (parts : list (list A)) n i j :
  Forall (fun p => length p = n) parts -> (j < n)%nat ->
  concat parts !! (i * n + j)%nat = parts !! i ≫= (.!! j).
Proof.
  intros H Hj. revert i. induction H as [|p parts Hp _ IH]; intros i; [done|].
  cbn [concat]. destruct i as [|i]; cbn.
  - by rewrite lookup_app_l by lia.
  - rewrite lookup_app_r by lia. rewrite <- IH. f_equal. lia.
Qed.

(** What a valid pass over the horizon of one symbol has read and pushed. *)
Lemma horizon_labels (closes : list num) anchor b H part :
  traverse (fun horizon =>
              wbind (readFinite (get closes (anchor + horizon)))
                (fun futureClose => Valid (labelOf b futureClose)))
    (seqZ 1 H) = Valid part ->
  length part = Z.to_nat H
  /\ forall k, 1 <= k <= H ->
       exists x, get closes (anchor + k) = Some x /\ isFiniteNum x = true
                 /\ part !! Z.to_nat (k - 1) = Some (labelOf b x).
Proof.
  intros Ht. apply traverse_inv in Ht.
  pose proof (Forall2_length _ _ _ Ht) as Hlen. rewrite length_seqZ in Hlen.
  split; [done|]. intros k Hk.
  assert (Hin : seqZ 1 H !! Z.to_nat (k - 1) = Some k).
  { apply lookup_seqZ. lia. }
  destruct (Forall2_lookup_l _ _ _ _ _ Ht Hin) as (lab & Hlab & Hbody).
  unfold readFinite in Hbody.
  destruct (get closes (anchor + k)) as [x|]; [|done].
  destruct (isFiniteNum x) eqn:Hx; [|done]. cbn in Hbody.
  injection Hbody as <-. by exists x.
Qed.

(** The label of every symbol and every future day of a sample that the
    window loop pushes: both closes were read finite from the raw cube, and
    the label is 1 exactly when the future close is above the anchor's. *)
Lemma sampleAt_labels l anchor s si symbol k :
  sampleAt l anchor = Valid s ->
  symbols l !! si = Some symbol ->
  1 <= k <= predictionHorizon l ->
  exists f b x,
    featureCube l !! symbol = Some f
    /\ get (series_Close f) anchor = Some b /\ isFiniteNum b = true
    /\ get (series_Close f) (anchor + k) = Some x /\ isFiniteNum x = true
    /\ targetVector s !! (si * Z.to_nat (predictionHorizon l) + Z.to_nat (k - 1))%nat
       = Some (if ltb b x then one else zero).
Proof.
  intros Hs Hsi Hk. unfold sampleAt in Hs.
  destruct (sequenceAt l anchor) as [sq| |]; [|done|done]. cbn in Hs.
  destruct (targetAt l anchor) as [t| |] eqn:Ht; [|done|done]. cbn in Hs.
  injection Hs as <-. cbn [targetVector].
  unfold targetAt in Ht.
  match type of Ht with
  | wbind (traverse ?body _) _ = _ =>
      destruct (traverse body (symbols l)) as [parts| |] eqn:Hparts; [|done|done]
  end.
  cbn in Ht. injection Ht as <-.
  apply traverse_inv in Hparts.
  assert (Huniform : Forall (fun p => length p = Z.to_nat (predictionHorizon l)) parts).
  { apply Forall_forall. intros part Hpart.
    apply list_elem_of_lookup in Hpart as [i Hi].
    destruct (Forall2_lookup_r _ _ _ _ _ Hparts Hi) as (sym & _ & Hbody).
    destruct (featureCube l !! sym) as [f|]; [|done].
    destruct (readFinite (get (series_Close f) anchor)) as [b| |]; [|done|done].
    by apply horizon_labels in Hbody as [? _]. }
  destruct (Forall2_lookup_l _ _ _ _ _ Hparts Hsi) as (part & Hpart & Hbody).
  destruct (featureCube l !! symbol) as [f|]; [|done].
  unfold readFinite in Hbody at 1.
  destruct (get (series_Close f) anchor) as [b|] eqn:Hb; [|done].
  destruct (isFiniteNum b) eqn:Hfin; [|done]. cbn [wbind] in Hbody.
  apply horizon_labels in Hbody as [_ Hlabels].
  destruct (Hlabels k Hk) as (x & Hx & Hxfin & Hlab).
  exists f, b, x. do 5 (split; [done|]).
  rewrite concat_lookup_uniform by (done || lia).
  rewrite Hpart. cbn. exact Hlab.
Qed.

(** A window whose anchor close is not finite is not pushed. *)
Lemma sampleAt_skips_missing_anchor l anchor symbol f :
  symbol ∈ symbols l ->
  featureCube l !! symbol = Some f ->
  isFinite (get (series_Close f) anchor) = false ->
  forall s, sampleAt l anchor <> Valid s.
Proof.
  intros Hin Hf Hmissing s Hs.
  apply list_elem_of_lookup in Hin as [si Hsi].
  unfold sampleAt in Hs.
  destruct (sequenceAt l anchor) as [sq| |]; [|done|done]. cbn in Hs.
  destruct (targetAt l anchor) as [t| |] eqn:Ht; [|done|done].
  unfold targetAt in Ht.
  match type of Ht with
  | wbind (traverse ?body _) _ = _ =>
      destruct (traverse body (symbols l)) as [parts| |] eqn:Hparts; [|done|done]
  end.
  apply traverse_inv in Hparts.
  destruct (Forall2_lookup_l _ _ _ _ _ Hparts Hsi) as (part & _ & Hbody).
  rewrite Hf in Hbody. unfold readFinite, isFinite in *.
  destruct (get (series_Close f) anchor) as [b|]; [|done].
  by rewrite Hmissing in Hbody.
Qed.

(** Nor is a window with a close that is not finite on one of the [H]
    days after the anchor. *)
Lemma sampleAt_skips_missing_future l anchor symbol f k :
  symbol ∈ symbols l ->
  featureCube l !! symbol = Some f ->
  1 <= k <= predictionHorizon l ->
  isFinite (get (series_Close f) (anchor + k)) = false ->
  forall s, sampleAt l anchor <> Valid s.
Proof.
  intros Hin Hf Hk Hmissing s Hs.
  apply list_elem_of_lookup in Hin as [si Hsi].
  destruct (sampleAt_labels l anchor s si symbol k Hs Hsi Hk)
    as (f' & b & x & Hf' & _ & _ & Hx & Hxfin & _).
  rewrite Hf in Hf'. injection Hf' as <-.
  rewrite Hx in Hmissing. cbn in Hmissing. congruence.
Qed.

(** C2.  The first loader does not skip a window with a missing close: on
    sixteen days of A and a symbol B quoted on the last day only, the close
    of B is [null] at the anchor (index 12) and on the next two days, and
    [createSequences] pushes the window all the same, with the three labels
    of B set to 0. *)
Theorem createSequences_defaults_missing_labels :
  LegacyLoader.data_Close <$>
    (LegacyLoader.featureData (LegacyLoader.preprocessData rawA).1 !! "B")
  = Some (replicate 15 None ++ [Some (ofZ 6)])
  /\ length (LegacyLoader.sequences (LegacyLoader.preprocessData rawA).2) = 1%nat
  /\ LegacyLoader.targets (LegacyLoader.preprocessData rawA).2
     = [[one; one; one; zero; zero; zero]].
Proof. split; [|split]; vm_compute; reflexivity. Qed.

(** ** Series without any value *)

Lemma collect_none_valid {A B} (body : A -> window B) (xs : list A) :
  (forall x y, x ∈ xs -> body x <> Valid y) ->
  collect body xs = Ok [] \/ exists e, collect body xs = Throw e.
Proof.
  induction xs as [|x xs IH]; intros H; [by left|].
  cbn. destruct (body x) as [y| |e] eqn:Hx.
  - exfalso. by apply (H x y); [left|].
  - apply IH. intros z y Hz. apply H. by right.
  - right. by eexists.
Qed.

(** C8, as the code has it.  A series with no finite value is left as it
    is by [fillMissingValues], so it stays entirely missing in the feature
    cube, and [minMaxScale] then turns it into zeros of the same length in
    the normalised cube.  When the series is the close of a symbol, no
    window is pushed, since the labels read the closes of the feature
    cube, and [createWindowedDataset] throws. *)
Theorem missing_series_scaled_to_zero :
  (forall series : list num,
     Forall (fun x => isFiniteNum x = false) series ->
     fillMissingValues series = series
     /\ minMaxScale (fillMissingValues series) = replicate (length series) zero)
  /\ (forall (l : DataLoader) (symbol : string) (f : Features),
        symbol ∈ symbols l ->
        featureCube l !! symbol = Some f ->
        Forall (fun x => isFiniteNum x = false) (series_Close f) ->
        exists e, createWindowedDataset l = Throw e).
Proof.
  split.
  - intros series H. rewrite (fillMissingValues_none_finite series H).
    split; [done|]. by apply minMaxScale_none_finite.
  - intros l symbol f Hin Hf Hclose.
    unfold createWindowedDataset, windowsOf.
    destruct (collect_none_valid (sampleAt l) (anchorsOf l)) as [->|[e ->]].
    + intros anchor s _.
      apply (sampleAt_skips_missing_anchor l anchor symbol f Hin Hf).
      unfold isFinite. destruct (get (series_Close f) anchor) as [x|] eqn:Hx; [|done].
      unfold get in Hx. destruct (anchor <? 0); [done|].
      eapply Forall_lookup_1 in Hclose; [|exact Hx]. done.
    + cbn. by eexists.
    + cbn. by eexists.
Qed.

Lemma missing_series_scaled_to_zero_witness :
  Forall (fun x => isFiniteNum x = false) [NaN; POSITIVE_INFINITY; NaN]
  /\ fillMissingValues [NaN; POSITIVE_INFINITY; NaN] = [NaN; POSITIVE_INFINITY; NaN]
  /\ minMaxScale (fillMissingValues [NaN; POSITIVE_INFINITY; NaN]) = [zero; zero; zero].
Proof.
  assert (H : Forall (fun x => isFiniteNum x = false) [NaN; POSITIVE_INFINITY; NaN])
    by (repeat constructor).
  split; [exact H|]. exact (proj1 missing_series_scaled_to_zero _ H).
Defined.

(** The claim of C8 fails: the all-missing series [NaN, NaN] comes out of
    filling and scaling as [0, 0].  In the pipeline, a symbol whose opens
    are all missing keeps NaN opens in the feature cube and gets zero opens
    in the normalised cube, and the windows are pushed with these zeros:
    the first value of every time step is the open, 0. *)
Lemma missing_series_not_propagated :
  minMaxScale (fillMissingValues [NaN; NaN]) = [zero; zero]
  /\ let l := buildFeatureCube isoTimeValue (loaderOf 2 1 lit_0_8 rowsNoOpen) in
     series_Open <$> featureCube l !! "A" = Some (replicate 5 NaN)
     /\ series_Open <$> normalisedCube l !! "A" = Some (replicate 5 zero)
     /\ exists d, createWindowedDataset l = Ok d
          /\ length (sampleDates d) = 3%nat
          /\ Forall (Forall (fun timestep => timestep !! 0%nat = Some zero))
               (X_train d ++ X_test d).
Proof.
  split; [reflexivity|]. intros l.
  split; [vm_compute; reflexivity|]. split; [vm_compute; reflexivity|].
  destruct (createWindowedDataset l) as [d|e] eqn:Hd; [|vm_compute in Hd; discriminate].
  exists d. vm_compute in Hd. injection Hd as <-.
  split; [reflexivity|]. repeat constructor.
Qed.


(** ** Sorting *)

Lemma insertSorted_elem {A} (le : A -> A -> bool) x z (l : list A) :
  z ∈ insertSorted le x l <-> z = x \/ z ∈ l.
Proof.
  induction l as [|y l IH]; cbn.
  - rewrite list_elem_of_singleton, elem_of_nil. tauto.
  - destruct (le x y); rewrite !elem_of_cons; [tauto|]. rewrite IH. tauto.
Qed.

Lemma insertSorted_sorted {A} (key : A -> Z) x (l : list A) :
  StronglySorted (fun a b => key a <= key b) l ->
  StronglySorted (fun a b => key a <= key b)
    (insertSorted (fun a b => key a <=? key b) x l).
Proof.
  induction 1 as [|y l Hl IH Hy]; cbn.
  - repeat constructor.
  - destruct (Z.leb_spec (key x) (key y)) as [Hxy|Hxy].
    + constructor; [by constructor|].
      constructor; [done|]. eapply Forall_impl; [exact Hy|]. cbn. lia.
    + constructor; [done|].
      apply Forall_forall. intros z Hz. apply insertSorted_elem in Hz as [->|Hz].
      * lia.
      * by eapply Forall_forall in Hy.
Qed.

Lemma sortBy_sorted {A} (key : A -> Z) (l : list A) :
  StronglySorted (fun a b => key a <= key b)
    (sortBy (fun a b => key a <=? key b) l).
Proof.
  induction l as [|x l IH]; cbn; [constructor|]. by apply insertSorted_sorted.
Qed.

Lemma StronglySorted_lookup {A} (R : A -> A -> Prop) (l : list A) i j x y :
  StronglySorted R l -> (i < j)%nat -> l !! i = Some x -> l !! j = Some y -> R x y.
Proof.
  intros Hl. revert i j. induction Hl as [|z l Hl IH Hz]; intros i j Hij Hi Hj; [done|].
  destruct j as [|j]; [lia|]. cbn in Hj. destruct i as [|i].
  - injection Hi as ->. eapply Forall_forall in Hz; [done|].
    by eapply list_elem_of_lookup_2.
  - cbn in Hi. apply (IH i j); [lia|done|done].
Qed.

Lemma seqZ_sorted m n : StronglySorted Z.lt (seqZ m n).
Proof.
  remember (Z.to_nat n) as k eqn:Hk. revert m n Hk.
  induction k as [|k IH]; intros m n Hk.
  - rewrite seqZ_nil by lia. constructor.
  - rewrite seqZ_cons by lia. constructor; [apply IH; lia|].
    apply Forall_forall. intros z Hz. apply elem_of_seqZ in Hz. lia.
Qed.

Lemma buildFeatureCube_dates_sorted timeValue l :
  StronglySorted (fun a b => timeValue a <= timeValue b)
    (dates (buildFeatureCube timeValue l)).
Proof. cbn. unfold sortDates. apply (sortBy_sorted timeValue). Qed.

(** ** The order of the samples *)

Lemma collect_elem {A B} (body : A -> window B) (xs : list A) ys y :
  collect body xs = Ok ys -> y ∈ ys -> exists x, x ∈ xs /\ body x = Valid y.
Proof.
  revert ys. induction xs as [|x xs IH]; intros ys; cbn.
  - intros [= <-] Hy. by apply elem_of_nil in Hy.
  - destruct (body x) as [y0| |e] eqn:Hx; [| |done].
    + destruct (collect body xs) as [ys'|e]; [|done]. cbn.
      intros [= <-] [->|Hy]%elem_of_cons.
      * exists x. split; [by left|done].
      * destruct (IH ys' eq_refl Hy) as (x' & Hx' & Hb). exists x'. split; [by right|done].
    + intros H Hy. destruct (IH ys H Hy) as (x' & Hx' & Hb).
      exists x'. split; [by right|done].
Qed.

(** The samples come out in the order of their anchors. *)
Lemma collect_sorted {A B} (R : A -> A -> Prop) (body : A -> window B) xs ys :
  StronglySorted R xs -> collect body xs = Ok ys ->
  StronglySorted (fun y1 y2 => exists x1 x2,
                    body x1 = Valid y1 /\ body x2 = Valid y2 /\ R x1 x2) ys.
Proof.
  intros Hxs. revert ys. induction Hxs as [|x xs Hxs IH Hx]; intros ys; cbn.
  - intros [= <-]. constructor.
  - destruct (body x) as [y0| |e] eqn:Hb; [| |done].
    + destruct (collect body xs) as [ys'|e] eqn:Hc; [|done]. cbn.
      intros [= <-]. constructor; [by apply IH|].
      apply Forall_forall. intros y Hy.
      destruct (collect_elem _ _ _ _ Hc Hy) as (x' & Hx' & Hb').
      exists x, x'. split; [done|]. split; [done|].
      by eapply Forall_forall in Hx.
    + apply IH.
Qed.

Lemma sampleAt_date l anchor s :
  sampleAt l anchor = Valid s -> sampleDate s = get (dates l) anchor.
Proof.
  unfold sampleAt. destruct (sequenceAt l anchor); [|done|done]. cbn.
  destruct (targetAt l anchor); [|done|done]. cbn. by intros [= <-].
Qed.

Lemma windows_chronological timeValue l0 samples i j di dj :
  windowsOf (buildFeatureCube timeValue l0) = Ok samples ->
  (i < j)%nat ->
  sampleDate <$> samples !! i = Some (Some di) ->
  sampleDate <$> samples !! j = Some (Some dj) ->
  timeValue di <= timeValue dj.
Proof.
  set (l := buildFeatureCube timeValue l0).
  intros Hw Hij Hi Hj.
  destruct (samples !! i) as [si|] eqn:Hsi; [|done].
  destruct (samples !! j) as [sj|] eqn:Hsj; [|done].
  cbn in Hi, Hj. injection Hi as Hi. injection Hj as Hj.
  pose proof (collect_sorted Z.lt _ _ _ (seqZ_sorted _ _) Hw) as Hsorted.
  destruct (StronglySorted_lookup _ _ _ _ _ _ Hsorted Hij Hsi Hsj)
    as (a1 & a2 & H1 & H2 & Hlt).
  apply sampleAt_date in H1, H2. rewrite Hi in H1. rewrite Hj in H2.
  unfold get in H1, H2.
  destruct (Z.ltb_spec a1 0); [done|]. destruct (Z.ltb_spec a2 0); [done|].
  apply (StronglySorted_lookup (fun a b => timeValue a <= timeValue b) (dates l)
           (Z.to_nat a1) (Z.to_nat a2));
    [apply (buildFeatureCube_dates_sorted timeValue l0)|lia|done|done].
Qed.

(** C3.  With a sequence length of at least 1, a horizon that is not
    negative, N >= 2 samples and a train fraction p that is a number,
    [createWindowedDataset] returns a dataset whose split index is
    clamp(floor(N p), 1, N - 1); the train tensors are the first
    [splitIndex] samples and the test tensors the others, in the order of
    the window loop, so the two index ranges share nothing and cover all
    samples; and after [buildFeatureCube] the date of a train sample is
    never later than the date of a test sample. *)
Theorem chronological_split (timeValue : string -> Z) (l0 : DataLoader)
    (samples : list Sample) :
  let l := buildFeatureCube timeValue l0 in
  let N := Z.of_nat (length samples) in
  1 <= sequenceLength l0 ->
  0 <= predictionHorizon l0 ->
  windowsOf l = Ok samples ->
  2 <= N < 2 ^ 53 ->
  isNaN (trainSplit l0) = false ->
  exists d k,
    createWindowedDataset l = Ok d
    /\ splitIndex d = Int k
    /\ Int k = clampIntegral (Math_floor (mul (ofZ N) (trainSplit l0))) 1 (N - 1)
    /\ 1 <= k <= N - 1
    /\ X_train d = take (Z.to_nat k) (map sequence samples)
    /\ X_test d = drop (Z.to_nat k) (map sequence samples)
    /\ y_train d = take (Z.to_nat k) (map targetVector samples)
    /\ y_test d = drop (Z.to_nat k) (map targetVector samples)
    /\ sampleDates d = map sampleDate samples
    /\ (forall i j di dj,
          (i < Z.to_nat k <= j)%nat ->
          sampleDates d !! i = Some (Some di) ->
          sampleDates d !! j = Some (Some dj) ->
          timeValue di <= timeValue dj).
Proof.
  intros l N _ _ Hw HN Hp.
  destruct (createWindowedDataset_returns l samples Hw HN Hp) as (k & Hk & Hrange & Hd).
  eexists _, k. split; [exact Hd|]. cbn [splitIndex X_train X_test y_train y_test sampleDates].
  split; [done|]. split; [by rewrite <- Hk, splitIndexOf_clamp by (unfold N in HN; lia)|].
  split; [done|]. do 5 (split; [done|]).
  intros i j di dj Hij Hi Hj. rewrite list_lookup_fmap in Hi, Hj.
  eapply (windows_chronological timeValue l0 samples i j); [done|lia|done|done].
Qed.

Lemma chronological_split_witness :
  let l := buildFeatureCube isoTimeValue loader5 in
  1 <= sequenceLength loader5
  /\ 0 <= predictionHorizon loader5
  /\ windowsOf l = Ok samples5
  /\ exists d k,
       createWindowedDataset l = Ok d
       /\ splitIndex d = Int k
       /\ Int k = Int 2
       /\ X_train d = take 2 (map sequence samples5)
       /\ X_test d = drop 2 (map sequence samples5).
Proof.
  intros l.
  assert (Hw : windowsOf l = Ok samples5) by (vm_compute; reflexivity).
  split; [simpl; lia|]. split; [simpl; lia|]. split; [exact Hw|].
  destruct (chronological_split isoTimeValue loader5 samples5
              ltac:(simpl; lia) ltac:(simpl; lia) Hw
              ltac:(simpl; lia) ltac:(reflexivity))
    as (d & k & Hd & Hk & Hclamp & _ & Htrain & Htest & _).
  assert (Hk2 : Int k = Int 2) by (rewrite Hclamp; vm_compute; reflexivity).
  exists d, k. split; [exact Hd|]. split; [exact Hk|]. split; [exact Hk2|].
  injection Hk2 as ->. split; [exact Htrain|exact Htest].
Defined.


(** ** The empty input *)

(** C9, as the code has it.  On an empty row collection [buildFeatureCube]
    returns: it leaves an empty date list, an empty symbol list and two
    empty cubes.  The failure comes afterwards, in [createWindowedDataset],
    which finds no sequence (for a sequence length of at least 1 and a
    horizon that is not negative), so that [prepareDataset] throws. *)
Theorem empty_rows_build_empty_cube (timeValue : string -> Z) (l : DataLoader) :
  rows l = [] ->
  dates (buildFeatureCube timeValue l) = []
  /\ symbols (buildFeatureCube timeValue l) = []
  /\ featureCube (buildFeatureCube timeValue l) = ∅
  /\ normalisedCube (buildFeatureCube timeValue l) = ∅
  /\ (1 <= sequenceLength l -> 0 <= predictionHorizon l ->
      (prepareDataset timeValue l).2 =
      Throw (Error "Unable to construct any sequences. Please provide a longer time series.")).
Proof.
  intros Hrows. unfold prepareDataset, buildFeatureCube. rewrite Hrows. cbn.
  do 4 (split; [reflexivity|]).
  intros HL HH. unfold createWindowedDataset, windowsOf, anchorsOf. cbn.
  rewrite seqZ_nil by lia. reflexivity.
Qed.

Lemma empty_rows_build_empty_cube_witness :
  rows (loaderOf 12 3 lit_0_8 []) = []
  /\ dates (buildFeatureCube isoTimeValue (loaderOf 12 3 lit_0_8 [])) = []
  /\ (prepareDataset isoTimeValue (loaderOf 12 3 lit_0_8 [])).2 =
     Throw (Error "Unable to construct any sequences. Please provide a longer time series.").
Proof.
  destruct (empty_rows_build_empty_cube isoTimeValue (loaderOf 12 3 lit_0_8 []) eq_refl)
    as (Hd & _ & _ & _ & Hp).
  split; [reflexivity|]. split; [exact Hd|]. apply Hp; simpl; lia.
Defined.

(** The claim of C9 fails: on no rows at all [buildFeatureCube] does not
    fail, it returns a loader with an empty universe and empty cubes; the
    exception of [prepareDataset] is the one of [createWindowedDataset]. *)
Lemma buildFeatureCube_empty_rows_returns :
  buildFeatureCube isoTimeValue (loaderOf 12 3 lit_0_8 []) =
  {| sequenceLength := 12; predictionHorizon := 3; trainSplit := lit_0_8;
     rows := []; symbols := []; dates := [];
     featureCube := ∅; normalisedCube := ∅;
     featuresPerSymbol := FEATURE_KEYS |}
  /\ createWindowedDataset (buildFeatureCube isoTimeValue (loaderOf 12 3 lit_0_8 [])) =
     Throw (Error "Unable to construct any sequences. Please provide a longer time series.").
Proof. split; reflexivity. Qed.

Import Gru.

(** ** The plateau controller *)

Lemma compare_antisym x y c :
  SFcompare x y = Some c -> SFcompare y x = Some (CompOpp c).
Proof.
  destruct x as [s|s| |s m e], y as [t|t| |t n f]; cbn; try done;
    intros [= <-]; f_equal; try (by destruct s); try (by destruct t);
    try (by destruct s, t).
  rewrite (Z.compare_antisym e f).
  change (PosDef.Pos.compare_cont Eq n m) with (Pos.compare_cont Eq n m).
  change (PosDef.Pos.compare_cont Eq m n) with (Pos.compare_cont Eq m n).
  rewrite (ZC4 n m).
  destruct s, t; cbn; try done;
    destruct (e ?= f); cbn; try done; by rewrite ?CompOpp_involutive.
Qed.













(** ** The confusion counts *)

Local Open Scope nat_scope.

Lemma cells_bump pred actual c : cells (bump pred actual c) = S (cells c).
Proof.
  unfold bump, cells.
  repeat match goal with |- context [if ?b then _ else _] => destruct b end;
    cbn; lia.
Qed.

Lemma cellsAt_alter pred actual symbol conf s :
  is_Some (conf !! symbol) ->
  cellsAt (alter (bump pred actual) symbol conf) s
  = cellsAt conf s + (if decide (s = symbol) then 1 else 0).
Proof.
  intros [c Hc]. unfold cellsAt. destruct (decide (s = symbol)) as [->|Hne].
  - rewrite lookup_alter_eq, Hc. cbn. rewrite cells_bump. lia.
  - rewrite lookup_alter_ne by done. lia.
Qed.

Lemma is_Some_alter {V} (g : V -> V) symbol (m : gmap string V) s :
  is_Some (alter g symbol m !! s) <-> is_Some (m !! s).
Proof.
  destruct (decide (s = symbol)) as [->|Hne].
  - rewrite lookup_alter_eq. by rewrite fmap_is_Some.
  - by rewrite lookup_alter_ne.
Qed.

(** The day loop of one symbol adds one cell per day to that symbol and
    leaves the other symbols alone. *)
Lemma days_cells symbol row truth offset days st :
  is_Some (perStockConfusion (tally st) !! symbol) ->
  exists st',
    foldM (dayStep symbol row (Some truth) offset) days st = Ok st'
    /\ (forall s, is_Some (perStockConfusion (tally st') !! s)
                  <-> is_Some (perStockConfusion (tally st) !! s))
    /\ forall s, cellsAt (perStockConfusion (tally st')) s
                 = cellsAt (perStockConfusion (tally st)) s
                   + (if decide (s = symbol) then length days else 0).
Proof.
  revert st. induction days as [|day days IH]; intros st Hin.
  - exists st. split; [done|]. split; [done|]. intros s. destruct (decide _); cbn; lia.
  - cbn [foldM dayStep obind].
    match goal with
    | |- context [foldM _ days ?st1] => destruct (IH st1) as (st' & Hst' & Hdom & Hcells)
    end.
    { cbn. by apply is_Some_alter. }
    exists st'. split; [done|]. split.
    + intros s. rewrite Hdom. cbn. apply is_Some_alter.
    + intros s. rewrite Hcells. cbn [tally perStockConfusion].
      rewrite cellsAt_alter by done. cbn [length]. destruct (decide _); lia.
Qed.

Lemma stock_cells row truth H t stockIdx symbol :
  is_Some (perStockConfusion t !! symbol) ->
  exists t',
    stockStep row (Some truth) H t (stockIdx, symbol) = Ok t'
    /\ (forall s, is_Some (perStockConfusion t' !! s)
                  <-> is_Some (perStockConfusion t !! s))
    /\ forall s, cellsAt (perStockConfusion t') s
                 = cellsAt (perStockConfusion t) s
                   + (if decide (s = symbol) then H else 0).
Proof.
  intros Hin. unfold stockStep.
  destruct (days_cells symbol row truth (stockIdx * H) (seq 0 H)
              {| tally := t; loop_correctCount := 0; loop_perDayFlags := [] |} Hin)
    as (st' & -> & Hdom & Hcells).
  cbn [obind]. eexists. split; [done|]. cbn [perStockConfusion].
  split; [done|]. intros s. rewrite Hcells. cbn. by rewrite length_seq.
Qed.

Lemma stocks_cells row truth H ps t :
  NoDup ps.*2 ->
  (forall s, s ∈ ps.*2 -> is_Some (perStockConfusion t !! s)) ->
  exists t',
    foldM (stockStep row (Some truth) H) ps t = Ok t'
    /\ (forall s, is_Some (perStockConfusion t' !! s)
                  <-> is_Some (perStockConfusion t !! s))
    /\ forall s, cellsAt (perStockConfusion t') s
                 = cellsAt (perStockConfusion t) s
                   + (if decide (s ∈ ps.*2) then H else 0).
Proof.
  revert t. induction ps as [|[stockIdx symbol] ps IH]; intros t Hnd Hin.
  - exists t. split; [done|]. split; [done|]. intros s.
    destruct (decide _) as [Hs|]; [by apply elem_of_nil in Hs|lia].
  - cbn [fmap list_fmap snd] in Hnd. apply NoDup_cons in Hnd as [Hfresh Hnd].
    cbn [foldM].
    destruct (stock_cells row truth H t stockIdx symbol) as (t1 & -> & Hdom1 & Hcells1).
    { apply Hin. by left. }
    cbn [obind].
    destruct (IH t1 Hnd) as (t' & -> & Hdom & Hcells).
    { intros s Hs. apply Hdom1, Hin. by right. }
    exists t'. split; [done|]. split.
    + intros s. by rewrite Hdom, Hdom1.
    + intros s. rewrite Hcells, Hcells1. cbn [fmap list_fmap snd].
      destruct (decide (s = symbol)) as [->|Hne].
      * destruct (decide (symbol ∈ ps.*2)); [done|].
        destruct (decide (symbol ∈ symbol :: ps.*2)) as [|Hn]; [lia|].
        exfalso. apply Hn. by left.
      * destruct (decide (s ∈ ps.*2)) as [Hs|Hs].
        -- destruct (decide (s ∈ symbol :: ps.*2)) as [|Hn]; [lia|].
           exfalso. apply Hn. by right.
        -- destruct (decide (s ∈ symbol :: ps.*2)) as [Hs'|]; [|lia].
           apply elem_of_cons in Hs' as [?|?]; done.
Qed.

Lemma imap_pair_snd {A} (l : list A) k :
  (imap (fun i x => (k + i, x)) l).*2 = l.
Proof.
  revert k. induction l as [|x l IH]; intros k; [done|].
  cbn. f_equal. rewrite <- (IH (S k)) at 2. f_equal.
  apply imap_ext. intros i y _. cbn. f_equal. lia.
Qed.

Lemma imap_pair_snd0 {A} (l : list A) : (imap (fun i x => (i, x)) l).*2 = l.
Proof. apply (imap_pair_snd l 0). Qed.

Lemma rows_cells groundTruthArray symbols H rs t :
  NoDup symbols ->
  (forall s, s ∈ symbols -> is_Some (perStockConfusion t !! s)) ->
  (forall rowIndex row, (rowIndex, row) ∈ rs -> is_Some (groundTruthArray !! rowIndex)) ->
  exists t',
    foldM (rowStep groundTruthArray symbols H) rs t = Ok t'
    /\ (forall s, is_Some (perStockConfusion t' !! s)
                  <-> is_Some (perStockConfusion t !! s))
    /\ forall s, cellsAt (perStockConfusion t') s
                 = cellsAt (perStockConfusion t) s
                   + (if decide (s ∈ symbols) then length rs * H else 0).
Proof.
  intros Hnd. revert t. induction rs as [|[rowIndex row] rs IH]; intros t Hin Htruth.
  - exists t. split; [done|]. split; [done|]. intros s. destruct (decide _); cbn; lia.
  - cbn [foldM rowStep].
    destruct (Htruth rowIndex row) as [truth Htr]; [by left|]. rewrite Htr.
    destruct (stocks_cells row truth H
                (imap (fun stockIdx symbol => (stockIdx, symbol)) symbols) t)
      as (t1 & -> & Hdom1 & Hcells1).
    { by rewrite (imap_pair_snd0 symbols). }
    { intros s. rewrite (imap_pair_snd0 symbols). apply Hin. }
    cbn [obind].
    destruct (IH t1) as (t' & -> & Hdom & Hcells).
    { intros s Hs. by apply Hdom1, Hin. }
    { intros i r Hir. apply (Htruth i r). by right. }
    exists t'. split; [done|]. split; [intros s; by rewrite Hdom, Hdom1|].
    intros s. rewrite Hcells, Hcells1.
    rewrite (imap_pair_snd0 symbols). cbn [length].
    destruct (decide (s ∈ symbols)); lia.
Qed.

Lemma initialTally_confusion_fold symbols t s :
  let t' := fold_left (fun t symbol =>
               {| perStockTimeline := <[symbol := []]> (perStockTimeline t);
                  perStockTotals := <[symbol := {| correct := 0; total := 0 |}]>
                                      (perStockTotals t);
                  perStockConfusion := <[symbol := {| tp := 0; fp := 0; fn := 0; tn := 0 |}]>
                                         (perStockConfusion t);
                  globalCorrect := globalCorrect t;
                  globalTotal := globalTotal t |}) symbols t in
  (s ∈ symbols -> is_Some (perStockConfusion t' !! s) /\ cellsAt (perStockConfusion t') s = 0)
  /\ (s ∉ symbols -> perStockConfusion t' !! s = perStockConfusion t !! s).
Proof.
  revert t. induction symbols as [|x symbols IH] using rev_ind; intros t; cbn.
  - split; [by intros ?%elem_of_nil|done].
  - rewrite fold_left_app. cbn. specialize (IH t). cbn in IH. destruct IH as [IH1 IH2].
    unfold cellsAt. split.
    + intros Hs. destruct (decide (s = x)) as [->|Hne].
      * by rewrite lookup_insert_eq.
      * rewrite lookup_insert_ne by done. apply IH1.
        apply elem_of_app in Hs as [|Hs]; [done|]. by apply list_elem_of_singleton in Hs.
    + intros Hs. rewrite lookup_insert_ne
        by (intros ->; apply Hs, elem_of_app; right; by left).
      apply IH2. intros ?. apply Hs, elem_of_app. by left.
Qed.

Lemma initialTally_confusion symbols s :
  s ∈ symbols ->
  is_Some (perStockConfusion (initialTally symbols) !! s)
  /\ cellsAt (perStockConfusion (initialTally symbols)) s = 0.
Proof. intros Hs. by apply (initialTally_confusion_fold symbols _ s). Qed.

Lemma sum_list_const {A} (g : A -> nat) (l : list A) c :
  (forall x, x ∈ l -> g x = c) -> sum_list (map g l) = length l * c.
Proof.
  induction l as [|x l IH]; intros H; [done|].
  cbn. rewrite (H x) by (by left). rewrite IH; [lia|].
  intros y Hy. apply H. by right.
Qed.

(** The loops of [analysePredictions] run to their end when every
    prediction row has its ground truth row, and this is their tally. *)
Lemma analysePredictions_tally (predictionsArray groundTruthArray : list (list num))
    (symbols : list string) (predictionDays : nat) :
  NoDup symbols ->
  length groundTruthArray = length predictionsArray ->
  exists t,
    foldM (rowStep groundTruthArray symbols predictionDays)
      (imap (fun rowIndex row => (rowIndex, row)) predictionsArray)
      (initialTally symbols) = Ok t
    /\ forall symbol, symbol ∈ symbols ->
         exists c, perStockConfusion t !! symbol = Some c
           /\ cells c = length predictionsArray * predictionDays.
Proof.
  intros Hnd Hlen.
  destruct (rows_cells groundTruthArray symbols predictionDays
              (imap (fun rowIndex row => (rowIndex, row)) predictionsArray)
              (initialTally symbols) Hnd) as (t & Ht & Hdom & Hcells).
  { intros s Hs. by apply initialTally_confusion. }
  { intros i r Hir. apply list_elem_of_lookup in Hir as [j Hj].
    apply list_lookup_imap_Some in Hj as (r' & Hr' & [= -> ->]).
    apply lookup_lt_is_Some. rewrite Hlen. by eapply lookup_lt_Some. }
  exists t. split; [done|]. intros s Hs.
  destruct (initialTally_confusion symbols s Hs) as [Hkey Hzero].
  apply Hdom in Hkey as [c Hc]. exists c. split; [done|].
  specialize (Hcells s). unfold cellsAt in Hcells at 1. rewrite Hc, Hzero in Hcells.
  rewrite length_imap in Hcells. destruct (decide (s ∈ symbols)); [lia|done].
Qed.

(** C7.  For a list of distinct symbols and a ground truth with one row
    per prediction row, [analysePredictions] returns a report in which the
    four confusion counts of every symbol add up to samples x horizon, and
    the counts of all symbols to samples x symbols x horizon -- whatever
    the entries of the two matrices are. *)
Theorem confusion_totals (predictionsArray groundTruthArray : list (list num))
    (symbols : list string) (predictionDays : nat) :
  NoDup symbols ->
  length groundTruthArray = length predictionsArray ->
  exists report,
    analysePredictions predictionsArray groundTruthArray symbols predictionDays
    = Ok report
    /\ (forall symbol, symbol ∈ symbols ->
          exists c, report_perStockConfusion report !! symbol = Some c
            /\ tp c + fp c + fn c + tn c = length predictionsArray * predictionDays)
    /\ sum_list (map (cellsOf report) symbols)
       = length predictionsArray * length symbols * predictionDays.
Proof.
  intros Hnd Hlen. unfold analysePredictions.
  destruct (analysePredictions_tally predictionsArray groundTruthArray symbols
              predictionDays Hnd Hlen) as (t & -> & Hsym).
  cbn [obind]. eexists. split; [done|]. cbn [report_perStockConfusion].
  split; [exact Hsym|].
  rewrite (sum_list_const _ _ (length predictionsArray * predictionDays)); [lia|].
  intros s Hs. unfold cellsOf. cbn [report_perStockConfusion].
  destruct (Hsym s Hs) as (c & -> & Hc). exact Hc.
Qed.

Lemma confusion_totals_witness :
  exists report,
    analysePredictions predictions2 truth2 ["A"; "B"] 2 = Ok report
    /\ (exists c, report_perStockConfusion report !! "B" = Some c
          /\ (tp c + fp c + fn c + tn c = 4)%nat)
    /\ sum_list (map (cellsOf report) ["A"; "B"]) = 8%nat.
Proof.
  destruct (confusion_totals predictions2 truth2 ["A"; "B"] 2)
    as (report & Hreport & Hsym & Hsum).
  - by compute_done.
  - reflexivity.
  - exists report. split; [exact Hreport|]. split; [|exact Hsum].
    apply (Hsym "B"). by compute_done.
Defined.


(** ** The threshold *)

Lemma days_calls symbol row truthRow offset days st st' :
  foldM (dayStep symbol row truthRow offset) days st = Ok st' ->
  perStockTimeline (tally st') = perStockTimeline (tally st)
  /\ map predicted (loop_perDayFlags st')
     = map predicted (loop_perDayFlags st)
       ++ map (fun day => threshold (row !! (offset + day))) days.
Proof.
  revert st. induction days as [|day days IH]; intros st; cbn [foldM].
  - intros [= <-]. by rewrite app_nil_r.
  - destruct (dayStep symbol row truthRow offset st day) as [st1|e] eqn:H1; [|done].
    cbn [obind]. unfold dayStep in H1. destruct truthRow as [truth|]; [|done].
    injection H1 as <-.
    intros H. apply IH in H as [-> ->]. cbn [tally perStockTimeline loop_perDayFlags].
    split; [done|]. rewrite map_app. cbn. by rewrite <- app_assoc.
Qed.

Lemma stock_calls row truthRow H t stockIdx symbol t' :
  stockStep row truthRow H t (stockIdx, symbol) = Ok t' ->
  forall s, recordedCalls (perStockTimeline t') s
            = if decide (s = symbol)
              then (fun old => old ++ [callsOf row stockIdx H])
                     <$> recordedCalls (perStockTimeline t) s
              else recordedCalls (perStockTimeline t) s.
Proof.
  unfold stockStep.
  destruct (foldM _ (seq 0 H) _) as [st|e] eqn:Hdays; [|done]. cbn [obind].
  intros [= <-] s. apply days_calls in Hdays as [Htl Hflags].
  cbn [tally loop_perDayFlags map app] in Htl, Hflags.
  unfold recordedCalls. cbn [perStockTimeline]. rewrite Htl.
  destruct (decide (s = symbol)) as [->|Hne].
  - rewrite lookup_alter_eq. destruct (perStockTimeline t !! symbol) as [entries|]; [|done].
    cbn. f_equal. rewrite map_app. cbn. by rewrite Hflags.
  - by rewrite lookup_alter_ne.
Qed.

Lemma stocks_calls_other row truthRow H ps t t' s :
  foldM (stockStep row truthRow H) ps t = Ok t' ->
  s ∉ ps.*2 ->
  recordedCalls (perStockTimeline t') s = recordedCalls (perStockTimeline t) s.
Proof.
  revert t. induction ps as [|[i x] ps IH]; intros t; cbn [foldM].
  - by intros [= <-].
  - destruct (stockStep row truthRow H t (i, x)) as [t1|e] eqn:H1; [|done]. cbn [obind].
    intros Hrest Hs. rewrite (IH t1 Hrest) by (intros ?; apply Hs; by right).
    rewrite (stock_calls _ _ _ _ _ _ _ H1 s).
    destruct (decide (s = x)) as [->|]; [|done]. exfalso. apply Hs. by left.
Qed.

Lemma stocks_calls row truthRow H ps t t' stockIdx symbol :
  NoDup ps.*2 ->
  foldM (stockStep row truthRow H) ps t = Ok t' ->
  (stockIdx, symbol) ∈ ps ->
  recordedCalls (perStockTimeline t') symbol
  = (fun old => old ++ [callsOf row stockIdx H])
      <$> recordedCalls (perStockTimeline t) symbol.
Proof.
  revert t. induction ps as [|[i x] ps IH]; intros t Hnd Hfold Hin;
    [by apply elem_of_nil in Hin|].
  cbn [fmap list_fmap snd] in Hnd. apply NoDup_cons in Hnd as [Hfresh Hnd].
  cbn [foldM] in Hfold.
  destruct (stockStep row truthRow H t (i, x)) as [t1|e] eqn:H1; [|done].
  cbn [obind] in Hfold.
  apply elem_of_cons in Hin as [[= -> ->]|Hin].
  - rewrite (stocks_calls_other _ _ _ _ _ _ _ Hfold Hfresh).
    rewrite (stock_calls _ _ _ _ _ _ _ H1 x). by destruct (decide (x = x)).
  - rewrite (IH t1 Hnd Hfold Hin).
    rewrite (stock_calls _ _ _ _ _ _ _ H1 symbol).
    destruct (decide (symbol = x)) as [->|]; [|done].
    exfalso. apply Hfresh. apply list_elem_of_fmap. by exists (stockIdx, x).
Qed.

Lemma rows_calls groundTruthArray symbols H rs t t' stockIdx symbol :
  NoDup symbols ->
  symbols !! stockIdx = Some symbol ->
  foldM (rowStep groundTruthArray symbols H) rs t = Ok t' ->
  recordedCalls (perStockTimeline t') symbol
  = (fun old => old ++ map (fun p => callsOf p.2 stockIdx H) rs)
      <$> recordedCalls (perStockTimeline t) symbol.
Proof.
  intros Hnd Hsym. revert t. induction rs as [|[rowIndex row] rs IH]; intros t; cbn [foldM].
  - intros [= <-]. cbn. destruct (recordedCalls _ _); cbn; [|done]. by rewrite app_nil_r.
  - destruct (rowStep groundTruthArray symbols H t (rowIndex, row))
      as [t1|e] eqn:H1; [|done]. cbn [obind]. unfold rowStep in H1.
    intros Hrest. rewrite (IH t1 Hrest).
    rewrite (stocks_calls _ _ _ _ _ _ stockIdx symbol ltac:(by rewrite imap_pair_snd0) H1).
    + destruct (recordedCalls (perStockTimeline t) symbol); cbn; [|done].
      by rewrite <- app_assoc.
    + apply list_elem_of_lookup. exists stockIdx. by rewrite list_lookup_imap, Hsym.
Qed.

Lemma initialTally_timeline_fold symbols t s :
  let t' := fold_left (fun t symbol =>
               {| perStockTimeline := <[symbol := []]> (perStockTimeline t);
                  perStockTotals := <[symbol := {| correct := 0; total := 0 |}]>
                                      (perStockTotals t);
                  perStockConfusion := <[symbol := {| tp := 0; fp := 0; fn := 0; tn := 0 |}]>
                                         (perStockConfusion t);
                  globalCorrect := globalCorrect t;
                  globalTotal := globalTotal t |}) symbols t in
  s ∈ symbols -> perStockTimeline t' !! s = Some [].
Proof.
  revert t. induction symbols as [|x symbols IH] using rev_ind; intros t; cbn.
  - by intros ?%elem_of_nil.
  - rewrite fold_left_app. cbn. intros Hs. destruct (decide (s = x)) as [->|Hne].
    + by rewrite lookup_insert_eq.
    + rewrite lookup_insert_ne by done. apply IH.
      apply elem_of_app in Hs as [|Hs]; [done|]. by apply list_elem_of_singleton in Hs.
Qed.

(** C10.  A predicted probability of exactly 0.5 is a positive call: in
    the report of [analysePredictions], the flag of a sample, a symbol and
    a day whose prediction is 0.5 has [predicted = 1]; and the call of a
    prediction is 1 exactly when 0.5 <= prediction. *)
Theorem threshold_tie_is_positive (predictionsArray groundTruthArray : list (list num))
    (symbols : list string) (predictionDays : nat)
    (rowIndex stockIdx day : nat) (row : list num) (symbol : string) :
  NoDup symbols ->
  length groundTruthArray = length predictionsArray ->
  predictionsArray !! rowIndex = Some row ->
  symbols !! stockIdx = Some symbol ->
  day < predictionDays ->
  row !! (stockIdx * predictionDays + day) = Some half ->
  (forall x, threshold (Some x) = 1 <-> leb half x = true)
  /\ exists report entries entry flag,
       analysePredictions predictionsArray groundTruthArray symbols predictionDays
       = Ok report
       /\ report_perStockTimeline report !! symbol = Some entries
       /\ entries !! rowIndex = Some entry
       /\ perDayFlags entry !! day = Some flag
       /\ predicted flag = 1.
Proof.
  intros Hnd Hlen Hrow Hsym Hday Hcell. split.
  { intros x. cbn. by destruct (leb half x). }
  destruct (analysePredictions_tally predictionsArray groundTruthArray symbols
              predictionDays Hnd Hlen) as (t & Hfold & _).
  unfold analysePredictions. rewrite Hfold. cbn [obind].
  pose proof (rows_calls _ _ _ _ _ _ stockIdx symbol Hnd Hsym Hfold) as Hcalls.
  unfold recordedCalls in Hcalls at 2. unfold initialTally in Hcalls.
  rewrite initialTally_timeline_fold in Hcalls by (by eapply list_elem_of_lookup_2).
  cbn in Hcalls. unfold recordedCalls in Hcalls.
  destruct (perStockTimeline t !! symbol) as [entries|] eqn:Hentries; [|done].
  cbn in Hcalls. injection Hcalls as Hcalls.
  assert (Hr : map (fun e => map predicted (perDayFlags e)) entries !! rowIndex
               = Some (callsOf row stockIdx predictionDays)).
  { rewrite Hcalls, list_lookup_fmap, list_lookup_imap, Hrow. done. }
  rewrite list_lookup_fmap in Hr.
  destruct (entries !! rowIndex) as [entry|] eqn:Hentry; [|done].
  cbn in Hr. injection Hr as Hr.
  assert (Hd : map predicted (perDayFlags entry) !! day = Some 1).
  { rewrite Hr. unfold callsOf. rewrite list_lookup_fmap, lookup_seq_lt by done.
    cbn. by rewrite Hcell. }
  rewrite list_lookup_fmap in Hd.
  destruct (perDayFlags entry !! day) as [flag|] eqn:Hflag; [|done].
  cbn in Hd. injection Hd as Hd.
  eexists _, entries, entry, flag. split; [reflexivity|].
  cbn [report_perStockTimeline]. done.
Qed.

Lemma threshold_tie_is_positive_witness :
  exists report entries entry flag,
    analysePredictions [[half]] [[one]] ["A"] 1 = Ok report
    /\ report_perStockTimeline report !! "A" = Some entries
    /\ entries !! 0%nat = Some entry
    /\ perDayFlags entry !! 0%nat = Some flag
    /\ predicted flag = 1%nat.
Proof.
  refine (proj2 (threshold_tie_is_positive [[half]] [[one]] ["A"] 1 0 0 0 [half] "A"
                   _ _ _ _ _ _)).
  - by compute_done.
  - reflexivity.
  - reflexivity.
  - reflexivity.
  - simpl. lia.
  - reflexivity.
Defined.

Local Close Scope nat_scope.

(** * Further properties of the code *)

Local Open Scope Z_scope.

(** ** Gap filling *)

Lemma fillPass_all_finite lv a :
  Forall (fun x => isFiniteNum x = true) a -> fillPass lv a = a.
Proof.
  intros H. revert lv. induction H as [|x a Hx _ IH]; intros lv; [done|].
  cbn [fillPass]. by rewrite Hx, IH.
Qed.

Lemma fillMissingValues_all_finite a :
  Forall (fun x => isFiniteNum x = true) a -> fillMissingValues a = a.
Proof.
  intros H. unfold fillMissingValues.
  rewrite (fillPass_all_finite None a H).
  rewrite fillPass_all_finite by (by apply Forall_reverse).
  apply reverse_involutive.
Qed.

(** A position after a finite value, with nothing finite in between,
    takes that value in one pass. *)
Lemma fillPass_fills_gap lv a j i x :
  (j < i < length a)%nat ->
  a !! j = Some x -> isFiniteNum x = true ->
  (forall k y, (j < k <= i)%nat -> a !! k = Some y -> isFiniteNum y = false) ->
  fillPass lv a !! i = Some x.
Proof.
  intros [Hji Hi] Hj Hx Hgap.
  rewrite fillPass_lookup.
  destruct (lookup_lt_is_Some_2 a i Hi) as [z Hz]. rewrite Hz. cbn. f_equal.
  assert (take (S i) a = take j a ++ x :: take (i - j) (drop (S j) a)) as ->.
  { rewrite <- (take_drop_middle a j x Hj) at 1.
    rewrite take_app_ge by (rewrite length_take; lia).
    rewrite length_take, Nat.min_l by lia.
    replace (S i - j)%nat with (S (i - j)) by lia. done. }
  rewrite lastFinite_app. cbn. rewrite Hx.
  fold (lastFinite (Some x) (take (i - j) (drop (S j) a))).
  rewrite lastFinite_gap; [done|].
  apply Forall_lookup. intros k y Hk.
  rewrite lookup_take_Some in Hk. destruct Hk as [Hk Hlt].
  rewrite lookup_drop in Hk. apply (Hgap (S j + k)%nat y); [lia|done].
Qed.

(** X1.  [fillMissingValues] returns an array of the same length and never
    changes a position that holds a finite value. *)
Theorem fillMissingValues_keeps_data (a : list num) :
  length (fillMissingValues a) = length a
  /\ forall i x, a !! i = Some x -> isFiniteNum x = true ->
       fillMissingValues a !! i = Some x.
Proof.
  split; [apply fillMissingValues_length|].
  intros i x Hi Hx. apply fillMissingValues_keeps; [|done].
  by apply fillPass_keeps.
Qed.

(** X2.  Filling twice is filling once. *)
Theorem fillMissingValues_idempotent (a : list num) :
  fillMissingValues (fillMissingValues a) = fillMissingValues a.
Proof.
  destruct (decide (Exists (fun x => isFiniteNum x = true) a)) as [Hex|Hno].
  - apply fillMissingValues_all_finite.
    destruct (fillPass_last_finite a Hex) as (y & Hlast & Hy).
    by eapply fillBack_all_finite.
  - assert (Hall : Forall (fun x => isFiniteNum x = false) a).
    { apply Forall_forall. intros x Hin.
      destruct (isFiniteNum x) eqn:Hx; [|done].
      exfalso. apply Hno. apply Exists_exists. eauto. }
    by rewrite !(fillMissingValues_none_finite a Hall).
Qed.

(** X3.  The positions before the first finite value take that value:
    what the forward pass cannot fill, the backward pass fills. *)
Theorem fillMissingValues_fills_leading_gap (a : list num) (j : nat) (x : num) :
  a !! j = Some x -> isFiniteNum x = true ->
  (forall k y, (k < j)%nat -> a !! k = Some y -> isFiniteNum y = false) ->
  forall i, (i <= j)%nat -> fillMissingValues a !! i = Some x.
Proof.
  intros Hj Hx Hgap i Hij.
  assert (Hjlt : (j < length a)%nat) by (by eapply lookup_lt_Some).
  set (b := fillPass None a).
  assert (Hlen : length b = length a) by apply fillPass_length.
  (* the forward pass leaves the leading gap as it is *)
  assert (Hb : forall k, (k <= j)%nat -> b !! k = a !! k).
  { intros k Hk. unfold b. rewrite fillPass_lookup.
    destruct (a !! k) as [y|] eqn:Hy; [|done]. cbn. f_equal.
    destruct (decide (k = j)) as [->|Hne].
    - replace y with x by congruence.
      replace (take (S j) a) with (take j a ++ [x]).
      + rewrite lastFinite_app. cbn. by rewrite Hx.
      + by rewrite <- take_S_r.
    - rewrite lastFinite_gap; [done|].
      apply Forall_lookup. intros n z Hn.
      rewrite lookup_take_Some in Hn. destruct Hn as [Hn Hlt].
      apply (Hgap n z); [lia|done]. }
  destruct (decide (i = j)) as [->|Hne].
  - apply fillMissingValues_keeps; [|done]. fold b. by rewrite Hb.
  - unfold fillMissingValues. fold b.
    rewrite reverse_lookup by (rewrite fillPass_length, length_reverse; lia).
    rewrite fillPass_length, length_reverse.
    apply (fillPass_fills_gap None (reverse b) (length b - S j)%nat); [| |done|].
    + rewrite length_reverse. lia.
    + rewrite reverse_lookup by lia.
      replace (length b - S (length b - S j))%nat with j by lia.
      by rewrite Hb.
    + intros k y Hk Hy.
      rewrite reverse_lookup in Hy by lia.
      rewrite Hb in Hy by lia.
      apply (Hgap (length b - S k)%nat y); [lia|done].
Qed.

Lemma fillMissingValues_fills_leading_gap_witness :
  fillMissingValues [NaN; NaN; three; one] !! 0%nat = Some three.
Proof.
  apply (fillMissingValues_fills_leading_gap [NaN; NaN; three; one] 2 three);
    [reflexivity|reflexivity| |simpl; lia].
  intros k y Hk Hy.
  destruct k as [|[|k]]; try lia; injection Hy as <-; reflexivity.
Defined.

(** ** Scaling *)

Lemma sub_self x : good x = true -> sub x x = zero.
Proof.
  destruct x as [[]| | |s m e]; try done. intros _.
  unfold sub. cbn [SFsub]. by rewrite Z.sub_diag.
Qed.

(** A positive finite number divided by itself is 1. *)
Lemma div_self m e :
  div (S754_finite false m e) (S754_finite false m e) = one.
Proof.
  unfold div, SFdiv, SFdiv_core_binary. cbn [Zdigits2 xorb].
  rewrite !Z.sub_diag.
  change (Z.min (fexp prec emax 0) 0) with (-53).
  change (0 - -53) with 53.
  rewrite Z.shiftl_mul_pow2 by lia.
  assert (Hq : (Z.pos m * 2 ^ 53) / Z.pos m = 2 ^ 53)
    by (rewrite Z.mul_comm; apply Z.div_mul; lia).
  assert (Hr : (Z.pos m * 2 ^ 53) mod Z.pos m = 0)
    by (rewrite Z.mul_comm; apply Z.mod_mul; lia).
  unfold Z.div, Z.modulo in Hq, Hr.
  destruct (Z.div_eucl (Z.pos m * 2 ^ 53) (Z.pos m)) as [q r].
  subst q r.
  rewrite new_location_zero. reflexivity.
Qed.

Lemma min_step_choice lowest number :
  min_step lowest number = lowest \/ min_step lowest number = number.
Proof. unfold min_step. destruct (_ && _); [by right|]. destruct (ltb _ _); auto. Qed.

Lemma max_step_choice highest number :
  max_step highest number = highest \/ max_step highest number = number.
Proof. unfold max_step. destruct (_ && _); [by right|]. destruct (ltb _ _); auto. Qed.

Lemma fold_min_elem xs acc : fold_left min_step xs acc ∈ acc :: xs.
Proof.
  revert acc. induction xs as [|x xs IH]; intros acc; cbn [fold_left].
  - by left.
  - specialize (IH (min_step acc x)).
    apply elem_of_cons in IH as [->|IH].
    + destruct (min_step_choice acc x) as [->| ->]; [by left|right; by left].
    + right. by right.
Qed.

Lemma fold_max_elem xs acc : fold_left max_step xs acc ∈ acc :: xs.
Proof.
  revert acc. induction xs as [|x xs IH]; intros acc; cbn [fold_left].
  - by left.
  - specialize (IH (max_step acc x)).
    apply elem_of_cons in IH as [->|IH].
    + destruct (max_step_choice acc x) as [->| ->]; [by left|right; by left].
    + right. by right.
Qed.

Lemma Math_min_elem x xs :
  Forall (fun x => good x = true) (x :: xs) -> Math_min (x :: xs) ∈ x :: xs.
Proof.
  intros Hall. unfold Math_min. rewrite (good_not_NaN _ Hall). cbn [fold_left].
  inversion Hall as [|? ? Hx Hxs]; subst.
  assert (min_step POSITIVE_INFINITY x = x) as -> by (by destruct x as [[]| | |[]]).
  apply fold_min_elem.
Qed.

Lemma Math_max_elem x xs :
  Forall (fun x => good x = true) (x :: xs) -> Math_max (x :: xs) ∈ x :: xs.
Proof.
  intros Hall. unfold Math_max. rewrite (good_not_NaN _ Hall). cbn [fold_left].
  inversion Hall as [|? ? Hx Hxs]; subst.
  assert (max_step NEGATIVE_INFINITY x = x) as -> by (by destruct x as [[]| | |[]]).
  apply fold_max_elem.
Qed.

(** X4.  Min-max scaling of finite numbers with at least two different
    values, whose range max - min does not overflow: the result has the
    length of the input, every value [v] of it satisfies [0 <= v] and
    [v <= 1], the minimum of the series is sent to 0 and its maximum
    to 1. *)
Theorem minMaxScale_range (series : list num) :
  Forall (fun x => good x = true) series ->
  eqb (Math_min series) (Math_max series) = false ->
  isFiniteNum (sub (Math_max series) (Math_min series)) = true ->
  length (minMaxScale series) = length series
  /\ Forall (fun y => inUnit y = true) (minMaxScale series)
  /\ (exists i, series !! i = Some (Math_min series)
                /\ minMaxScale series !! i = Some zero)
  /\ (exists j, series !! j = Some (Math_max series)
                /\ minMaxScale series !! j = Some one).
Proof.
  intros Hall Hne Hfin.
  split; [|split; [by apply minMaxScale_inUnit|]].
  { unfold minMaxScale. destruct (_ || _); apply length_map. }
  destruct series as [|x xs]; [done|].
  destruct (Math_min_good x xs Hall) as [Hlo Hlos].
  destruct (Math_max_good x xs Hall) as [Hhi His].
  pose proof (Math_min_elem x xs Hall) as Hlo_in.
  pose proof (Math_max_elem x xs Hall) as Hhi_in.
  assert (Hscale : minMaxScale (x :: xs)
                   = map (fun value => div (sub value (Math_min (x :: xs)))
                                         (sub (Math_max (x :: xs)) (Math_min (x :: xs))))
                       (x :: xs)).
  { unfold minMaxScale. rewrite (filter_good _ Hall).
    by rewrite (good_isFiniteNum _ Hlo), (good_isFiniteNum _ Hhi), Hne. }
  set (lo := Math_min (x :: xs)) in *. set (hi := Math_max (x :: xs)) in *.
  assert (Hlt : scaled lo < scaled hi).
  { rewrite (eqb_scaled lo hi Hlo Hhi) in Hne. apply Z.eqb_neq in Hne.
    inversion Hlos; inversion His; subst. lia. }
  pose proof (sub_scaled hi lo Hhi Hlo Hlt) as Hd.
  destruct (sub hi lo) as [| | |[] M e] eqn:Hrange; try done.
  split.
  - apply list_elem_of_lookup in Hlo_in as [i Hi]. exists i. split; [done|].
    rewrite Hscale. change (map ?f ?l) with (f <$> l).
    rewrite list_lookup_fmap, Hi. cbn. by rewrite (sub_self lo Hlo).
  - apply list_elem_of_lookup in Hhi_in as [j Hj]. exists j. split; [done|].
    rewrite Hscale. change (map ?f ?l) with (f <$> l).
    rewrite list_lookup_fmap, Hj. cbn. by rewrite Hrange, div_self.
Qed.

Lemma minMaxScale_range_witness :
  minMaxScale [ofZ 2; ofZ 6; ofZ 4] = [zero; one; half]
  /\ Forall (fun y => inUnit y = true) (minMaxScale [ofZ 2; ofZ 6; ofZ 4]).
Proof.
  split; [reflexivity|].
  apply (minMaxScale_range [ofZ 2; ofZ 6; ofZ 4]);
    [repeat constructor|reflexivity|reflexivity].
Defined.

Lemma binary_normalize_not_nan z e :
  isNaN (binary_normalize prec emax z e false) = false.
Proof.
  destruct z as [|p|p]; [done| |]; cbn [binary_normalize]; unfold binary_round;
    destruct (shl_align _ _ _) as [mz ez]; by apply binary_round_aux_not_nan.
Qed.

(** A sum with a finite term is NaN only for a NaN first term. *)
Lemma add_finite_not_nan acc v :
  isNaN acc = false -> isFiniteNum v = true -> isNaN (add acc v) = false.
Proof.
  intros Hacc Hv. unfold add.
  destruct acc as [s|s| |s m e], v as [t|t| |t n f]; try done; cbn [SFadd].
  - by destruct s, t.
  - apply binary_normalize_not_nan.
Qed.

Lemma sub_finite_not_nan v m :
  isFiniteNum v = true -> isNaN m = false -> isNaN (sub v m) = false.
Proof.
  intros Hv Hm. unfold sub.
  destruct v as [s|s| |s n e], m as [t|t| |t k f]; try done; cbn [SFsub].
  - by destruct s, t.
  - apply binary_normalize_not_nan.
Qed.

(** A quotient by a finite number other than zero is NaN only for a NaN
    dividend. *)
Lemma div_finite_not_nan x s m e :
  isNaN x = false -> isNaN (div x (S754_finite s m e)) = false.
Proof.
  intros Hx. unfold div. destruct x as [t|t| |t n f]; try done. cbn [SFdiv].
  unfold SFdiv_core_binary.
  set (m' := match _ with Z.pos _ => _ | 0 => _ | Z.neg _ => _ end).
  assert (Hm' : 0 <= m').
  { unfold m'. destruct (_ - _ - _) as [|p|p]; try lia.
    rewrite Z.shiftl_mul_pow2 by lia. apply Z.mul_nonneg_nonneg; [lia|].
    apply Z.pow_nonneg. lia. }
  pose proof (Z_div_mod m' (Z.pos m) ltac:(lia)) as Hdm.
  destruct (Z.div_eucl m' (Z.pos m)) as [q r]. destruct Hdm as [Hdm Hr].
  apply binary_round_aux_not_nan. nia.
Qed.

Lemma sumBy_not_nan (g : num -> num) xs acc :
  (forall x, x ∈ xs -> isFiniteNum (g x) = true) -> isNaN acc = false ->
  isNaN (fold_left (fun acc value => add acc (g value)) xs acc) = false.
Proof.
  revert acc. induction xs as [|x xs IH]; intros acc Hg Hacc; [done|].
  cbn [fold_left]. apply IH.
  - intros y Hy. apply Hg. by right.
  - apply add_finite_not_nan; [done|]. apply Hg. by left.
Qed.

(** X5.  Standard scaling returns an array of the same length, sends every
    position that does not hold a finite number to 0, and never returns
    NaN at any position. *)
Theorem standardScale_no_NaN (series : list num) :
  Z.of_nat (length series) < 2 ^ 53 ->
  length (standardScale series) = length series
  /\ (forall i x, series !! i = Some x -> isFiniteNum x = false ->
        standardScale series !! i = Some zero)
  /\ Forall (fun y => isNaN y = false) (standardScale series).
Proof.
  intros Hlen. unfold standardScale.
  set (filtered := List.filter isFiniteNum series).
  assert (Hzeros : Forall (fun y => isNaN y = false) (map (fun _ => zero) series)).
  { apply List.Forall_forall. by intros y (v & <- & _)%List.in_map_iff. }
  destruct (length filtered =? 0)%nat eqn:Hn.
  { split; [apply length_map|]. split; [|done]. intros i x Hi Hx.
    change (map ?f ?l) with (f <$> l). by rewrite list_lookup_fmap, Hi. }
  set (n := ofZ (Z.of_nat (length filtered))).
  set (mean := div (sumBy (fun value => value) filtered) n).
  set (std := sqrt (div (sumBy (fun value => square (sub value mean)) filtered) n)).
  destruct (negb (isFiniteNum std) || eqb std zero) eqn:Hstd.
  { split; [apply length_map|]. split; [|done]. intros i x Hi Hx.
    change (map ?f ?l) with (f <$> l). by rewrite list_lookup_fmap, Hi. }
  split; [apply length_map|]. split.
  { intros i x Hi Hx. change (map ?f ?l) with (f <$> l).
    rewrite list_lookup_fmap, Hi. cbn. by rewrite Hx. }
  (* the mean is not NaN, and [std] is finite and not zero *)
  assert (Hfilt : forall x, x ∈ filtered -> isFiniteNum x = true).
  { intros x Hx. unfold filtered in Hx. apply list_elem_of_In in Hx.
    by apply List.filter_In in Hx as [_ Hx]. }
  assert (Hcount : 0 < Z.of_nat (length filtered) < 2 ^ 53).
  { apply Nat.eqb_neq in Hn. split; [lia|].
    pose proof (List.filter_length_le isFiniteNum series). unfold filtered. lia. }
  assert (Hn' : exists m e, n = S754_finite false m e).
  { unfold n. destruct (Z.of_nat (length filtered)) as [|p|p] eqn:Hp; try lia.
    apply ofZ_pos_finite. lia. }
  destruct Hn' as (mn & en & Hmn).
  assert (Hmean : isNaN mean = false).
  { unfold mean. rewrite Hmn. apply div_finite_not_nan.
    unfold sumBy. by apply sumBy_not_nan. }
  assert (Hstd' : exists s m e, std = S754_finite s m e).
  { apply orb_false_elim in Hstd as [H1 H2]. apply negb_false_iff in H1.
    destruct std as [[]| | |s m e]; try done. by exists s, m, e. }
  destruct Hstd' as (ss & ms & es & Hs).
  apply List.Forall_forall. intros y (v & <- & _)%List.in_map_iff.
  destruct (isFiniteNum v) eqn:Hv; [|done].
  rewrite Hs. apply div_finite_not_nan. by apply sub_finite_not_nan.
Qed.

Lemma standardScale_no_NaN_witness :
  standardScale [ofZ 1; NaN; ofZ 3] !! 1%nat = Some zero
  /\ Forall (fun y => isNaN y = false) (standardScale [ofZ 1; NaN; ofZ 3]).
Proof.
  destruct (standardScale_no_NaN [ofZ 1; NaN; ofZ 3]) as (_ & Hzero & Hall);
    [simpl; lia|].
  split; [|exact Hall]. by apply (Hzero 1%nat NaN).
Defined.

(** ** The axes of the feature cube *)

Lemma Set_add_elem x y s : y ∈ Set_add x s <-> y = x \/ y ∈ s.
Proof.
  unfold Set_add. destruct (decide (x ∈ s)) as [Hin|Hout].
  - split; [by right|]. intros [->|H]; done.
  - rewrite elem_of_app, list_elem_of_singleton. tauto.
Qed.

Lemma Set_add_NoDup x s : NoDup s -> NoDup (Set_add x s).
Proof.
  intros H. unfold Set_add. destruct (decide (x ∈ s)) as [Hin|Hout]; [done|].
  apply NoDup_app. split; [done|]. split; [|apply NoDup_singleton].
  intros y Hy ->%list_elem_of_singleton. done.
Qed.

Lemma Set_add_length x s : (length (Set_add x s) <= S (length s))%nat.
Proof.
  unfold Set_add. destruct (decide (x ∈ s)); [lia|]. rewrite length_app. cbn. lia.
Qed.

(** The distinct values of a field of the rows, in the order of their
    first row. *)
Lemma distinct_fold {A} (key : A -> string) (rs : list A) (s0 : list string) :
  let s := fold_left (fun s r => Set_add (key r) s) rs s0 in
  (NoDup s0 -> NoDup s)
  /\ (forall x, x ∈ s <-> x ∈ s0 \/ exists r, r ∈ rs /\ key r = x)
  /\ (length s <= length s0 + length rs)%nat.
Proof.
  revert s0. induction rs as [|r rs IH]; intros s0; cbn.
  - split; [done|]. split; [|lia]. intros x. split; [by left|].
    intros [H|(r & Hr & _)]; [done|]. by apply elem_of_nil in Hr.
  - destruct (IH (Set_add (key r) s0)) as (Hnd & Hin & Hlen).
    split; [intros H; by apply Hnd, Set_add_NoDup|]. split.
    + intros x. rewrite Hin, Set_add_elem. split.
      * intros [[->|H]|(r' & Hr' & Hk)]; [right; exists r; split; [by left|done]
                                          |by left|].
        right. exists r'. split; [by right|done].
      * intros [H|(r' & Hr' & Hk)]; [left; by right|].
        apply elem_of_cons in Hr' as [->|Hr']; [left; by left|].
        right. by exists r'.
    + pose proof (Set_add_length (key r) s0). lia.
Qed.

Lemma insertSorted_Permutation {A} (le : A -> A -> bool) x (l : list A) :
  insertSorted le x l ≡ₚ x :: l.
Proof.
  induction l as [|y l IH]; [done|]. cbn [insertSorted].
  destruct (le x y); [done|]. rewrite IH. apply Permutation_swap.
Qed.

(** Sorting rearranges and neither drops nor repeats an element. *)
Lemma sortBy_Permutation {A} (le : A -> A -> bool) (l : list A) : sortBy le l ≡ₚ l.
Proof.
  induction l as [|x l IH]; [done|]. unfold sortBy in *. cbn [foldr].
  by rewrite insertSorted_Permutation, IH.
Qed.

(** Insertion into a sorted list, for an order that is total and
    transitive. *)
Lemma insertSorted_sorted_by {A} (le : A -> A -> bool) x (l : list A) :
  (forall a b, le a b = true \/ le b a = true) ->
  (forall a b c, le a b = true -> le b c = true -> le a c = true) ->
  StronglySorted (fun a b => le a b = true) l ->
  StronglySorted (fun a b => le a b = true) (insertSorted le x l).
Proof.
  intros Htotal Htrans. induction 1 as [|y l Hl IH Hy]; cbn [insertSorted].
  - repeat constructor.
  - destruct (le x y) eqn:Hxy.
    + constructor; [by constructor|]. constructor; [done|].
      eapply Forall_impl; [exact Hy|]. intros z Hz. by eapply Htrans.
    + constructor; [done|]. apply Forall_forall. intros z Hz.
      apply insertSorted_elem in Hz as [->|Hz].
      * destruct (Htotal x y) as [H|H]; [congruence|done].
      * rewrite Forall_forall in Hy. by apply Hy.
Qed.

Lemma sortBy_sorted_by {A} (le : A -> A -> bool) (l : list A) :
  (forall a b, le a b = true \/ le b a = true) ->
  (forall a b c, le a b = true -> le b c = true -> le a c = true) ->
  StronglySorted (fun a b => le a b = true) (sortBy le l).
Proof.
  intros Htotal Htrans. induction l as [|x l IH]; [constructor|].
  unfold sortBy in *. cbn [foldr]. by apply insertSorted_sorted_by.
Qed.

(** The order of strings by their code units is transitive. *)
Lemma String_compare_trans s1 s2 s3 c :
  String.compare s1 s2 = c -> String.compare s2 s3 = c -> c <> Eq ->
  String.compare s1 s3 = c.
Proof.
  revert s2 s3. induction s1 as [|a1 s1 IH]; intros [|a2 s2] [|a3 s3]; cbn;
    try congruence.
  unfold Ascii.compare.
  destruct (N.compare_spec (N_of_ascii a1) (N_of_ascii a2)) as [H12|H12|H12];
    destruct (N.compare_spec (N_of_ascii a2) (N_of_ascii a3)) as [H23|H23|H23];
    destruct (N.compare_spec (N_of_ascii a1) (N_of_ascii a3)) as [H13|H13|H13];
    try lia; try congruence; eauto.
Qed.

Lemma String_compare_refl s : String.compare s s = Eq.
Proof.
  induction s as [|a s IH]; [done|]. cbn. unfold Ascii.compare.
  by rewrite N.compare_refl.
Qed.

Lemma String_leb_trans a b c :
  String.leb a b = true -> String.leb b c = true -> String.leb a c = true.
Proof.
  unfold String.leb. intros Hab Hbc.
  destruct (String.compare a b) eqn:H1; try done;
    destruct (String.compare b c) eqn:H2; try done.
  - apply String.compare_eq_iff in H1, H2. subst.
    by rewrite String_compare_refl.
  - apply String.compare_eq_iff in H1. subst. by rewrite H2.
  - apply String.compare_eq_iff in H2. subst. by rewrite H1.
  - by rewrite (String_compare_trans a b c Lt H1 H2).
Qed.

(** The two axes hold what the rows hold, each value once. *)
Lemma buildFeatureCube_dates (timeValue : string -> Z) (l : DataLoader) :
  let l' := buildFeatureCube timeValue l in
  NoDup (dates l')
  /\ (forall d, d ∈ dates l' <-> exists r, r ∈ rows l /\ date r = d)
  /\ (length (dates l') <= length (rows l))%nat.
Proof.
  cbn zeta. unfold buildFeatureCube. cbn [dates].
  destruct (distinct_fold date (rows l) []) as (Hd1 & Hd2 & Hd3).
  cbn zeta in *. fold (dateSetOf (rows l)) in *. unfold sortDates.
  split; [|split].
  - rewrite sortBy_Permutation. apply Hd1, NoDup_nil_2.
  - intros d. rewrite sortBy_Permutation, Hd2. split; [|by right].
    intros [H|H]; [by apply elem_of_nil in H|done].
  - rewrite sortBy_Permutation. cbn in Hd3. lia.
Qed.

Lemma buildFeatureCube_symbols (timeValue : string -> Z) (l : DataLoader) :
  let l' := buildFeatureCube timeValue l in
  NoDup (symbols l')
  /\ (forall s, s ∈ symbols l' <-> exists r, r ∈ rows l /\ symbol r = s)
  /\ (length (symbols l') <= length (rows l))%nat.
Proof.
  cbn zeta. unfold buildFeatureCube. cbn [symbols].
  destruct (distinct_fold symbol (rows l) []) as (Hs1 & Hs2 & Hs3).
  cbn zeta in *. fold (symbolSetOf (rows l)) in *. unfold sortSymbols.
  split; [|split].
  - rewrite sortBy_Permutation. apply Hs1, NoDup_nil_2.
  - intros s. rewrite sortBy_Permutation, Hs2. split; [|by right].
    intros [H|H]; [by apply elem_of_nil in H|done].
  - rewrite sortBy_Permutation. cbn in Hs3. lia.
Qed.

(** X6.  After [buildFeatureCube] the dates of the loader are the dates of
    its rows, each once, in the order of their time values; its symbols are
    the symbols of its rows, each once, in the order of their code units. *)
Theorem buildFeatureCube_axes (timeValue : string -> Z) (l : DataLoader) :
  let l' := buildFeatureCube timeValue l in
  (NoDup (dates l')
   /\ (forall d, d ∈ dates l' <-> exists r, r ∈ rows l /\ date r = d)
   /\ StronglySorted (fun a b => timeValue a <= timeValue b) (dates l'))
  /\ (NoDup (symbols l')
      /\ (forall s, s ∈ symbols l' <-> exists r, r ∈ rows l /\ symbol r = s)
      /\ StronglySorted (fun a b => String.leb a b = true) (symbols l'))
  /\ (length (dates l') <= length (rows l))%nat
  /\ (length (symbols l') <= length (rows l))%nat.
Proof.
  cbn zeta.
  destruct (buildFeatureCube_dates timeValue l) as (Hd1 & Hd2 & Hd3).
  destruct (buildFeatureCube_symbols timeValue l) as (Hs1 & Hs2 & Hs3).
  cbn zeta in *.
  split; [|split; [|split]]; [| |done|done].
  - split; [done|]. split; [done|].
    unfold buildFeatureCube, sortDates. cbn [dates]. apply sortBy_sorted.
  - split; [done|]. split; [done|].
    unfold buildFeatureCube, sortSymbols. cbn [symbols].
    apply sortBy_sorted_by; [apply String.leb_total|apply String_leb_trans].
Qed.

(** ** The shape of the feature cube *)

Lemma blankCube_fold ss n (cube : gmap string Features) s :
  fold_left (fun cube s => <[s := blankFeatures n]> cube) ss cube !! s
  = if decide (s ∈ ss) then Some (blankFeatures n) else cube !! s.
Proof.
  revert cube. induction ss as [|x ss IH]; intros cube; cbn [fold_left].
  - by rewrite decide_False by apply not_elem_of_nil.
  - rewrite IH. destruct (decide (s ∈ ss)) as [Hin|Hout].
    + by rewrite decide_True by (by right).
    + destruct (decide (s = x)) as [->|Hne].
      * rewrite decide_True by (by left). apply lookup_insert_eq.
      * rewrite decide_False by (rewrite elem_of_cons; tauto).
        by apply lookup_insert_ne.
Qed.

Lemma blankCube_lookup ss n s :
  blankCube ss n !! s = if decide (s ∈ ss) then Some (blankFeatures n) else None.
Proof. unfold blankCube. rewrite blankCube_fold. by destruct (decide _). Qed.

Lemma deriveFeatures_length f n key :
  length (series_Open f) = n -> length (series_Close f) = n ->
  length (feature (deriveFeatures f) key) = n.
Proof.
  intros Ho Hc. unfold deriveFeatures, returnsOf, momentum3Of, volatility5Of.
  destruct key; cbn [feature series_Open series_Close series_Return
                     series_Momentum3 series_Volatility5];
    rewrite ?length_imap, fillMissingValues_length; done.
Qed.

Lemma minMaxScale_length series : length (minMaxScale series) = length series.
Proof. unfold minMaxScale. destruct (_ || _); apply length_map. Qed.

Lemma standardScale_length series : length (standardScale series) = length series.
Proof.
  unfold standardScale. destruct (_ =? _)%nat; [|destruct (_ || _)]; apply length_map.
Qed.

Lemma normaliseFeatures_length f key :
  length (feature (normaliseFeatures f) key) = length (feature f key).
Proof.
  destruct key; cbn; auto using minMaxScale_length, standardScale_length.
Qed.

(** Scattering the rows keeps the keys of the cube and the lengths of the
    Open and Close series. *)
Lemma scatterRow_shape dateIndex cube r n :
  (forall s f, cube !! s = Some f ->
     length (series_Open f) = n /\ length (series_Close f) = n) ->
  (forall s, is_Some (scatterRow dateIndex cube r !! s) <-> is_Some (cube !! s))
  /\ (forall s f, scatterRow dateIndex cube r !! s = Some f ->
        length (series_Open f) = n /\ length (series_Close f) = n).
Proof.
  intros Hshape. unfold scatterRow.
  destruct (cube !! symbol r) as [target|] eqn:Ht; [|done].
  destruct (dateIndex !! date r) as [idx|]; [|done].
  split.
  - intros s. destruct (decide (s = symbol r)) as [->|Hne].
    + rewrite lookup_insert_eq, Ht. split; eauto.
    + by rewrite lookup_insert_ne.
  - intros s f. destruct (decide (s = symbol r)) as [->|Hne].
    + rewrite lookup_insert_eq. intros [= <-]. cbn.
      rewrite !length_insert. by apply (Hshape (symbol r)).
    + rewrite lookup_insert_ne by done. apply Hshape.
Qed.

Lemma scatter_shape dateIndex rs cube n :
  (forall s f, cube !! s = Some f ->
     length (series_Open f) = n /\ length (series_Close f) = n) ->
  (forall s, is_Some (fold_left (scatterRow dateIndex) rs cube !! s)
             <-> is_Some (cube !! s))
  /\ (forall s f, fold_left (scatterRow dateIndex) rs cube !! s = Some f ->
        length (series_Open f) = n /\ length (series_Close f) = n).
Proof.
  revert cube. induction rs as [|r rs IH]; intros cube Hshape; cbn [fold_left]; [done|].
  destruct (scatterRow_shape dateIndex cube r n Hshape) as [Hdom Hsh].
  destruct (IH _ Hsh) as [Hdom' Hsh']. split; [|done].
  intros s. by rewrite Hdom', Hdom.
Qed.

(** The in-place loop over the symbols: what it leaves at a key. *)
Lemma updateEachSymbol_other g ss cube s :
  s ∉ ss -> updateEachSymbol g ss cube !! s = cube !! s.
Proof.
  unfold updateEachSymbol. revert cube.
  induction ss as [|x ss IH]; intros cube Hs; cbn [fold_left]; [done|].
  apply not_elem_of_cons in Hs as [Hne Hs]. rewrite IH by done.
  destruct (cube !! x); [|done]. by rewrite lookup_insert_ne.
Qed.

Lemma updateEachSymbol_lookup g ss cube s :
  NoDup ss -> s ∈ ss -> updateEachSymbol g ss cube !! s = g <$> cube !! s.
Proof.
  unfold updateEachSymbol. revert cube.
  induction ss as [|x ss IH]; intros cube Hnd Hs; cbn [fold_left].
  - by apply elem_of_nil in Hs.
  - apply NoDup_cons in Hnd as [Hx Hnd].
    apply elem_of_cons in Hs as [->|Hs].
    + fold (updateEachSymbol g ss (match cube !! x with
                                   | Some f => <[x := g f]> cube
                                   | None => cube end)).
      rewrite updateEachSymbol_other by done.
      destruct (cube !! x) eqn:Hc; [by rewrite lookup_insert_eq|by rewrite Hc].
    + rewrite IH by done. destruct (cube !! x) eqn:Hc; [|done].
      rewrite lookup_insert_ne; [done|]. intros ->. done.
Qed.

(** The loop that fills a fresh object from another one. *)
Lemma mapEachSymbol_fold (g : Features -> Features) (ss : list string)
    (source acc : gmap string Features) (s : string) :
  fold_left (fun acc s => match source !! s with
                          | Some f => <[s := g f]> acc
                          | None => acc
                          end) ss acc !! s
  = if decide (s ∈ ss) then match source !! s with
                            | Some f => Some (g f)
                            | None => acc !! s
                            end
    else acc !! s.
Proof.
  revert acc. induction ss as [|x ss IH]; intros acc; cbn [fold_left].
  - by rewrite decide_False by apply not_elem_of_nil.
  - rewrite IH. destruct (decide (s ∈ ss)) as [Hin|Hout].
    + rewrite decide_True by (by right).
      destruct (source !! s) eqn:Hs; [done|].
      destruct (source !! x) eqn:Hx; [|done].
      rewrite lookup_insert_ne; [done|]. intros ->. congruence.
    + destruct (decide (s = x)) as [->|Hne].
      * rewrite decide_True by (by left).
        destruct (source !! x); [apply lookup_insert_eq|done].
      * rewrite decide_False by (rewrite elem_of_cons; tauto).
        destruct (source !! x); [by rewrite lookup_insert_ne|done].
Qed.

Lemma mapEachSymbol_lookup g ss source s :
  mapEachSymbol g ss source !! s
  = if decide (s ∈ ss) then g <$> source !! s else None.
Proof.
  unfold mapEachSymbol. rewrite mapEachSymbol_fold.
  destruct (decide (s ∈ ss)); [|done]. by destruct (source !! s).
Qed.

(** The two cubes after [buildFeatureCube], key by key. *)
Lemma buildFeatureCube_cubes timeValue l s :
  let l' := buildFeatureCube timeValue l in
  (s ∈ symbols l' ->
   exists f0, length (series_Open f0) = length (dates l')
     /\ length (series_Close f0) = length (dates l')
     /\ fold_left (scatterRow (dateIndexOf (dates l'))) (rows l)
          (blankCube (symbols l') (length (dates l'))) !! s = Some f0
     /\ featureCube l' !! s = Some (deriveFeatures f0)
     /\ normalisedCube l' !! s = Some (normaliseFeatures (deriveFeatures f0)))
  /\ (s ∉ symbols l' -> featureCube l' !! s = None /\ normalisedCube l' !! s = None).
Proof.
  cbn zeta.
  destruct (buildFeatureCube_symbols timeValue l) as (Hnd & _ & _).
  cbn zeta in Hnd. unfold buildFeatureCube in *.
  cbn [dates symbols featureCube normalisedCube] in *.
  set (dates' := sortDates timeValue (dateSetOf (rows l))) in *.
  set (symbols' := sortSymbols (symbolSetOf (rows l))) in *.
  set (blank := blankCube symbols' (length dates')).
  set (scattered := fold_left (scatterRow (dateIndexOf dates')) (rows l) blank).
  assert (Hblank : forall s f, blank !! s = Some f ->
            length (series_Open f) = length dates'
            /\ length (series_Close f) = length dates').
  { intros s' f. unfold blank. rewrite blankCube_lookup.
    destruct (decide _); [|done]. intros [= <-]. cbn. by rewrite length_replicate. }
  destruct (scatter_shape (dateIndexOf dates') (rows l) blank (length dates') Hblank)
    as [Hdom Hsh]. fold scattered in Hdom, Hsh.
  split.
  - intros Hs.
    assert (is_Some (scattered !! s)) as [f0 Hf0].
    { apply Hdom. unfold blank. rewrite blankCube_lookup.
      by rewrite decide_True. }
    destruct (Hsh s f0 Hf0) as [Ho Hc].
    exists f0. split; [done|]. split; [done|]. split; [done|].
    rewrite mapEachSymbol_lookup, decide_True by done.
    rewrite updateEachSymbol_lookup by done. by rewrite Hf0.
  - intros Hs.
    rewrite mapEachSymbol_lookup, decide_False by done.
    rewrite updateEachSymbol_other by done. split; [|done].
    destruct (scattered !! s) as [f1|] eqn:Hsc; [|done].
    assert (is_Some (blank !! s)) as [f2 Hf2] by (apply Hdom; eauto).
    unfold blank in Hf2. rewrite blankCube_lookup in Hf2.
    by rewrite decide_False in Hf2.
Qed.

(** A symbol of the loader has its entry in both cubes; nothing else is
    a key of either. *)
Lemma buildFeatureCube_keys timeValue l s :
  let l' := buildFeatureCube timeValue l in
  (s ∈ symbols l' /\ exists f0,
     length (series_Open f0) = length (dates l')
     /\ length (series_Close f0) = length (dates l')
     /\ featureCube l' !! s = Some (deriveFeatures f0)
     /\ normalisedCube l' !! s = Some (normaliseFeatures (deriveFeatures f0)))
  \/ ((s ∉ symbols l') /\ featureCube l' !! s = None
      /\ normalisedCube l' !! s = None).
Proof.
  cbn zeta. set (l' := buildFeatureCube timeValue l).
  destruct (buildFeatureCube_cubes timeValue l s) as [Hin Hout].
  destruct (decide (s ∈ symbols l')) as [Hs|Hs].
  - left. split; [done|]. destruct (Hin Hs) as (f0 & ? & ? & _ & ? & ?). eauto 10.
  - right. split; [done|]. by apply Hout.
Qed.

(** X7.  After [buildFeatureCube] the feature cube and the normalised cube
    have exactly the symbols of the loader as keys, the normalised entry of
    a symbol is the scaling of its feature entry, and each of the five
    series of every entry has one position per date. *)
Theorem buildFeatureCube_shape (timeValue : string -> Z) (l : DataLoader) :
  let l' := buildFeatureCube timeValue l in
  (forall s, is_Some (featureCube l' !! s) <-> s ∈ symbols l')
  /\ (forall s, normalisedCube l' !! s = normaliseFeatures <$> featureCube l' !! s)
  /\ (forall s f key, featureCube l' !! s = Some f ->
        length (feature f key) = length (dates l'))
  /\ (forall s f key, normalisedCube l' !! s = Some f ->
        length (feature f key) = length (dates l')).
Proof.
  cbn zeta. pose proof (buildFeatureCube_keys timeValue l) as Hkey. cbn zeta in Hkey.
  set (l' := buildFeatureCube timeValue l) in *.
  split; [|split; [|split]].
  - intros s. destruct (Hkey s) as [(Hs & f0 & _ & _ & -> & _)|(Hs & -> & _)].
    + split; eauto.
    + split; [by intros [? ?]|done].
  - intros s. destruct (Hkey s) as [(Hs & f0 & _ & _ & -> & ->)|(Hs & -> & ->)]; done.
  - intros s f key Hf.
    destruct (Hkey s) as [(Hs & f0 & Ho & Hc & Hf' & _)|(Hs & Hf' & _)]; [|congruence].
    rewrite Hf' in Hf. injection Hf as <-. by apply deriveFeatures_length.
  - intros s f key Hf.
    destruct (Hkey s) as [(Hs & f0 & Ho & Hc & _ & Hf')|(Hs & _ & Hf')]; [|congruence].
    rewrite Hf' in Hf. injection Hf as <-.
    rewrite normaliseFeatures_length. by apply deriveFeatures_length.
Qed.

(** ** What the window loop can give *)

Lemma traverse_raise {A B} (body : A -> window B) (xs : list A) e :
  traverse body xs = Raise e -> exists x, x ∈ xs /\ body x = Raise e.
Proof.
  induction xs as [|x xs IH]; cbn [traverse]; [done|].
  destruct (body x) as [y| |e'] eqn:Hx; cbn [wbind]; [|done|].
  - destruct (traverse body xs) as [ys| |e'] eqn:Hxs; cbn [wbind]; try done.
    intros [= ->]. destruct (IH eq_refl) as (x' & Hin & Hr).
    exists x'. split; [by right|done].
  - intros [= ->]. exists x. split; [by left|done].
Qed.

Lemma readFinite_inv v x : readFinite v = Valid x -> v = Some x /\ isFiniteNum x = true.
Proof.
  destruct v as [y|]; [|done]. cbn. destruct (isFiniteNum y) eqn:Hy; [|done].
  by intros [= <-].
Qed.

Lemma readFinite_no_raise v e : readFinite v <> Raise e.
Proof. destruct v as [y|]; [|done]. cbn. by destruct (isFiniteNum y). Qed.

(** With every symbol a key of the two cubes, the body of the anchor loop
    raises nothing. *)
Lemma sampleAt_no_raise l anchor e :
  (forall s, s ∈ symbols l ->
     is_Some (featureCube l !! s) /\ is_Some (normalisedCube l !! s)) ->
  sampleAt l anchor <> Raise e.
Proof.
  intros Hkeys H. unfold sampleAt in H.
  destruct (sequenceAt l anchor) as [sq| |e'] eqn:Hsq; cbn [wbind] in H; [|done|].
  - destruct (targetAt l anchor) as [tv| |e'] eqn:Htv; cbn [wbind] in H; try done.
    injection H as ->. unfold targetAt in Htv.
    destruct (traverse _ (symbols l)) as [parts| |e'] eqn:Hp; cbn [wbind] in Htv;
      try done.
    injection Htv as ->. apply traverse_raise in Hp as (s & Hs & Hp).
    destruct (Hkeys s Hs) as [[f Hf] _]. rewrite Hf in Hp.
    destruct (readFinite _) as [b| |e'] eqn:Hb; cbn [wbind] in Hp; try done.
    + apply traverse_raise in Hp as (h & _ & Hp).
      destruct (readFinite (get _ (anchor + h))) as [c| |e'] eqn:Hc;
        cbn [wbind] in Hp; try done.
      by apply readFinite_no_raise in Hc.
    + by apply readFinite_no_raise in Hb.
  - injection H as ->. unfold sequenceAt in Hsq.
    apply traverse_raise in Hsq as (offset & _ & Hsq). unfold timestepAt in Hsq.
    destruct (traverse _ (symbols l)) as [parts| |e'] eqn:Hp; cbn [wbind] in Hsq;
      try done.
    injection Hsq as ->. apply traverse_raise in Hp as (s & Hs & Hp).
    apply traverse_raise in Hp as (key & _ & Hp).
    destruct (Hkeys s Hs) as [_ [f Hf]]. rewrite Hf in Hp.
    by apply readFinite_no_raise in Hp.
Qed.

Lemma collect_no_raise {A B} (body : A -> window B) (xs : list A) :
  (forall x e, x ∈ xs -> body x <> Raise e) -> exists ys, collect body xs = Ok ys.
Proof.
  induction xs as [|x xs IH]; intros H; cbn [collect]; [by eexists|].
  destruct IH as [ys Hys]; [intros y e Hy; apply H; by right|].
  destruct (body x) as [y| |e] eqn:Hx.
  - rewrite Hys. by eexists.
  - by eexists.
  - exfalso. by apply (H x e); [left|].
Qed.

(** What a returned dataset is made of. *)
Lemma createWindowedDataset_parts l d :
  createWindowedDataset l = Ok d ->
  exists samples k,
    windowsOf l = Ok samples
    /\ 1 <= k <= Z.of_nat (length samples) - 1
    /\ splitIndex d = Int k
    /\ X_train d = take (Z.to_nat k) (map sequence samples)
    /\ X_test d = drop (Z.to_nat k) (map sequence samples)
    /\ y_train d = take (Z.to_nat k) (map targetVector samples)
    /\ y_test d = drop (Z.to_nat k) (map targetVector samples)
    /\ sampleDates d = map sampleDate samples.
Proof.
  unfold createWindowedDataset.
  destruct (windowsOf l) as [samples|e]; [|done]. cbn [obind].
  destruct (Z.eqb_spec (Z.of_nat (length samples)) 0) as [|_]; [done|].
  destruct (Z.ltb_spec (Z.of_nat (length samples)) 2) as [|Hn]; [done|].
  rewrite (splitIndexOf_clamp _ _ Hn).
  destruct (clampIntegral _ _ _) as [k| |] eqn:Hk; [|done|done].
  assert (Hrange : 1 <= k <= Z.of_nat (length samples) - 1).
  { unfold clampIntegral in Hk.
    destruct (Math_floor _) as [z|[]|]; try done; injection Hk as <-;
      unfold clamp; repeat case_match; lia. }
  rewrite !tf_slice_prefix by (rewrite length_map; lia).
  cbn [obind].
  replace (Z.of_nat (length samples))
    with (Z.of_nat (length (map sequence samples))) at 1 by (by rewrite length_map).
  rewrite tf_slice_suffix by (rewrite length_map; lia). cbn [obind].
  replace (Z.of_nat (length samples))
    with (Z.of_nat (length (map targetVector samples))) at 1 by (by rewrite length_map).
  rewrite tf_slice_suffix by (rewrite length_map; lia). cbn [obind].
  intros [= <-]. exists samples, k. cbn. repeat split; try done; lia.
Qed.

(** X8.  A returned dataset has a training part and a test part that are
    both not empty and together hold every sample; inputs and labels are
    cut at the same place, which is [splitIndex]. *)
Theorem createWindowedDataset_split_sizes (l : DataLoader) (d : Dataset) :
  createWindowedDataset l = Ok d ->
  (1 <= length (X_train d))%nat
  /\ (1 <= length (X_test d))%nat
  /\ (length (X_train d) + length (X_test d) = length (sampleDates d))%nat
  /\ length (y_train d) = length (X_train d)
  /\ length (y_test d) = length (X_test d)
  /\ splitIndex d = Int (Z.of_nat (length (X_train d)))
  /\ (2 <= length (sampleDates d))%nat.
Proof.
  intros (samples & k & _ & Hk & Hsplit & -> & -> & -> & -> & ->)%createWindowedDataset_parts.
  rewrite !length_take, !length_drop, !length_map.
  rewrite Hsplit. repeat split; try lia. f_equal. lia.
Qed.

Lemma createWindowedDataset_split_sizes_witness :
  exists d, createWindowedDataset (buildFeatureCube isoTimeValue loader5) = Ok d
    /\ (1 <= length (X_train d))%nat /\ (1 <= length (X_test d))%nat
    /\ splitIndex d = Int (Z.of_nat (length (X_train d))).
Proof.
  destruct (createWindowedDataset (buildFeatureCube isoTimeValue loader5))
    as [d|e] eqn:Hd; [|by vm_compute in Hd].
  exists d. split; [reflexivity|].
  destruct (createWindowedDataset_split_sizes _ d Hd) as (H1 & H2 & _ & _ & _ & H3 & _).
  exact (conj H1 (conj H2 H3)).
Defined.

(** X9.  [createWindowedDataset] on a loader that has an entry in both
    cubes for each of its symbols (the state that [buildFeatureCube]
    leaves), with a sequence length of at least 1, a horizon that is not
    negative, a train fraction that is a number and fewer than 2^53
    dates: it returns a dataset or throws one of its two errors.  No read
    inside its loops fails and the split index is always inside the
    samples, whatever the series hold. *)
Theorem createWindowedDataset_errors (l : DataLoader) :
  1 <= sequenceLength l -> 0 <= predictionHorizon l ->
  isNaN (trainSplit l) = false ->
  Z.of_nat (length (dates l)) < 2 ^ 53 ->
  (forall s, s ∈ symbols l ->
     is_Some (featureCube l !! s) /\ is_Some (normalisedCube l !! s)) ->
  (exists d, createWindowedDataset l = Ok d)
  \/ createWindowedDataset l
     = Throw (Error "Unable to construct any sequences. Please provide a longer time series.")
  \/ createWindowedDataset l
     = Throw (Error "Not enough samples to create a train/test split.").
Proof.
  intros HL HH Hp Hdates Hkeys.
  destruct (collect_no_raise (sampleAt l) (anchorsOf l)) as [samples Hs].
  { intros anchor e _. by apply sampleAt_no_raise. }
  pose proof (collect_length_le _ _ _ Hs) as Hle.
  pose proof (anchorsOf_length l) as Ha. unfold windowCount in Ha.
  destruct (decide (2 <= length samples)%nat) as [H2|H2].
  - left.
    destruct (createWindowedDataset_returns l samples Hs ltac:(lia) Hp)
      as (k & _ & _ & ->).
    by eexists.
  - right. unfold createWindowedDataset. fold (windowsOf l) in Hs. rewrite Hs.
    cbn [obind]. destruct samples as [|s [|s' samples]]; cbn in H2 |- *; [by left|by right|lia].
Qed.

Lemma createWindowedDataset_errors_witness :
  let l := buildFeatureCube isoTimeValue loader5 in
  (exists d, createWindowedDataset l = Ok d)
  \/ createWindowedDataset l
     = Throw (Error "Unable to construct any sequences. Please provide a longer time series.")
  \/ createWindowedDataset l
     = Throw (Error "Not enough samples to create a train/test split.").
Proof.
  intros l.
  apply (createWindowedDataset_errors l); [simpl; lia|simpl; lia|reflexivity|simpl; lia|].
  intros s Hs.
  assert (symbols l = ["A"%string]) as Hsym by (vm_compute; reflexivity).
  rewrite Hsym in Hs. apply list_elem_of_singleton in Hs as ->.
  split; vm_compute; by eexists.
Defined.

(** X10.  A timeline with fewer dates than the sequence length plus the
    horizon gives no window, and [createWindowedDataset] throws "Unable to
    construct any sequences", whatever the cubes hold; a complete timeline
    with exactly that many dates gives one window only, and the error is
    "Not enough samples to create a train/test split". *)
Theorem createWindowedDataset_short_timeline (l : DataLoader) :
  (windowCount l <= 0 ->
   createWindowedDataset l
   = Throw (Error "Unable to construct any sequences. Please provide a longer time series."))
  /\ (windowCount l = 1 -> noMissing l = true ->
      1 <= sequenceLength l -> 0 <= predictionHorizon l ->
      createWindowedDataset l
      = Throw (Error "Not enough samples to create a train/test split.")).
Proof.
  split.
  - intros Hc. unfold createWindowedDataset, windowsOf, anchorsOf.
    unfold windowCount in Hc.
    rewrite seqZ_nil by lia. done.
  - intros Hc Hno HL HH.
    destruct (collect_all_valid (sampleAt l) (anchorsOf l)) as (samples & Hs & Hlen).
    { intros a Ha. by apply sampleAt_valid. }
    pose proof (anchorsOf_length l) as Ha. rewrite Hc in Ha.
    unfold createWindowedDataset, windowsOf. rewrite Hs. cbn [obind].
    destruct samples as [|s [|s' samples]]; cbn in Hlen |- *; [lia|done|lia].
Qed.

(** ** The shape of the samples *)

Lemma traverse_length {A B} (body : A -> window B) (xs : list A) ys :
  traverse body xs = Valid ys -> length ys = length xs.
Proof. intros H%traverse_inv. symmetry. by eapply Forall2_length. Qed.

Lemma concat_length_uniform {A} (parts : list (list A)) n :
  Forall (fun p => length p = n) parts -> length (concat parts) = (length parts * n)%nat.
Proof.
  induction 1 as [|p parts Hp _ IH]; [done|]. cbn. rewrite length_app, IH, Hp. lia.
Qed.

Lemma timestepAt_shape l index t :
  timestepAt l index = Valid t ->
  length t = (length (symbols l) * length (featuresPerSymbol l))%nat
  /\ Forall (fun v => isFiniteNum v = true) t.
Proof.
  unfold timestepAt.
  destruct (traverse _ (symbols l)) as [parts| |e] eqn:Hp; cbn [wbind]; try done.
  intros [= <-]. pose proof (traverse_length _ _ _ Hp) as Hlen.
  apply traverse_inv in Hp.
  assert (Hparts : Forall (fun p => length p = length (featuresPerSymbol l)
                                    /\ Forall (fun v => isFiniteNum v = true) p) parts).
  { apply Forall_forall. intros p Hin.
    apply list_elem_of_lookup in Hin as [i Hi].
    destruct (Forall2_lookup_r _ _ _ _ _ Hp Hi) as (s & _ & Hs).
    split; [by apply traverse_length in Hs|].
    apply traverse_inv in Hs. apply Forall_forall. intros v Hv.
    apply list_elem_of_lookup in Hv as [j Hj].
    destruct (Forall2_lookup_r _ _ _ _ _ Hs Hj) as (key & _ & Hkey).
    destruct (normalisedCube l !! s); [|done].
    by apply readFinite_inv in Hkey as [_ ?]. }
  split.
  - rewrite (concat_length_uniform parts (length (featuresPerSymbol l))), Hlen; [done|].
    eapply Forall_impl; [exact Hparts|]. by intros p [? _].
  - apply Forall_concat. eapply Forall_impl; [exact Hparts|]. by intros p [_ ?].
Qed.

Lemma targetAt_shape l anchor t :
  targetAt l anchor = Valid t ->
  length t = (length (symbols l) * Z.to_nat (predictionHorizon l))%nat
  /\ Forall (fun v => v = one \/ v = zero) t.
Proof.
  unfold targetAt.
  destruct (traverse _ (symbols l)) as [parts| |e] eqn:Hp; cbn [wbind]; try done.
  intros [= <-]. pose proof (traverse_length _ _ _ Hp) as Hlen.
  apply traverse_inv in Hp.
  assert (Hparts : Forall (fun p => length p = Z.to_nat (predictionHorizon l)
                                    /\ Forall (fun v => v = one \/ v = zero) p) parts).
  { apply Forall_forall. intros p Hin.
    apply list_elem_of_lookup in Hin as [i Hi].
    destruct (Forall2_lookup_r _ _ _ _ _ Hp Hi) as (s & _ & Hs).
    destruct (featureCube l !! s) as [f|]; [|done].
    destruct (readFinite (get (series_Close f) anchor)) as [b| |e];
      cbn [wbind] in Hs; try done.
    split.
    - apply traverse_length in Hs. by rewrite Hs, length_seqZ.
    - apply traverse_inv in Hs. apply Forall_forall. intros v Hv.
      apply list_elem_of_lookup in Hv as [j Hj].
      destruct (Forall2_lookup_r _ _ _ _ _ Hs Hj) as (h & _ & Hh).
      destruct (readFinite _) as [c| |e]; cbn [wbind] in Hh; try done.
      injection Hh as <-. unfold labelOf. destruct (ltb b c); auto. }
  split.
  - rewrite (concat_length_uniform parts (Z.to_nat (predictionHorizon l))), Hlen; [done|].
    eapply Forall_impl; [exact Hparts|]. by intros p [? _].
  - apply Forall_concat. eapply Forall_impl; [exact Hparts|]. by intros p [_ ?].
Qed.

Lemma sampleAt_shape l anchor s :
  sampleAt l anchor = Valid s ->
  length (sequence s) = Z.to_nat (sequenceLength l)
  /\ Forall (fun t => length t = (length (symbols l) * length (featuresPerSymbol l))%nat
                      /\ Forall (fun v => isFiniteNum v = true) t) (sequence s)
  /\ length (targetVector s) = (length (symbols l) * Z.to_nat (predictionHorizon l))%nat
  /\ Forall (fun v => v = one \/ v = zero) (targetVector s).
Proof.
  unfold sampleAt.
  destruct (sequenceAt l anchor) as [sq| |e] eqn:Hsq; cbn [wbind]; try done.
  destruct (targetAt l anchor) as [tv| |e] eqn:Htv; cbn [wbind]; try done.
  intros [= <-]. cbn [sequence targetVector].
  destruct (targetAt_shape l anchor tv Htv) as [Ht1 Ht2].
  unfold sequenceAt in Hsq. split; [|split; [|done]].
  - apply traverse_length in Hsq. by rewrite Hsq, length_reverse, length_seqZ.
  - apply traverse_inv in Hsq. apply Forall_forall. intros t Ht.
    apply list_elem_of_lookup in Ht as [j Hj].
    destruct (Forall2_lookup_r _ _ _ _ _ Hsq Hj) as (offset & _ & Ho).
    by apply timestepAt_shape in Ho.
Qed.

(** X11.  Every input of a returned dataset, in the training part and in
    the test part, has [sequenceLength] time steps of one finite value per
    symbol and feature; every label vector has one entry per symbol and
    day of the horizon, and each entry is 1 or 0. *)
Theorem createWindowedDataset_shapes (l : DataLoader) (d : Dataset) :
  createWindowedDataset l = Ok d ->
  Forall (fun sq =>
            length sq = Z.to_nat (sequenceLength l)
            /\ Forall (fun t =>
                 length t = (length (symbols l) * length (featuresPerSymbol l))%nat
                 /\ Forall (fun v => isFiniteNum v = true) t) sq)
    (X_train d ++ X_test d)
  /\ Forall (fun tv =>
               length tv = (length (symbols l) * Z.to_nat (predictionHorizon l))%nat
               /\ Forall (fun v => v = one \/ v = zero) tv)
       (y_train d ++ y_test d).
Proof.
  intros (samples & k & Hs & _ & _ & -> & -> & -> & -> & _)%createWindowedDataset_parts.
  rewrite !take_drop.
  assert (Hall : Forall (fun s => exists anchor, sampleAt l anchor = Valid s) samples).
  { apply Forall_forall. intros s Hin.
    destruct (collect_elem _ _ _ s Hs Hin) as (anchor & _ & Ha). by exists anchor. }
  split; apply Forall_fmap; (eapply Forall_impl; [exact Hall|]);
    intros s [anchor Ha]; apply sampleAt_shape in Ha as (H1 & H2 & H3 & H4); done.
Qed.

Lemma createWindowedDataset_shapes_witness :
  exists d, createWindowedDataset (buildFeatureCube isoTimeValue loader5) = Ok d
    /\ Forall (fun sq => length sq = 2%nat) (X_train d ++ X_test d)
    /\ Forall (fun tv => length tv = 1%nat) (y_train d ++ y_test d).
Proof.
  destruct (createWindowedDataset (buildFeatureCube isoTimeValue loader5))
    as [d|e] eqn:Hd; [|by vm_compute in Hd].
  exists d. split; [reflexivity|].
  destruct (createWindowedDataset_shapes _ d Hd) as [HX Hy].
  split.
  - eapply Forall_impl; [exact HX|]. intros sq [H _]. exact H.
  - eapply Forall_impl; [exact Hy|]. intros tv [H _]. exact H.
Defined.

(** ** The dates of the samples *)

Lemma collect_dates l (n : nat) (a : Z) samples :
  0 <= a -> a + Z.of_nat n <= Z.of_nat (length (dates l)) ->
  collect (sampleAt l) (seqZ a (Z.of_nat n)) = Ok samples ->
  exists ds, map sampleDate samples = map Some ds
             /\ ds `sublist_of` drop (Z.to_nat a) (dates l).
Proof.
  revert a samples. induction n as [|n IH]; intros a samples Ha Hn.
  - cbn. intros [= <-]. exists []. split; [done|apply sublist_nil_l].
  - rewrite seqZ_cons by lia. cbn [collect].
    replace (Z.pred (Z.of_nat (S n))) with (Z.of_nat n) by lia.
    assert (Hdrop : exists d0, dates l !! Z.to_nat a = Some d0
              /\ drop (Z.to_nat a) (dates l) = d0 :: drop (Z.to_nat (Z.succ a)) (dates l)).
    { destruct (lookup_lt_is_Some_2 (dates l) (Z.to_nat a) ltac:(lia)) as [d0 Hd0].
      exists d0. split; [done|].
      replace (Z.to_nat (Z.succ a)) with (S (Z.to_nat a)) by lia.
      by apply drop_S. }
    destruct Hdrop as (d0 & Hd0 & Hdrop). rewrite Hdrop.
    destruct (sampleAt l a) as [s| |e] eqn:Hs; [| |done].
    + destruct (collect _ _) as [rest|e] eqn:Hrest; [|done]. cbn [obind].
      intros [= <-].
      destruct (IH (Z.succ a) rest ltac:(lia) ltac:(lia) Hrest) as (ds & Hds & Hsub).
      exists (d0 :: ds). split; [|by apply sublist_skip].
      cbn [map]. rewrite Hds. f_equal.
      rewrite (sampleAt_date l a s Hs). unfold get.
      destruct (Z.ltb_spec a 0); [lia|done].
    + intros Hrest.
      destruct (IH (Z.succ a) samples ltac:(lia) ltac:(lia) Hrest) as (ds & Hds & Hsub).
      exists ds. split; [done|by apply sublist_cons].
Qed.

(** X12.  The dates of the samples that [prepareDataset] returns are dates
    of the timeline, in the order of the timeline, and no two samples have
    the same date. *)
Theorem prepareDataset_sample_dates (timeValue : string -> Z) (l : DataLoader)
    (b : Bundle) :
  1 <= sequenceLength l -> 0 <= predictionHorizon l ->
  (prepareDataset timeValue l).2 = Ok b ->
  exists ds,
    sampleDates (dataset b) = map Some ds
    /\ ds `sublist_of` dates (prepareDataset timeValue l).1
    /\ NoDup ds
    /\ forall x, x ∈ ds -> exists r, r ∈ rows l /\ date r = x.
Proof.
  intros HL HH. unfold prepareDataset. cbn [fst snd].
  set (l' := buildFeatureCube timeValue l).
  destruct (createWindowedDataset l') as [d|e] eqn:Hd; [|done]. cbn [obind].
  intros [= <-]. cbn [dataset].
  apply createWindowedDataset_parts in Hd
    as (samples & k & Hs & _ & _ & _ & _ & _ & _ & ->).
  destruct (buildFeatureCube_dates timeValue l) as (Hnd & Hin & _).
  cbn zeta in Hnd, Hin. fold l' in Hnd, Hin.
  unfold windowsOf, anchorsOf in Hs.
  change (sequenceLength l') with (sequenceLength l) in Hs.
  change (predictionHorizon l') with (predictionHorizon l) in Hs.
  set (cnt := Z.of_nat (length (dates l')) - predictionHorizon l - (sequenceLength l - 1)) in Hs.
  assert (Hds : exists ds, map sampleDate samples = map Some ds
                           /\ ds `sublist_of` dates l').
  { destruct (Z_le_gt_dec cnt 0) as [Hc|Hc].
    - rewrite seqZ_nil in Hs by done. injection Hs as <-.
      exists []. split; [done|apply sublist_nil_l].
    - rewrite <- (Z2Nat.id cnt) in Hs by lia.
      destruct (collect_dates l' (Z.to_nat cnt) (sequenceLength l - 1) samples)
        as (ds & Hds & Hsub); [lia|lia|done|].
      exists ds. split; [done|]. etrans; [exact Hsub|apply sublist_drop]. }
  destruct Hds as (ds & Hds & Hsub). exists ds.
  split; [done|]. split; [done|]. split; [by eapply sublist_NoDup|].
  intros x Hx. apply Hin. by eapply sublist_subseteq.
Qed.

Lemma prepareDataset_sample_dates_witness :
  exists b ds, (prepareDataset isoTimeValue loader5).2 = Ok b
    /\ sampleDates (dataset b) = map Some ds /\ NoDup ds.
Proof.
  destruct ((prepareDataset isoTimeValue loader5).2) as [b|e] eqn:Hb;
    [|by vm_compute in Hb].
  destruct (prepareDataset_sample_dates isoTimeValue loader5 b)
    as (ds & H1 & _ & H2 & _); [simpl; lia|simpl; lia|exact Hb|].
  exists b, ds. split; [reflexivity|]. exact (conj H1 H2).
Defined.

(** ** From the rows to the cube *)

Lemma fillMissingValues_keeps_finite a i x :
  a !! i = Some x -> isFiniteNum x = true -> fillMissingValues a !! i = Some x.
Proof.
  intros Hi Hx. apply fillMissingValues_keeps; [|done]. by apply fillPass_keeps.
Qed.

Lemma index_fold_other (ps : list (nat * string)) (acc : gmap string nat) k :
  k ∉ ps.*2 ->
  fold_left (fun acc p => <[p.2 := p.1]> acc) ps acc !! k = acc !! k.
Proof.
  revert acc. induction ps as [|p ps IH]; intros acc Hk; cbn [fold_left]; [done|].
  cbn in Hk. apply not_elem_of_cons in Hk as [Hne Hk].
  rewrite IH by done. by rewrite lookup_insert_ne.
Qed.

Lemma index_fold_lookup (ps : list (nat * string)) (acc : gmap string nat) k v :
  NoDup ps.*2 -> (v, k) ∈ ps ->
  fold_left (fun acc p => <[p.2 := p.1]> acc) ps acc !! k = Some v.
Proof.
  revert acc. induction ps as [|p ps IH]; intros acc Hnd Hin; cbn [fold_left].
  - by apply elem_of_nil in Hin.
  - cbn in Hnd. apply NoDup_cons in Hnd as [Hp Hnd].
    apply elem_of_cons in Hin as [<-|Hin].
    + rewrite index_fold_other by done. cbn. apply lookup_insert_eq.
    + by apply IH.
Qed.

Lemma index_fold_inv (ps : list (nat * string)) (acc : gmap string nat) k v :
  fold_left (fun acc p => <[p.2 := p.1]> acc) ps acc !! k = Some v ->
  (v, k) ∈ ps \/ acc !! k = Some v.
Proof.
  revert acc. induction ps as [|[i d] ps IH]; intros acc; cbn [fold_left]; [by right|].
  intros [H|H]%IH; [left; by right|]. cbn in H.
  destruct (decide (d = k)) as [->|Hne].
  - rewrite lookup_insert_eq in H. injection H as ->. left. by left.
  - rewrite lookup_insert_ne in H by done. by right.
Qed.

Lemma imap_pair_elem (ds : list string) i d :
  (i, d) ∈ imap (fun idx d => (idx, d)) ds <-> ds !! i = Some d.
Proof.
  rewrite list_elem_of_lookup. split.
  - intros [j Hj]. rewrite list_lookup_imap in Hj.
    destruct (ds !! j) as [d'|] eqn:Hd; [|done]. cbn in Hj. by injection Hj as -> ->.
  - intros Hd. exists i. by rewrite list_lookup_imap, Hd.
Qed.

(** The index of the dates: a date of the timeline is sent to its
    position, and nothing else is a key. *)
Lemma dateIndexOf_lookup ds i d :
  NoDup ds -> ds !! i = Some d -> dateIndexOf ds !! d = Some i.
Proof.
  intros Hnd Hd. unfold dateIndexOf. apply index_fold_lookup.
  - by rewrite imap_pair_snd0.
  - by apply imap_pair_elem.
Qed.

Lemma dateIndexOf_inv ds i d : dateIndexOf ds !! d = Some i -> ds !! i = Some d.
Proof.
  unfold dateIndexOf. intros [H|H]%index_fold_inv; [by apply imap_pair_elem|done].
Qed.

(** A later row of another date or symbol leaves the position alone. *)
Lemma scatterRow_keeps ds cube r' s idx f vo vc :
  cube !! s = Some f ->
  series_Open f !! idx = Some vo -> series_Close f !! idx = Some vc ->
  ds !! idx <> Some (date r') \/ symbol r' <> s ->
  exists f', scatterRow (dateIndexOf ds) cube r' !! s = Some f'
    /\ series_Open f' !! idx = Some vo /\ series_Close f' !! idx = Some vc.
Proof.
  intros Hf Ho Hc Hother. unfold scatterRow.
  destruct (cube !! symbol r') as [target|] eqn:Ht; [|by exists f].
  destruct (dateIndexOf ds !! date r') as [idx'|] eqn:Hi; [|by exists f].
  destruct (decide (symbol r' = s)) as [<-|Hne].
  - rewrite lookup_insert_eq. eexists. split; [done|]. cbn.
    assert (idx' <> idx).
    { intros ->. apply dateIndexOf_inv in Hi. destruct Hother; done. }
    replace target with f by congruence.
    by rewrite !list_lookup_insert_ne.
  - rewrite lookup_insert_ne by done. by exists f.
Qed.

Lemma scatter_keeps ds post cube s idx d f vo vc :
  ds !! idx = Some d ->
  cube !! s = Some f ->
  series_Open f !! idx = Some vo -> series_Close f !! idx = Some vc ->
  (forall r', r' ∈ post -> ~ (date r' = d /\ symbol r' = s)) ->
  exists f', fold_left (scatterRow (dateIndexOf ds)) post cube !! s = Some f'
    /\ series_Open f' !! idx = Some vo /\ series_Close f' !! idx = Some vc.
Proof.
  intros Hd. revert cube f. induction post as [|r' post IH];
    intros cube f Hf Ho Hc Hlast; cbn [fold_left]; [by exists f|].
  destruct (scatterRow_keeps ds cube r' s idx f vo vc Hf Ho Hc) as (f' & Hf' & Ho' & Hc').
  { destruct (decide (symbol r' = s)) as [Hs|Hs]; [|by right].
    left. intros Heq. apply (Hlast r'); [by left|].
    split; [congruence|done]. }
  apply (IH _ f' Hf' Ho' Hc'). intros r'' Hin. apply Hlast. by right.
Qed.

(** Where the loop over the rows leaves a row that no later row of the
    same date and symbol overwrites: [f0] is the entry of its symbol
    before the gaps are filled. *)
Lemma buildFeatureCube_scattered (timeValue : string -> Z) (l : DataLoader)
    (pre post : list Row) (r : Row) :
  rows l = pre ++ r :: post ->
  (forall r', r' ∈ post -> ~ (date r' = date r /\ symbol r' = symbol r)) ->
  let l' := buildFeatureCube timeValue l in
  exists idx f0,
    dates l' !! idx = Some (date r)
    /\ featureCube l' !! symbol r = Some (deriveFeatures f0)
    /\ series_Open f0 !! idx = Some (finiteOrNaN (open r))
    /\ series_Close f0 !! idx = Some (finiteOrNaN (close r)).
Proof.
  intros Hrows Hlast l'.
  destruct (buildFeatureCube_dates timeValue l) as (Hnd & Hdin & _).
  destruct (buildFeatureCube_symbols timeValue l) as (_ & Hsin & _).
  cbn zeta in Hnd, Hdin, Hsin. fold l' in Hnd, Hdin, Hsin.
  assert (Hr : r ∈ rows l).
  { rewrite Hrows. apply elem_of_app. right. by left. }
  assert (Hdate : date r ∈ dates l') by (apply Hdin; eauto).
  assert (Hsym : symbol r ∈ symbols l') by (apply Hsin; eauto).
  apply list_elem_of_lookup in Hdate as [idx Hidx].
  destruct (buildFeatureCube_cubes timeValue l (symbol r)) as [Hcube _].
  destruct (Hcube Hsym) as (f0 & Hlo & Hlc & Hf0 & Hfeat & _). fold l' in Hlo, Hlc, Hf0, Hfeat.
  exists idx, f0. split; [done|]. split; [done|].
  (* the cube when the row is scattered *)
  rewrite Hrows, fold_left_app in Hf0. cbn [fold_left] in Hf0.
  set (blank := blankCube (symbols l') (length (dates l'))) in *.
  set (cube1 := fold_left (scatterRow (dateIndexOf (dates l'))) pre blank) in *.
  destruct (scatter_shape (dateIndexOf (dates l')) pre blank (length (dates l')))
    as [Hdom Hsh].
  { intros s f. unfold blank. rewrite blankCube_lookup.
    destruct (decide _); [|done]. intros [= <-]. cbn. by rewrite length_replicate. }
  fold cube1 in Hdom, Hsh.
  assert (is_Some (cube1 !! symbol r)) as [target Ht].
  { apply Hdom. unfold blank. rewrite blankCube_lookup. by rewrite decide_True. }
  destruct (Hsh _ _ Ht) as [Hto Htc].
  assert (Hlt : (idx < length (dates l'))%nat) by (by eapply lookup_lt_Some).
  pose proof (dateIndexOf_lookup _ _ _ Hnd Hidx) as Hindex.
  assert (Hstep : exists f1,
            scatterRow (dateIndexOf (dates l')) cube1 r !! symbol r = Some f1
            /\ series_Open f1 !! idx = Some (finiteOrNaN (open r))
            /\ series_Close f1 !! idx = Some (finiteOrNaN (close r))).
  { unfold scatterRow. rewrite Ht, Hindex, lookup_insert_eq.
    eexists. split; [done|]. cbn. by rewrite !list_lookup_insert_eq by lia. }
  destruct Hstep as (f1 & Hf1 & Ho1 & Hc1).
  destruct (scatter_keeps (dates l') post _ (symbol r) idx (date r) f1 _ _
              Hidx Hf1 Ho1 Hc1 Hlast) as (f2 & Hf2 & Ho2 & Hc2).
  rewrite Hf0 in Hf2. injection Hf2 as <-. done.
Qed.


(** X13.  The last row of a date and symbol is what the feature cube holds
    for them: its open and its close, when they are finite numbers, stand
    in the Open and Close series of the symbol at the position of the
    date, and filling the gaps does not touch them. *)
Theorem buildFeatureCube_holds_rows (timeValue : string -> Z) (l : DataLoader)
    (pre post : list Row) (r : Row) :
  rows l = pre ++ r :: post ->
  (forall r', r' ∈ post -> ~ (date r' = date r /\ symbol r' = symbol r)) ->
  let l' := buildFeatureCube timeValue l in
  exists idx f,
    dates l' !! idx = Some (date r)
    /\ featureCube l' !! symbol r = Some f
    /\ (isFiniteNum (open r) = true -> series_Open f !! idx = Some (open r))
    /\ (isFiniteNum (close r) = true -> series_Close f !! idx = Some (close r)).
Proof.
  intros Hrows Hlast l'.
  destruct (buildFeatureCube_scattered timeValue l pre post r Hrows Hlast)
    as (idx & f0 & Hidx & Hf & Ho & Hc). fold l' in Hidx, Hf.
  exists idx, (deriveFeatures f0). split; [done|]. split; [done|].
  split; intros Hfin; cbn [deriveFeatures series_Open series_Close];
    apply fillMissingValues_keeps_finite; try done.
  - rewrite Ho. unfold finiteOrNaN. by rewrite Hfin.
  - rewrite Hc. unfold finiteOrNaN. by rewrite Hfin.
Qed.

Lemma buildFeatureCube_holds_rows_witness :
  exists idx f,
    dates (buildFeatureCube isoTimeValue loader5) !! idx = Some "2024-01-02"
    /\ featureCube (buildFeatureCube isoTimeValue loader5) !! "A" = Some f
    /\ series_Close f !! idx = Some (ofZ 11).
Proof.
  destruct (buildFeatureCube_holds_rows isoTimeValue loader5
              [mkRow "2024-01-03" "A" 10 12; mkRow "2024-01-01" "A" 9 10]
              [mkRow "2024-01-04" "A" 12 11; mkRow "2024-01-05" "A" 11 13]
              (mkRow "2024-01-02" "A" 10 11))
    as (idx & f & H1 & H2 & _ & H3); [reflexivity| |].
  - intros r' Hin [Hd _].
    repeat (apply elem_of_cons in Hin as [->|Hin]; [discriminate Hd|]).
    by apply elem_of_nil in Hin.
  - exists idx, f. split; [exact H1|]. split; [exact H2|]. exact (H3 eq_refl).
Defined.

(** ** The accuracies of the report *)

Lemma ofZ_roundsTo p : roundsTo (Z.pos p * 2 ^ 1074) (ofZ (Z.pos p)).
Proof. apply (binary_round_scaled p 0). lia. Qed.

(** The quotient of two counts, the smaller above, is in [0, 1]. *)
Lemma accuracyOf_inUnit (c t : nat) :
  (c <= t)%nat -> Z.of_nat t < 2 ^ 53 -> inUnit (accuracyOf c t) = true.
Proof.
  intros Hct Ht. unfold accuracyOf.
  destruct (Nat.eqb_spec t 0) as [->|Hne]; [done|].
  destruct (Z.of_nat t) as [|pt|pt] eqn:Hpt; try lia.
  pose proof (ofZ_roundsTo pt) as Hrt.
  assert (Hsmall : forall p, Z.pos p <= Z.pos pt -> RN (Z.pos p * 2 ^ 1074) < 2 ^ 2098).
  { intros p Hp. apply Z.le_lt_trans with (2 ^ 1127); [|by apply Z.pow_lt_mono_r].
    apply RN_pow2_le; [lia| |lia].
    change (2 ^ 1127) with (2 ^ 53 * 2 ^ 1074).
    apply Z.mul_le_mono_nonneg_r; [by apply Z.pow_nonneg|lia]. }
  destruct (ofZ (Z.pos pt)) as [| [] | |[] Mt et] eqn:Ht'; try done.
  { cbn [roundsTo] in Hrt. specialize (Hsmall pt ltac:(lia)). lia. }
  cbn [roundsTo] in Hrt. destruct Hrt as [Htb Htv].
  destruct (Z.of_nat c) as [|pc|pc] eqn:Hpc; try lia.
  - done.
  - pose proof (ofZ_roundsTo pc) as Hrc.
    destruct (ofZ (Z.pos pc)) as [| [] | |[] Mc ec] eqn:Hc'; try done.
    { cbn [roundsTo] in Hrc. specialize (Hsmall pc ltac:(lia)). lia. }
    cbn [roundsTo] in Hrc. destruct Hrc as [Hcb Hcv].
    pose proof (bounded_inv _ _ Htb) as (Het & _).
    pose proof (bounded_inv _ _ Hcb) as (Hec & _).
    destruct (div_le_one Mc ec Mt et ltac:(lia) ltac:(lia)) as [Hlo Hhi].
    + rewrite Hcv, Htv. apply RN_mono; [lia|].
      apply Z.mul_le_mono_nonneg_r; [by apply Z.pow_nonneg|lia].
    + unfold inUnit. by rewrite Hlo, Hhi.
Qed.

(** ** One day, one stock, one row of the analysis *)

Lemma threshold_flag v : threshold v = 0%nat \/ threshold v = 1%nat.
Proof. destruct v as [x|]; cbn; [destruct (leb half x)|]; auto. Qed.

Lemma eqb_zero_not_one a : eqb a zero = true -> eqb a one = false.
Proof. by destruct a as [[]|[]| |[] m e]. Qed.

(** What one day adds to the confusion counts of its symbol: one cell,
    which is [tp] or [tn] when the call is right; on a label that is 1 or
    0 it is [fp] or [fn] when the call is wrong. *)
Lemma bump_effect v actual c :
  let pred := threshold v in
  let hit := strictEq actual (numOfFlag pred) in
  cells (bump pred actual c) = S (cells c)
  /\ (hit = true -> (tp (bump pred actual c) + tn (bump pred actual c)
                     = S (tp c + tn c))%nat)
  /\ (tp c + tn c <= tp (bump pred actual c) + tn (bump pred actual c))%nat
  /\ (actual = Some one \/ actual = Some zero -> hit = false ->
      (tp (bump pred actual c) + tn (bump pred actual c) = tp c + tn c)%nat).
Proof.
  cbn zeta. unfold bump, cells, numOfFlag.
  assert (Hex : strictEq actual zero = true -> strictEq actual one = false).
  { destruct actual; [apply eqb_zero_not_one|done]. }
  assert (H1one : actual = Some one -> strictEq actual one = true) by (by intros ->).
  assert (H0zero : actual = Some zero -> strictEq actual zero = true) by (by intros ->).
  destruct (threshold_flag v) as [-> | ->]; cbn [Nat.eqb andb];
    destruct (strictEq actual one) eqn:H1; destruct (strictEq actual zero) eqn:H0;
    cbn [tp fp fn tn];
    try (specialize (Hex eq_refl); discriminate);
    (split; [lia|]); (split; [intros; try discriminate; lia|]); (split; [lia|]);
    intros [Ha|Ha] Hh; try discriminate;
    try (specialize (H1one Ha); discriminate);
    try (specialize (H0zero Ha); discriminate); lia.
Qed.

(** The day loop of one symbol in one row, with the ground truth row at
    hand: it returns, and this is what it changed. *)
Lemma day_loop symbol row truth offset days st :
  exists st' k g,
    foldM (dayStep symbol row (Some truth) offset) days st = Ok st'
    /\ (k <= length days)%nat
    /\ loop_correctCount st' = (loop_correctCount st + k)%nat
    /\ length (loop_perDayFlags st') = (length (loop_perDayFlags st) + length days)%nat
    /\ perStockTimeline (tally st') = perStockTimeline (tally st)
    /\ perStockTotals (tally st') = perStockTotals (tally st)
    /\ perStockConfusion (tally st') = alter g symbol (perStockConfusion (tally st))
    /\ globalCorrect (tally st') = (globalCorrect (tally st) + k)%nat
    /\ globalTotal (tally st') = (globalTotal (tally st) + length days)%nat
    /\ (forall c, cells (g c) = (cells c + length days)%nat
                  /\ (tp c + tn c + k <= tp (g c) + tn (g c))%nat)
    /\ ((forall day, day ∈ days ->
           truth !! (offset + day)%nat = Some one \/ truth !! (offset + day)%nat = Some zero) ->
        forall c, (tp (g c) + tn (g c) = tp c + tn c + k)%nat).
Proof.
  revert st. induction days as [|day days IH]; intros st.
  - exists st, 0%nat, id. cbn. rewrite alter_id by done.
    repeat split; try lia; done.
  - cbn [foldM dayStep obind].
    set (pred := threshold (row !! (offset + day)%nat)).
    set (actual := truth !! (offset + day)%nat).
    set (hit := strictEq actual (numOfFlag pred)).
    match goal with |- context [foldM _ days ?s] => set (st1 := s) end.
    destruct (IH st1) as (st' & k & g & Hok & Hk & Hcc & Hfl & Htl & Htot & Hconf
                          & Hgc & Hgt & Hg & Hbin).
    exists st', (if hit then S k else k), (g ∘ bump pred actual).
    split; [exact Hok|].
    split; [destruct hit; cbn; lia|].
    split; [rewrite Hcc; unfold st1; cbn; destruct hit; lia|].
    split; [rewrite Hfl; unfold st1; cbn; rewrite length_app; cbn; lia|].
    split; [by rewrite Htl|]. split; [by rewrite Htot|].
    split; [rewrite Hconf; unfold st1; cbn; by rewrite alter_alter_eq|].
    split; [rewrite Hgc; unfold st1; cbn; destruct hit; lia|].
    split; [rewrite Hgt; unfold st1; cbn; lia|].
    split.
    + intros c. cbn [compose].
      destruct (Hg (bump pred actual c)) as [H1 H2].
      destruct (bump_effect (row !! (offset + day)%nat) actual c) as (B1 & B2 & B3 & _).
      fold pred hit in B1, B2, B3.
      split; [rewrite H1, B1; cbn; lia|].
      destruct hit; [specialize (B2 eq_refl)|]; lia.
    + intros Hall c. cbn [compose].
      rewrite (Hbin ltac:(intros d Hd; apply Hall; by right)).
      destruct (bump_effect (row !! (offset + day)%nat) actual c) as (_ & B2 & _ & B4).
      fold pred hit in B2, B4.
      destruct hit eqn:Hhit; [specialize (B2 eq_refl); lia|].
      rewrite B4; [lia| |done]. apply Hall. by left.
Qed.

(** The same for the body of the loop over the symbols. *)
Lemma stock_step row truth H t stockIdx symbol :
  exists t' k g e,
    stockStep row (Some truth) H t (stockIdx, symbol) = Ok t'
    /\ (k <= H)%nat
    /\ correctCount e = k /\ entry_total e = H /\ length (perDayFlags e) = H
    /\ perStockTimeline t' = alter (fun entries => entries ++ [e]) symbol (perStockTimeline t)
    /\ perStockTotals t'
       = alter (fun c => {| correct := (correct c + k)%nat; total := (total c + H)%nat |})
           symbol (perStockTotals t)
    /\ perStockConfusion t' = alter g symbol (perStockConfusion t)
    /\ globalCorrect t' = (globalCorrect t + k)%nat
    /\ globalTotal t' = (globalTotal t + H)%nat
    /\ (forall c, cells (g c) = (cells c + H)%nat
                  /\ (tp c + tn c + k <= tp (g c) + tn (g c))%nat)
    /\ ((forall day, (day < H)%nat ->
           truth !! (stockIdx * H + day)%nat = Some one
           \/ truth !! (stockIdx * H + day)%nat = Some zero) ->
        forall c, (tp (g c) + tn (g c) = tp c + tn c + k)%nat).
Proof.
  unfold stockStep.
  destruct (day_loop symbol row truth (stockIdx * H) (seq 0 H)
              {| tally := t; loop_correctCount := 0; loop_perDayFlags := [] |})
    as (st' & k & g & Hok & Hk & Hcc & Hfl & Htl & Htot & Hconf & Hgc & Hgt & Hg & Hbin).
  rewrite length_seq in *. cbn in Hcc, Hfl, Htl, Htot, Hconf, Hgc, Hgt.
  rewrite Hok. cbn [obind].
  eexists _, k, g, {| correctCount := loop_correctCount st'; entry_total := H;
                      perDayFlags := loop_perDayFlags st' |}.
  split; [reflexivity|].
  cbn [correctCount entry_total perDayFlags perStockTimeline perStockTotals
       perStockConfusion globalCorrect globalTotal].
  split; [lia|]. split; [lia|]. split; [done|]. split; [lia|].
  split; [by rewrite Htl|]. split; [by rewrite Htot, Hcc|].
  split; [done|]. split; [done|]. split; [done|]. split; [exact Hg|].
  intros Hall. apply Hbin. intros day Hday%elem_of_seq. apply Hall. lia.
Qed.

(** ** The tally through the loops *)

Import GruFacts.

Lemma day_loop_throws symbol row offset days st :
  days <> [] -> foldM (dayStep symbol row None offset) days st = Throw TypeError.
Proof. by destruct days. Qed.

(** One stock of one row: if the step returns, the tally stays coherent. *)
Lemma stock_inv row truthRow H t stockIdx symbol t' :
  stockStep row truthRow H t (stockIdx, symbol) = Ok t' ->
  coherent t ->
  coherent t'
  /\ globalTotal t' = (globalTotal t + H)%nat
  /\ (forall s, is_Some (perStockTotals t' !! s) <-> is_Some (perStockTotals t !! s))
  /\ ((forall truth day, truthRow = Some truth -> (day < H)%nat ->
         truth !! (stockIdx * H + day)%nat = Some one
         \/ truth !! (stockIdx * H + day)%nat = Some zero) ->
      exactHits t -> exactHits t').
Proof.
  intros Hstep [Hglobal Hco].
  assert (Hsum : exists k g,
            (k <= H)%nat
            /\ perStockTotals t'
               = alter (fun c => {| correct := (correct c + k)%nat;
                                    total := (total c + H)%nat |})
                   symbol (perStockTotals t)
            /\ perStockConfusion t' = alter g symbol (perStockConfusion t)
            /\ globalCorrect t' = (globalCorrect t + k)%nat
            /\ globalTotal t' = (globalTotal t + H)%nat
            /\ (forall c, cells (g c) = (cells c + H)%nat
                          /\ (tp c + tn c + k <= tp (g c) + tn (g c))%nat)
            /\ ((forall truth day, truthRow = Some truth -> (day < H)%nat ->
                   truth !! (stockIdx * H + day)%nat = Some one
                   \/ truth !! (stockIdx * H + day)%nat = Some zero) ->
                forall c, (tp (g c) + tn (g c) = tp c + tn c + k)%nat)).
  { destruct truthRow as [truth|].
    - destruct (stock_step row truth H t stockIdx symbol)
        as (t1 & k & g & e & Hok & Hk & _ & _ & _ & _ & Htot & Hconf & Hgc & Hgt & Hg & Hbin).
      rewrite Hok in Hstep. injection Hstep as <-.
      exists k, g. repeat split; try done; try apply Hg.
      intros Hall. apply Hbin. intros day Hday. by apply (Hall truth).
    - destruct H as [|H].
      + cbn in Hstep. injection Hstep as <-. exists 0%nat, id. cbn.
        repeat split; try lia; try done.
        by rewrite alter_id.
      + unfold stockStep in Hstep. by rewrite day_loop_throws in Hstep. }
  destruct Hsum as (k & g & Hk & Htot & Hconf & Hgc & Hgt & Hg & Hbin).
  split; [|split; [done|split; [intros s; rewrite Htot; apply lookup_alter_is_Some|]]].
  - split; [lia|]. intros s. specialize (Hco s). rewrite Htot, Hconf, !lookup_alter.
    destruct (decide (symbol = s)) as [->|Hne].
    + destruct (perStockTotals t !! s) as [tot|], (perStockConfusion t !! s) as [c|];
        try done. cbn.
      destruct Hco as (H1 & H2 & H3). destruct (Hg c) as [G1 G2].
      repeat split; lia.
    + destruct (perStockTotals t !! s) as [tot|], (perStockConfusion t !! s) as [c|];
        try done. destruct Hco as (H1 & H2 & H3). repeat split; try done. lia.
  - intros Hall Hex s tot c. rewrite Htot, Hconf, !lookup_alter.
    destruct (decide (symbol = s)) as [->|Hne]; [|apply Hex].
    destruct (perStockTotals t !! s) as [tot0|] eqn:H1; [|done].
    destruct (perStockConfusion t !! s) as [c0|] eqn:H2; [|done].
    cbn. intros [= <-] [= <-]. cbn. rewrite (Hbin Hall c0).
    by rewrite (Hex s tot0 c0 H1 H2).
Qed.

Lemma foldM_app {A S} (body : S -> A -> outcome S) xs ys s :
  foldM body (xs ++ ys) s = obind (foldM body xs s) (foldM body ys).
Proof.
  revert s. induction xs as [|x xs IH]; intros s; [done|]. cbn [app foldM].
  destruct (body s x); cbn [obind]; [apply IH|done].
Qed.

(** The symbols of one row. *)
Lemma stocks_inv row truthRow H ps t t' :
  foldM (stockStep row truthRow H) ps t = Ok t' ->
  coherent t ->
  coherent t'
  /\ globalTotal t' = (globalTotal t + length ps * H)%nat
  /\ (forall s, is_Some (perStockTotals t' !! s) <-> is_Some (perStockTotals t !! s))
  /\ ((forall truth stockIdx symbol day,
         truthRow = Some truth -> (stockIdx, symbol) ∈ ps -> (day < H)%nat ->
         truth !! (stockIdx * H + day)%nat = Some one
         \/ truth !! (stockIdx * H + day)%nat = Some zero) ->
      exactHits t -> exactHits t').
Proof.
  revert t. induction ps as [|[stockIdx symbol] ps IH]; intros t; cbn [foldM].
  - intros [= <-] Hco. split; [done|]. split; [cbn; lia|done].
  - destruct (stockStep _ _ _ t _) as [t1|e] eqn:H1; [|done]. cbn [obind].
    intros Hrest Hco.
    destruct (stock_inv _ _ _ _ _ _ _ H1 Hco) as (Hco1 & Hgt1 & Hk1 & Hex1).
    destruct (IH t1 Hrest Hco1) as (Hco' & Hgt' & Hk' & Hex').
    split; [done|]. split; [cbn [length]; lia|].
    split; [intros s; by rewrite Hk', Hk1|].
    intros Hall Hex. apply Hex'.
    + intros truth i s day Ht Hin. apply (Hall truth i s day Ht). by right.
    + apply Hex1; [|done]. intros truth day Ht. apply (Hall truth stockIdx symbol day Ht).
      by left.
Qed.

Lemma imap_pair_in {A} (l : list A) i x :
  (i, x) ∈ imap (fun i x => (i, x)) l <-> l !! i = Some x.
Proof.
  rewrite list_elem_of_lookup. split.
  - intros [j Hj]. rewrite list_lookup_imap in Hj.
    destruct (l !! j) as [y|] eqn:Hy; [|done]. cbn in Hj. by injection Hj as -> ->.
  - intros Hi. exists i. by rewrite list_lookup_imap, Hi.
Qed.

(** The rows. *)
Lemma rows_inv groundTruthArray symbols H rs t t' :
  foldM (rowStep groundTruthArray symbols H) rs t = Ok t' ->
  coherent t ->
  coherent t'
  /\ globalTotal t' = (globalTotal t + length rs * (length symbols * H))%nat
  /\ (forall s, is_Some (perStockTotals t' !! s) <-> is_Some (perStockTotals t !! s))
  /\ (Forall (binaryLabels (length symbols) H) groundTruthArray ->
      exactHits t -> exactHits t').
Proof.
  revert t. induction rs as [|[rowIndex row] rs IH]; intros t; cbn [foldM].
  - intros [= <-] Hco. split; [done|]. split; [cbn; lia|done].
  - destruct (rowStep _ _ _ t _) as [t1|e] eqn:H1; [|done]. cbn [obind].
    intros Hrest Hco. unfold rowStep in H1.
    destruct (stocks_inv _ _ _ _ _ _ H1 Hco) as (Hco1 & Hgt1 & Hk1 & Hex1).
    rewrite length_imap in Hgt1.
    destruct (IH t1 Hrest Hco1) as (Hco' & Hgt' & Hk' & Hex').
    split; [done|]. split; [cbn [length]; lia|].
    split; [intros s; by rewrite Hk', Hk1|].
    intros Hall Hex. apply Hex'; [done|]. apply Hex1; [|done].
    intros truth stockIdx symbol day Ht Hin%imap_pair_in Hday.
    rewrite Forall_forall in Hall.
    apply (Hall truth); [by eapply list_elem_of_lookup_2|].
    apply lookup_lt_Some in Hin. nia.
Qed.

(** The tally before the first row. *)
Lemma initialTally_fold symbols t s :
  let t' := fold_left (fun t symbol =>
               {| perStockTimeline := <[symbol := []]> (perStockTimeline t);
                  perStockTotals := <[symbol := {| correct := 0; total := 0 |}]>
                                      (perStockTotals t);
                  perStockConfusion := <[symbol := {| tp := 0; fp := 0; fn := 0; tn := 0 |}]>
                                         (perStockConfusion t);
                  globalCorrect := globalCorrect t;
                  globalTotal := globalTotal t |}) symbols t in
  globalCorrect t' = globalCorrect t /\ globalTotal t' = globalTotal t
  /\ perStockTimeline t' !! s
     = (if decide (s ∈ symbols) then Some [] else perStockTimeline t !! s)
  /\ perStockTotals t' !! s
     = (if decide (s ∈ symbols) then Some {| correct := 0; total := 0 |}
        else perStockTotals t !! s)
  /\ perStockConfusion t' !! s
     = (if decide (s ∈ symbols) then Some {| tp := 0; fp := 0; fn := 0; tn := 0 |}
        else perStockConfusion t !! s).
Proof.
  revert t. induction symbols as [|x symbols IH]; intros t; cbn [fold_left].
  - cbn zeta. by rewrite !decide_False by apply not_elem_of_nil.
  - cbn zeta in *.
    match goal with |- context [fold_left _ symbols ?t1] =>
      destruct (IH t1) as (-> & -> & -> & -> & ->) end. cbn.
    split; [done|]. split; [done|].
    destruct (decide (s ∈ symbols)) as [Hin|Hout].
    + by rewrite !decide_True by (by right).
    + destruct (decide (s = x)) as [->|Hne].
      * rewrite !decide_True by (by left). by rewrite !lookup_insert_eq.
      * rewrite !decide_False by (rewrite elem_of_cons; tauto).
        by rewrite !lookup_insert_ne.
Qed.

Lemma initialTally_lookup symbols s :
  globalCorrect (initialTally symbols) = 0%nat
  /\ globalTotal (initialTally symbols) = 0%nat
  /\ perStockTimeline (initialTally symbols) !! s
     = (if decide (s ∈ symbols) then Some [] else None)
  /\ perStockTotals (initialTally symbols) !! s
     = (if decide (s ∈ symbols) then Some {| correct := 0; total := 0 |} else None)
  /\ perStockConfusion (initialTally symbols) !! s
     = (if decide (s ∈ symbols) then Some {| tp := 0; fp := 0; fn := 0; tn := 0 |}
        else None).
Proof.
  unfold initialTally.
  destruct (initialTally_fold symbols
              {| perStockTimeline := ∅; perStockTotals := ∅; perStockConfusion := ∅;
                 globalCorrect := 0; globalTotal := 0 |} s) as (H1 & H2 & H3 & H4 & H5).
  cbn zeta in *. rewrite H1, H2, H3, H4, H5. cbn. by destruct (decide _).
Qed.

Lemma initialTally_coherent symbols :
  coherent (initialTally symbols) /\ exactHits (initialTally symbols).
Proof.
  split; [split|].
  - destruct (initialTally_lookup symbols "") as (-> & -> & _). lia.
  - intros s. destruct (initialTally_lookup symbols s) as (_ & -> & _ & -> & ->).
    destruct (decide _); [|done]. cbn. repeat split; lia.
  - intros s tot c. destruct (initialTally_lookup symbols s) as (_ & _ & _ & -> & ->).
    destruct (decide _); [|done]. by intros [= <-] [= <-].
Qed.

(** The accuracies that the last loop stores. *)
Lemma perStockAccuracy_fold (totals : gmap string Totals) symbols (acc : gmap string num) s :
  fold_left (fun acc symbol =>
               match totals !! symbol with
               | Some c => setNumber acc symbol (accuracyOf (correct c) (total c))
               | None => acc
               end) symbols acc !! s
  = if decide (s ∈ symbols /\ s <> "__proto__"%string)
    then match totals !! s with
         | Some c => Some (accuracyOf (correct c) (total c))
         | None => acc !! s
         end
    else acc !! s.
Proof.
  revert acc. induction symbols as [|x symbols IH]; intros acc; cbn [fold_left].
  - rewrite decide_False; [done|]. intros [H _]. by apply elem_of_nil in H.
  - rewrite IH. unfold setNumber.
    destruct (decide (s ∈ symbols /\ s <> "__proto__"%string)) as [[Hin Hp]|Hout].
    + rewrite decide_True by (split; [by right|done]).
      destruct (totals !! s) eqn:Hs; [done|].
      destruct (totals !! x) eqn:Hx; [|done].
      destruct (decide (x = "__proto__"%string)); [done|].
      rewrite lookup_insert_ne; [done|]. intros ->. congruence.
    + destruct (decide (s = x)) as [->|Hne].
      * destruct (decide (x = "__proto__"%string)) as [Hx|Hx].
        -- rewrite decide_False by (intros [_ H]; done).
           by destruct (totals !! x).
        -- rewrite decide_True by (split; [by left|done]).
           destruct (totals !! x); [apply lookup_insert_eq|done].
      * rewrite decide_False.
        -- destruct (totals !! x); [|done].
           destruct (decide (x = "__proto__"%string)); [done|].
           by rewrite lookup_insert_ne.
        -- intros [[->|H]%elem_of_cons Hp]; [done|]. apply Hout. done.
Qed.

(** What a returned report is made of. *)
Lemma analysePredictions_inv predictionsArray groundTruthArray symbols H report :
  analysePredictions predictionsArray groundTruthArray symbols H = Ok report ->
  exists t,
    foldM (rowStep groundTruthArray symbols H)
      (imap (fun rowIndex row => (rowIndex, row)) predictionsArray)
      (initialTally symbols) = Ok t
    /\ coherent t
    /\ globalTotal t = (length predictionsArray * (length symbols * H))%nat
    /\ (Forall (binaryLabels (length symbols) H) groundTruthArray -> exactHits t)
    /\ (forall s, s ∈ symbols -> is_Some (perStockTotals t !! s))
    /\ overallAccuracy report = accuracyOf (globalCorrect t) (globalTotal t)
    /\ report_perStockConfusion report = perStockConfusion t
    /\ report_perStockTimeline report = perStockTimeline t
    /\ forall s, perStockAccuracy report !! s
                 = if decide (s ∈ symbols /\ s <> "__proto__"%string)
                   then (fun c => accuracyOf (correct c) (total c)) <$> perStockTotals t !! s
                   else None.
Proof.
  unfold analysePredictions.
  destruct (foldM _ _ _) as [t|e] eqn:Hfold; [|done]. cbn [obind].
  intros [= <-]. exists t. split; [done|].
  destruct (initialTally_coherent symbols) as [Hco0 Hex0].
  destruct (rows_inv _ _ _ _ _ _ Hfold Hco0) as (Hco & Hgt & Hkeys & Hex).
  rewrite length_imap in Hgt.
  destruct (initialTally_lookup symbols "") as (_ & Hgt0 & _). rewrite Hgt0 in Hgt.
  split; [done|]. split; [done|]. split; [intros Hb; by apply Hex|].
  split.
  { intros s Hs. apply Hkeys.
    destruct (initialTally_lookup symbols s) as (_ & _ & _ & -> & _).
    rewrite decide_True by done. by eexists. }
  cbn. repeat split; try done.
  intros s. rewrite perStockAccuracy_fold.
  destruct (decide _); [|done]. by destruct (perStockTotals t !! s).
Qed.

(** X14.  Every accuracy of a report, the overall one and the one of each
    stock, is a number [a] with [0 <= a] and [a <= 1] (for fewer than 2^53
    calls in all). *)
Theorem analysePredictions_accuracy_range
    (predictionsArray groundTruthArray : list (list num))
    (symbols : list string) (predictionDays : nat) (report : Report) :
  Z.of_nat (length predictionsArray * (length symbols * predictionDays)) < 2 ^ 53 ->
  analysePredictions predictionsArray groundTruthArray symbols predictionDays = Ok report ->
  inUnit (overallAccuracy report) = true
  /\ forall s a, perStockAccuracy report !! s = Some a -> inUnit a = true.
Proof.
  intros Hsize (t & _ & [Hg Hco] & Hgt & _ & _ & -> & _ & _ & Hacc)%analysePredictions_inv.
  split.
  - apply accuracyOf_inUnit; [done|]. by rewrite Hgt.
  - intros s a. rewrite Hacc. destruct (decide _); [|done].
    specialize (Hco s).
    destruct (perStockTotals t !! s) as [tot|]; [|done].
    destruct (perStockConfusion t !! s) as [c|]; [|done].
    destruct Hco as (H1 & H2 & H3). cbn. intros [= <-].
    apply accuracyOf_inUnit; [unfold cells in H2; lia|lia].
Qed.

Lemma analysePredictions_accuracy_range_witness :
  exists report, analysePredictions predictions2 truth2 ["A"; "B"] 2 = Ok report
    /\ inUnit (overallAccuracy report) = true.
Proof.
  destruct (analysePredictions predictions2 truth2 ["A"; "B"] 2) as [report|e] eqn:Hr;
    [|by vm_compute in Hr].
  exists report. split; [reflexivity|].
  apply (analysePredictions_accuracy_range predictions2 truth2 ["A"; "B"] 2 report);
    [simpl; lia|exact Hr].
Defined.

(** X15.  On labels that are 1 or 0, one per symbol and day, the accuracy
    of a stock is what its confusion counts give:
    (tp + tn) / (tp + fp + fn + tn), or 0 when there is no call.  This
    holds for every symbol but [__proto__], a name under which the report
    stores no accuracy. *)
Theorem analysePredictions_accuracy_of_confusion
    (predictionsArray groundTruthArray : list (list num))
    (symbols : list string) (predictionDays : nat) (report : Report) (s : string) :
  Forall (binaryLabels (length symbols) predictionDays) groundTruthArray ->
  analysePredictions predictionsArray groundTruthArray symbols predictionDays = Ok report ->
  s ∈ symbols ->
  s <> "__proto__"%string ->
  exists c,
    report_perStockConfusion report !! s = Some c
    /\ perStockAccuracy report !! s
       = Some (accuracyOf (tp c + tn c) (tp c + fp c + fn c + tn c)).
Proof.
  intros Hbin (t & _ & [_ Hco] & _ & Hex & Hkeys & _ & -> & _ & Hacc)%analysePredictions_inv
    Hs Hproto.
  specialize (Hex Hbin). specialize (Hco s). destruct (Hkeys s Hs) as [tot Htot].
  rewrite Htot in Hco.
  destruct (perStockConfusion t !! s) as [c|] eqn:Hc; [|done].
  exists c. split; [done|]. rewrite Hacc, decide_True, Htot by done. cbn.
  destruct Hco as (_ & H2 & _). rewrite (Hex s tot c Htot Hc), H2. done.
Qed.

Lemma analysePredictions_accuracy_of_confusion_witness :
  exists report c,
    analysePredictions predictions2 truth2 ["A"; "B"] 2 = Ok report
    /\ report_perStockConfusion report !! "B" = Some c
    /\ perStockAccuracy report !! "B"
       = Some (accuracyOf (tp c + tn c) (tp c + fp c + fn c + tn c)).
Proof.
  destruct (analysePredictions predictions2 truth2 ["A"; "B"] 2) as [report|e] eqn:Hr;
    [|by vm_compute in Hr].
  destruct (analysePredictions_accuracy_of_confusion predictions2 truth2 ["A"; "B"] 2
              report "B") as (c & H1 & H2).
  - unfold truth2. apply Forall_cons. split; [|apply Forall_cons; split; [|by apply Forall_nil]].
    all: intros i Hi; do 4 (destruct i as [|i]; [vm_compute; auto|]); simpl in Hi; lia.
  - exact Hr.
  - by compute_done.
  - discriminate.
  - exists report, c. split; [reflexivity|]. exact (conj H1 H2).
Defined.

(** ** When the analysis returns *)

Lemma stocks_ok row truth H ps t :
  exists t', foldM (stockStep row (Some truth) H) ps t = Ok t'.
Proof.
  revert t. induction ps as [|[stockIdx symbol] ps IH]; intros t; cbn [foldM];
    [by eexists|].
  destruct (stock_step row truth H t stockIdx symbol) as (t1 & k & g & e & -> & _).
  cbn [obind]. apply IH.
Qed.

Lemma stocks_ok_no_day row truthRow ps t :
  exists t', foldM (stockStep row truthRow 0) ps t = Ok t'.
Proof.
  revert t. induction ps as [|[stockIdx symbol] ps IH]; intros t; cbn [foldM];
    [by eexists|].
  unfold stockStep at 1. cbn [seq foldM obind]. apply IH.
Qed.

Lemma rowStep_ok groundTruthArray symbols H t rowIndex row :
  is_Some (groundTruthArray !! rowIndex) \/ symbols = [] \/ H = 0%nat ->
  exists t', rowStep groundTruthArray symbols H t (rowIndex, row) = Ok t'.
Proof.
  unfold rowStep. intros [[truth ->]|[-> | ->]].
  - apply stocks_ok.
  - by eexists.
  - apply stocks_ok_no_day.
Qed.

Lemma rowStep_throws groundTruthArray symbols H t rowIndex row :
  groundTruthArray !! rowIndex = None -> symbols <> [] -> H <> 0%nat ->
  rowStep groundTruthArray symbols H t (rowIndex, row) = Throw TypeError.
Proof.
  intros Hnone Hs HH. unfold rowStep. rewrite Hnone.
  destruct symbols as [|s symbols]; [done|]. destruct H as [|H]; [done|].
  done.
Qed.

Lemma rows_ok groundTruthArray symbols H (rs : list (nat * list num)) t :
  (forall rowIndex row, (rowIndex, row) ∈ rs ->
     is_Some (groundTruthArray !! rowIndex) \/ symbols = [] \/ H = 0%nat) ->
  exists t', foldM (rowStep groundTruthArray symbols H) rs t = Ok t'.
Proof.
  revert t. induction rs as [|[rowIndex row] rs IH]; intros t Hall; cbn [foldM];
    [by eexists|].
  destruct (rowStep_ok groundTruthArray symbols H t rowIndex row) as [t1 ->].
  { apply (Hall rowIndex row). by left. }
  cbn [obind]. apply IH. intros i r Hin. apply (Hall i r). by right.
Qed.

(** X16.  [analysePredictions] returns a report exactly when the ground
    truth has a row for every row of predictions, or there is nothing to
    read (no symbol or no day); otherwise reading the missing row throws a
    TypeError. *)
Theorem analysePredictions_returns_iff
    (predictionsArray groundTruthArray : list (list num))
    (symbols : list string) (predictionDays : nat) :
  ((length predictionsArray <= length groundTruthArray)%nat
   \/ symbols = [] \/ predictionDays = 0%nat ->
   exists report,
     analysePredictions predictionsArray groundTruthArray symbols predictionDays
     = Ok report)
  /\ ((length groundTruthArray < length predictionsArray)%nat ->
      symbols <> [] -> predictionDays <> 0%nat ->
      analysePredictions predictionsArray groundTruthArray symbols predictionDays
      = Throw TypeError).
Proof.
  split.
  - intros Hcase. unfold analysePredictions.
    destruct (rows_ok groundTruthArray symbols predictionDays
                (imap (fun rowIndex row => (rowIndex, row)) predictionsArray)
                (initialTally symbols)) as [t ->]; [|by eexists].
    intros rowIndex row Hin%imap_pair_in.
    destruct Hcase as [Hlen|Hcase]; [left|by right].
    apply lookup_lt_is_Some_2. apply lookup_lt_Some in Hin. lia.
  - intros Hlen Hs HH. unfold analysePredictions.
    set (n := length groundTruthArray).
    destruct (lookup_lt_is_Some_2 predictionsArray n Hlen) as [row Hrow].
    rewrite <- (take_drop_middle predictionsArray n row Hrow).
    rewrite imap_app, foldM_app.
    destruct (rows_ok groundTruthArray symbols predictionDays
                (imap (fun rowIndex row => (rowIndex, row)) (take n predictionsArray))
                (initialTally symbols)) as [t ->].
    { intros rowIndex r Hin%imap_pair_in. left.
      apply lookup_lt_is_Some_2. apply lookup_lt_Some in Hin.
      rewrite length_take in Hin. lia. }
    cbn [obind imap foldM].
    rewrite rowStep_throws; [done| |done|done].
    apply lookup_ge_None_2. rewrite length_take. lia.
Qed.

(** ** The timeline of a stock *)

(** X17.  In a report for distinct symbols, the timeline of a stock has
    one entry per row of predictions, in their order, and the calls of its
    flags are those of the columns of the stock: 1 where the prediction is
    at least 0.5, else 0. *)
Theorem analysePredictions_timeline
    (predictionsArray groundTruthArray : list (list num))
    (symbols : list string) (predictionDays : nat) (report : Report)
    (stockIdx : nat) (symbol : string) :
  NoDup symbols ->
  symbols !! stockIdx = Some symbol ->
  analysePredictions predictionsArray groundTruthArray symbols predictionDays = Ok report ->
  exists entries,
    report_perStockTimeline report !! symbol = Some entries
    /\ length entries = length predictionsArray
    /\ map (fun e => map predicted (perDayFlags e)) entries
       = map (fun row => map (fun day => threshold (row !! (stockIdx * predictionDays + day)%nat))
                           (seq 0 predictionDays)) predictionsArray.
Proof.
  intros Hnd Hs (t & Hfold & _ & _ & _ & _ & _ & _ & -> & _)%analysePredictions_inv.
  pose proof (rows_calls _ _ _ _ _ _ stockIdx symbol Hnd Hs Hfold) as Hcalls.
  destruct (initialTally_lookup symbols symbol) as (_ & _ & Ht0 & _).
  rewrite decide_True in Ht0 by (by eapply list_elem_of_lookup_2).
  unfold recordedCalls in Hcalls. rewrite Ht0 in Hcalls. cbn in Hcalls.
  destruct (perStockTimeline t !! symbol) as [entries|]; [|done].
  cbn in Hcalls. injection Hcalls as Hcalls.
  exists entries. split; [done|].
  assert (Hmap : map (fun p : nat * list num => callsOf p.2 stockIdx predictionDays)
                   (imap (fun rowIndex row => (rowIndex, row)) predictionsArray)
                 = map (fun row => callsOf row stockIdx predictionDays) predictionsArray).
  { change (map ?f ?l) with (f <$> l). rewrite fmap_imap.
    clear. induction predictionsArray as [|row rows IH] using rev_ind; [done|].
    rewrite imap_app, fmap_app, IH. done. }
  rewrite Hmap in Hcalls. split; [|exact Hcalls].
  apply (f_equal length) in Hcalls. by rewrite !length_map in Hcalls.
Qed.

Lemma analysePredictions_timeline_witness :
  exists report entries,
    analysePredictions predictions2 truth2 ["A"; "B"] 2 = Ok report
    /\ report_perStockTimeline report !! "B" = Some entries
    /\ map (fun e => map predicted (perDayFlags e)) entries = [[1; 1]; [1; 1]]%nat.
Proof.
  destruct (analysePredictions predictions2 truth2 ["A"; "B"] 2) as [report|e] eqn:Hr;
    [|by vm_compute in Hr].
  destruct (analysePredictions_timeline predictions2 truth2 ["A"; "B"] 2 report 1 "B")
    as (entries & H1 & _ & H2).
  - by compute_done.
  - reflexivity.
  - exact Hr.
  - exists report, entries. split; [reflexivity|]. split; [exact H1|].
    rewrite H2. reflexivity.
Defined.

(** ** The plateau callback *)

(** X18.  The callback leaves the optimizer alone until [patience] epochs
    have gone by since it was created or last reset its counter: after
    fewer epochs, whatever was monitored, the optimizer is the one it
    started with and the counter is below [patience]. *)
Theorem plateau_waits_for_patience (o : PlateauOptions) (p : Plateau)
    (optimizer : option Optimizer) (stream : list (option num)) :
  0 <= wait p ->
  wait p + Z.of_nat (length stream) < patience o ->
  Forall (fun st => st.2 = optimizer /\ 0 <= wait st.1 < patience o)
    (epochs o (p, optimizer) stream).
Proof.
  revert p. induction stream as [|current stream IH]; intros p Hw Hlen;
    cbn [epochs]; [constructor|].
  cbn [length] in Hlen.
  assert (Hstep : (onEpochEnd o (p, optimizer) current).2 = optimizer
                  /\ 0 <= wait (onEpochEnd o (p, optimizer) current).1 <= wait p + 1).
  { unfold onEpochEnd. destruct current as [c|]; [|cbn; split; [done|lia]].
    destruct (isFiniteNum c); cbn [negb]; [|cbn; split; [done|lia]].
    destruct (ltb c _); [cbn; split; [done|lia]|].
    destruct (Z.leb_spec (patience o) (wait p + 1)); [lia|]. cbn. split; [done|lia]. }
  destruct (onEpochEnd o (p, optimizer) current) as [p1 o1] eqn:Hst.
  cbn [fst snd] in Hstep. destruct Hstep as [-> Hw1].
  constructor; [cbn; split; [done|lia]|].
  apply IH; lia.
Qed.

Lemma plateau_waits_for_patience_witness :
  Forall (fun st => st.2 = Some {| learningRate := Some lit_1e_3 |}
                    /\ 0 <= wait st.1 < 3)
    (epochs defaultOptions
       (createReduceLROnPlateauCallback, Some {| learningRate := Some lit_1e_3 |})
       [Some one; Some three]).
Proof.
  apply (plateau_waits_for_patience defaultOptions createReduceLROnPlateauCallback
           (Some {| learningRate := Some lit_1e_3 |}) [Some one; Some three]);
    simpl; lia.
Defined.

(** ** Reading a line of the CSV text *)

Import Csv.

Lemma dropWhile_head {A} (p : A -> bool) (l : list A) x :
  head (dropWhile p l) = Some x -> p x = false.
Proof.
  induction l as [|y l IH]; cbn; [done|].
  destruct (p y) eqn:Hy; [done|]. cbn. by intros [= <-].
Qed.

Lemma dropWhile_fixed {A} (p : A -> bool) (l : list A) :
  (forall x, head l = Some x -> p x = false) -> dropWhile p l = l.
Proof. destruct l as [|y l]; cbn; [done|]. intros H. by rewrite (H y). Qed.

Lemma dropWhile_suffix {A} (p : A -> bool) (l : list A) :
  exists pre, l = pre ++ dropWhile p l.
Proof.
  induction l as [|y l [pre IH]]; cbn; [by exists []|].
  destruct (p y); [|by exists []]. exists (y :: pre). cbn. by f_equal.
Qed.

(** A text with no white space at either end. *)
Lemma trim_ends s :
  (forall x, head (trim s) = Some x -> isWhite x = false)
  /\ (forall x, last (trim s) = Some x -> isWhite x = false).
Proof.
  unfold trim. set (v := dropWhile isWhite s).
  set (u := dropWhile isWhite (reverse v)). split.
  - intros x Hx. rewrite head_reverse in Hx.
    destruct (dropWhile_suffix isWhite (reverse v)) as [pre Hpre]. fold u in Hpre.
    assert (Hlast : last (reverse v) = Some x).
    { rewrite Hpre. destruct u as [|y u] using rev_ind; [done|].
      rewrite last_snoc in Hx. by rewrite app_assoc, last_snoc. }
    rewrite last_reverse in Hlast. by apply dropWhile_head in Hlast.
  - intros x Hx. rewrite last_reverse in Hx. by apply dropWhile_head in Hx.
Qed.

Lemma trim_fixed s :
  (forall x, head s = Some x -> isWhite x = false) ->
  (forall x, last s = Some x -> isWhite x = false) ->
  trim s = s.
Proof.
  intros Hh Hl. unfold trim. rewrite (dropWhile_fixed isWhite s Hh).
  rewrite dropWhile_fixed; [apply reverse_involutive|].
  intros x Hx. rewrite head_reverse in Hx. by apply Hl.
Qed.

Lemma trim_idempotent s : trim (trim s) = trim s.
Proof. destruct (trim_ends s). by apply trim_fixed. Qed.

(** What was pushed before stays in front. *)
Lemma scanLine_result line current inQuotes result :
  scanLine line current inQuotes result
  = result ++ scanLine line current inQuotes [].
Proof.
  remember (length line) as n eqn:Hn. revert line current inQuotes result Hn.
  induction n as [n IH] using lt_wf_ind. intros line current inQuotes result ->.
  destruct line as [|char rest]; [done|]. cbn [scanLine].
  destruct (Ascii.eqb char quote).
  - destruct rest as [|next rest'].
    + done.
    + destruct (inQuotes && Ascii.eqb next quote).
      * apply (IH (length rest')); [cbn; lia|done].
      * apply (IH (length (next :: rest'))); [cbn; lia|done].
  - destruct (Ascii.eqb char comma && negb inQuotes).
    + rewrite (IH (length rest) ltac:(cbn; lia) rest [] inQuotes (result ++ _) eq_refl).
      rewrite (IH (length rest) ltac:(cbn; lia) rest [] inQuotes ([] ++ _) eq_refl).
      by rewrite <- app_assoc.
    + apply (IH (length rest)); [cbn; lia|done].
Qed.

Lemma scanLine_fields line current inQuotes :
  scanLine line current inQuotes [] <> []
  /\ Forall (fun field => trim field = field) (scanLine line current inQuotes []).
Proof.
  remember (length line) as n eqn:Hn. revert line current inQuotes Hn.
  induction n as [n IH] using lt_wf_ind. intros line current inQuotes ->.
  destruct line as [|char rest]; cbn [scanLine].
  { split; [done|]. repeat constructor. apply trim_idempotent. }
  destruct (Ascii.eqb char quote).
  - destruct rest as [|next rest'].
    + split; [done|]. repeat constructor. apply trim_idempotent.
    + destruct (inQuotes && Ascii.eqb next quote).
      * apply (IH (length rest')); [cbn; lia|done].
      * apply (IH (length (next :: rest'))); [cbn; lia|done].
  - destruct (Ascii.eqb char comma && negb inQuotes).
    + rewrite scanLine_result. cbn [app].
      destruct (IH (length rest) ltac:(cbn; lia) rest [] inQuotes eq_refl) as [_ Hall].
      split; [done|]. constructor; [apply trim_idempotent|done].
    + apply (IH (length rest)); [cbn; lia|done].
Qed.

Lemma scanLine_unquoted line current :
  quote ∉ line ->
  scanLine line current false [] = map trim (splitOn comma line current).
Proof.
  revert current. induction line as [|char rest IH]; intros current Hq; [done|].
  apply not_elem_of_cons in Hq as [Hne Hq]. cbn [scanLine splitOn].
  destruct (Ascii.eqb_spec char quote) as [->|_]; [done|].
  destruct (Ascii.eqb char comma); cbn [andb negb].
  - rewrite scanLine_result. cbn [app map]. by rewrite IH.
  - by apply IH.
Qed.

(** X19.  [parseCSVLine] always returns at least one field, and no field
    has white space at its ends; a line without a quote is cut at its
    commas. *)
Theorem parseCSVLine_fields (line : text) :
  (1 <= length (parseCSVLine line))%nat
  /\ Forall (fun field => trim field = field) (parseCSVLine line)
  /\ (quote ∉ line -> parseCSVLine line = map trim (splitOn comma line [])).
Proof.
  unfold parseCSVLine. destruct (scanLine_fields line [] false) as [Hne Hall].
  split; [|split; [done|apply scanLine_unquoted]].
  destruct (scanLine line [] false []); [done|cbn; lia].
Qed.

(** ** Reading what was written with quotes *)

Import CsvWriter.

Lemma scanLine_quoted field rest current result :
  rest = [] \/ (exists rest', rest = comma :: rest') ->
  scanLine (escape field ++ quote :: rest) current true result
  = scanLine rest (current ++ field) false result.
Proof.
  intros Hrest. revert current. induction field as [|c field IH]; intros current.
  - cbn [escape flat_map app scanLine]. rewrite Ascii.eqb_refl, app_nil_r.
    destruct Hrest as [->|[rest' ->]]; [done|]. done.
  - unfold escape in *. cbn [flat_map].
    destruct (Ascii.eqb_spec c quote) as [->|Hne].
    + cbn [app scanLine]. rewrite !Ascii.eqb_refl. cbn [andb].
      rewrite IH. by rewrite <- app_assoc.
    + cbn [app scanLine].
      destruct (Ascii.eqb_spec c quote) as [|_]; [done|]. rewrite andb_false_r.
      rewrite IH. by rewrite <- app_assoc.
Qed.

Lemma scanLine_quoteField field rest result :
  rest = [] \/ (exists rest', rest = comma :: rest') ->
  scanLine (quoteField field ++ rest) [] false result
  = scanLine rest field false result.
Proof.
  intros Hrest. unfold quoteField. cbn [app scanLine]. rewrite Ascii.eqb_refl.
  rewrite <- app_assoc. cbn [app].
  etrans; [|apply (scanLine_quoted field rest [] result Hrest)].
  destruct (escape field ++ quote :: rest) eqn:Hd; [|done].
  by destruct (escape field).
Qed.

(** X20.  A line written with every field between quotes, the quotes
    inside a field written twice, is read back field by field (without
    the white space at the ends of a field): commas and quotes inside the
    fields do not cut the line. *)
Theorem parseCSVLine_reads_quoted (fields : list text) :
  fields <> [] -> parseCSVLine (csvLine fields) = map trim fields.
Proof.
  intros Hne. unfold parseCSVLine.
  assert (Hgen : forall result,
            scanLine (csvLine fields) [] false result = result ++ map trim fields).
  { induction fields as [|f fields IH]; [done|]. intros result.
    destruct fields as [|f' fields].
    - cbn [csvLine map]. rewrite <- (app_nil_r (quoteField f)).
      rewrite scanLine_quoteField by (by left). done.
    - change (csvLine (f :: f' :: fields))
        with (quoteField f ++ comma :: csvLine (f' :: fields)).
      rewrite scanLine_quoteField by (right; by eexists).
      cbn [scanLine]. change (Ascii.eqb comma quote) with false.
      rewrite Ascii.eqb_refl. cbn [andb negb].
      rewrite IH by done. by rewrite <- app_assoc. }
  by rewrite Hgen.
Qed.

Lemma parseCSVLine_reads_quoted_witness :
  parseCSVLine (csvLine (map String.list_ascii_of_string ["a,b"; " c "; "50"]%string))
  = map String.list_ascii_of_string ["a,b"; "c"; "50"]%string.
Proof.
  rewrite (parseCSVLine_reads_quoted
             (map String.list_ascii_of_string ["a,b"; " c "; "50"]%string)).
  - reflexivity.
  - discriminate.
Defined.

(** ** Reading the CSV text *)

Lemma columnIndex_fold_Some (ps : list (nat * text)) (col : text) acc :
  is_Some acc ->
  is_Some (fold_left (fun acc p => if decide (p.2 = col) then Some p.1 else acc) ps acc).
Proof.
  revert acc. induction ps as [|[j h] ps IH]; intros acc Hacc; cbn [fold_left]; [done|].
  apply IH. cbn [fst snd]. by destruct (decide (h = col)).
Qed.

Lemma columnIndex_fold (ps : list (nat * text)) (col : text) acc :
  let r := fold_left (fun acc p => if decide (p.2 = col) then Some p.1 else acc) ps acc in
  (forall i, r = Some i -> (i, col) ∈ ps \/ acc = Some i)
  /\ ((exists i, (i, col) ∈ ps) -> is_Some r).
Proof.
  revert acc. induction ps as [|[j h] ps IH]; intros acc; cbn [fold_left].
  - cbn zeta. split; [by right|]. intros [i Hi]. by apply elem_of_nil in Hi.
  - cbn zeta in *. cbn [fst snd].
    destruct (IH (if decide (h = col) then Some j else acc)) as [H1 H2]. split.
    + intros i [Hi|Hi]%H1; [left; by right|].
      destruct (decide (h = col)) as [->|]; [|by right].
      injection Hi as ->. left. by left.
    + intros [i Hi]. apply elem_of_cons in Hi as [[= <- <-]|Hi]; [|apply H2; eauto].
      apply columnIndex_fold_Some. by rewrite decide_True.
Qed.

Lemma columnIndexOf_Some headers col :
  col ∈ headers ->
  exists i, columnIndexOf headers col = Some i /\ (i < length headers)%nat.
Proof.
  intros Hin. unfold columnIndexOf.
  destruct (columnIndex_fold (imap (fun index header => (index, header)) headers) col None)
    as [H1 H2]. cbn zeta in *.
  destruct H2 as [i Hi].
  { apply list_elem_of_lookup in Hin as [i Hi]. exists i.
    apply list_elem_of_lookup. exists i. by rewrite list_lookup_imap, Hi. }
  exists i. split; [done|].
  destruct (H1 i Hi) as [Hin'|]; [|done].
  apply list_elem_of_lookup in Hin' as [k Hk]. rewrite list_lookup_imap in Hk.
  destruct (headers !! k) eqn:Hh; [|done]. cbn in Hk. injection Hk as -> ->.
  by eapply lookup_lt_Some.
Qed.

Lemma cellOf_Some headers values col :
  String.list_ascii_of_string col ∈ headers -> length values = length headers ->
  is_Some (cellOf headers values col).
Proof.
  intros Hin Hlen. unfold cellOf.
  destruct (columnIndexOf_Some headers _ Hin) as (i & -> & Hi). cbn.
  apply lookup_lt_is_Some_2. lia.
Qed.

Section ParseCSVFacts.

Variable isoDate : text -> option string.
Variable parseFloat : text -> num.
Variable localeCompare : string -> string -> Z.

Lemma string_of_list_ascii_nonempty s :
  s <> [] -> String.string_of_list_ascii s <> ""%string.
Proof. by destruct s. Qed.

Lemma rowOfLine_cases headers line :
  String.list_ascii_of_string "Date" ∈ headers ->
  match rowOfLine isoDate parseFloat headers line with
  | Ok (Some row) => readRow isoDate row
  | Ok None => True
  | Throw e =>
      exists s, isoDate s = None
        /\ e = Error ("Invalid date encountered: " +:+ String.string_of_list_ascii s)
  end.
Proof.
  intros Hdate. unfold rowOfLine.
  destruct (Nat.eqb_spec (length (parseCSVLine line)) (length headers)) as [Hlen|];
    cbn [negb]; [|done].
  destruct (cellOf_Some headers (parseCSVLine line) "Date" Hdate Hlen) as [d ->].
  unfold normaliseDateString.
  destruct (isoDate d) as [iso|] eqn:Hiso; cbn [obind]; [|by exists d].
  destruct (cellOf headers (parseCSVLine line) "Symbol") as [s|]; [|done].
  destruct (Nat.eqb_spec (length s) 0) as [|Hs]; [done|].
  split; cbn; [|by exists d].
  apply string_of_list_ascii_nonempty. by destruct s.
Qed.

Lemma parseRows_cases headers lines rows0 :
  String.list_ascii_of_string "Date" ∈ headers ->
  exists new,
    (parseRows isoDate parseFloat headers lines rows0).1 = rows0 ++ new
    /\ (length new <= length lines)%nat
    /\ Forall (readRow isoDate) new
    /\ match (parseRows isoDate parseFloat headers lines rows0).2 with
       | Ok _ => True
       | Throw e =>
           exists s, isoDate s = None
             /\ e = Error ("Invalid date encountered: " +:+ String.string_of_list_ascii s)
       end.
Proof.
  intros Hdate. revert rows0. induction lines as [|line lines IH]; intros rows0;
    cbn [parseRows].
  - exists []. by rewrite app_nil_r.
  - pose proof (rowOfLine_cases headers line Hdate) as Hrow.
    destruct (rowOfLine isoDate parseFloat headers line) as [[row|]|e].
    + destruct (IH (rows0 ++ [row])) as (new & Hnew & Hlen & Hall & Hres).
      exists (row :: new). rewrite Hnew, <- app_assoc. cbn [app length].
      split; [done|]. split; [lia|]. split; [by constructor|done].
    + destruct (IH rows0) as (new & Hnew & Hlen & Hall & Hres).
      exists new. cbn [length]. split; [done|]. split; [lia|done].
    + exists []. cbn. rewrite app_nil_r. split; [done|]. split; [lia|done].
Qed.

(** The sort puts the dates in order, whatever [localeCompare] says. *)
Lemma rowLe_true a b : rowLe localeCompare a b = true -> String.leb (date a) (date b) = true.
Proof.
  unfold rowLe, String.ltb, String.leb.
  rewrite (String.compare_antisym (date b) (date a)).
  by destruct (String.compare (date a) (date b)).
Qed.

Lemma rowLe_false a b : rowLe localeCompare a b = false -> String.leb (date b) (date a) = true.
Proof.
  unfold rowLe, String.ltb, String.leb.
  rewrite (String.compare_antisym (date b) (date a)).
  by destruct (String.compare (date a) (date b)).
Qed.

Lemma insertSorted_by_date x (l : list Row) :
  StronglySorted (fun a b => String.leb (date a) (date b) = true) l ->
  StronglySorted (fun a b => String.leb (date a) (date b) = true)
    (insertSorted (rowLe localeCompare) x l).
Proof.
  induction 1 as [|y l Hl IH Hy]; cbn [insertSorted].
  - repeat constructor.
  - destruct (rowLe localeCompare x y) eqn:Hxy.
    + constructor; [by constructor|]. constructor; [by apply rowLe_true|].
      eapply Forall_impl; [exact Hy|]. intros z Hz.
      eapply String_leb_trans; [by apply rowLe_true|done].
    + constructor; [done|]. apply Forall_forall. intros z Hz.
      apply insertSorted_elem in Hz as [->|Hz]; [by apply rowLe_false|].
      rewrite Forall_forall in Hy. by apply Hy.
Qed.

Lemma sortBy_by_date (l : list Row) :
  StronglySorted (fun a b => String.leb (date a) (date b) = true)
    (sortBy (rowLe localeCompare) l).
Proof.
  induction l as [|x l IH]; [constructor|].
  unfold sortBy in *. cbn [foldr]. by apply insertSorted_by_date.
Qed.

(** X21.  What [parseCSV] can do.  It changes nothing but the rows of the
    loader.  When it returns, the rows are not empty, there are fewer of
    them than lines that are not blank, each has a symbol that is not
    empty and a date that [normaliseDateString] returned, and they are in
    the order of their dates.  When it throws, it is "CSV file is empty."
    for fewer than two lines that are not blank, or "CSV is missing
    required columns: ..." with the required columns that the header lacks
    (in both cases the loader is as before), or "Invalid date encountered:
    ..." for a date that cannot be read (the loader keeps the rows read
    before), or "No valid data rows were parsed from the CSV." with no row
    left in the loader. *)
Theorem parseCSV_outcomes (l : DataLoader) (csvText : text) :
  let result := parseCSV isoDate parseFloat localeCompare l csvText in
  let headers := parseCSVLine (hd [] (linesOf csvText)) in
  result.1 = withRows l (rows result.1)
  /\ match result.2 with
     | Ok _ =>
         rows result.1 <> []
         /\ (length (rows result.1) < length (linesOf csvText))%nat
         /\ Forall (readRow isoDate) (rows result.1)
         /\ StronglySorted (fun a b => String.leb (date a) (date b) = true)
              (rows result.1)
     | Throw e =>
         (e = Error "CSV file is empty."
          /\ (length (linesOf csvText) <= 1)%nat /\ result.1 = l)
         \/ (exists missing,
               e = Error ("CSV is missing required columns: " +:+ join ", " missing)
               /\ missing <> []
               /\ (forall col, col ∈ missing <-> col ∈ REQUIRED_COLUMNS /\ col ∉ headers)
               /\ result.1 = l)
         \/ ((exists s, isoDate s = None
                /\ e = Error ("Invalid date encountered: "
                              +:+ String.string_of_list_ascii s))
             /\ Forall (readRow isoDate) (rows result.1))
         \/ (e = Error "No valid data rows were parsed from the CSV."
             /\ rows result.1 = [])
     end.
Proof.
  cbn zeta. unfold parseCSV.
  destruct (Nat.leb_spec (length (linesOf csvText)) 1) as [Hfew|Hmany].
  { cbn [fst snd]. split; [by destruct l|]. left. done. }
  set (headers := parseCSVLine (hd [] (linesOf csvText))).
  set (missing := List.filter (fun col => negb (includes headers col)) REQUIRED_COLUMNS).
  assert (Hmissing : forall col, col ∈ missing <-> col ∈ REQUIRED_COLUMNS /\ col ∉ headers).
  { intros col. unfold missing. rewrite list_elem_of_In, List.filter_In, <- list_elem_of_In.
    unfold includes. rewrite negb_true_iff, bool_decide_eq_false. tauto. }
  destruct (Nat.ltb_spec 0 (length missing)) as [Hsome|Hnone].
  { cbn [fst snd]. split; [by destruct l|]. right. left. exists missing.
    split; [done|]. split; [by destruct missing; cbn in Hsome; [lia|]|]. done. }
  assert (Hdate : String.list_ascii_of_string "Date" ∈ headers).
  { destruct (decide (String.list_ascii_of_string "Date" ∈ headers)) as [|Hno]; [done|].
    assert (String.list_ascii_of_string "Date" ∈ missing) as Hin.
    { apply Hmissing. split; [|done]. unfold REQUIRED_COLUMNS. cbn [map]. by left. }
    destruct missing; [by apply elem_of_nil in Hin|cbn in Hnone; lia]. }
  destruct (parseRows_cases headers (tl (linesOf csvText)) [] Hdate)
    as (new & Hnew & Hlen & Hall & Hres).
  destruct (parseRows isoDate parseFloat headers (tl (linesOf csvText)) [])
    as [rs [[]|e]]; cbn [fst snd app] in *; subst rs.
  - destruct (Nat.eqb_spec (length new) 0) as [Hzero|Hnz]; cbn [fst snd rows withRows].
    + split; [done|]. right. right. right. split; [done|]. by destruct new.
    + split; [done|].
      split; [intros Hnil; apply Hnz; by rewrite <- (Permutation_length
                 (sortBy_Permutation (rowLe localeCompare) new)), Hnil|].
      split.
      { rewrite (Permutation_length (sortBy_Permutation (rowLe localeCompare) new)).
        destruct (linesOf csvText); cbn in *; lia. }
      split; [by rewrite sortBy_Permutation|apply sortBy_by_date].
  - cbn [rows withRows]. split; [done|]. right. right. left. done.
Qed.

End ParseCSVFacts.

(** ** The derived series *)

Lemma eqb_zero_finite r :
  isFiniteNum r = true -> eqb r zero = false -> exists s m e, r = S754_finite s m e.
Proof. destruct r as [[]|[]| |s m e]; try done. intros _ _. eauto. Qed.

Lemma ratioTo_not_nan value reference : isNaN (ratioTo value reference) = false.
Proof.
  unfold ratioTo. destruct reference as [r|]; [|done].
  destruct (isFiniteNum value) eqn:Hv; [|done].
  destruct (isFiniteNum r) eqn:Hr; [|done].
  destruct (eqb r zero) eqn:Hz; [done|]. cbn [negb orb].
  destruct (eqb_zero_finite r Hr Hz) as (s & m & e & ->).
  apply div_finite_not_nan. by apply sub_finite_not_nan.
Qed.

Lemma volatility_not_nan (window : list num) :
  isNaN
    (if existsb (fun v => negb (isFiniteNum v)) window then zero
     else
       let n := ofZ (Z.of_nat (length window)) in
       let mean := div (sumBy (fun v => v) window) n in
       if negb (isFiniteNum mean) || eqb mean zero then zero
       else
         let variance := div (sumBy (fun v => square (sub v mean)) window) n in
         let std := sqrt variance in
         if negb (isFiniteNum std) then zero else div std mean) = false.
Proof.
  destruct (existsb _ window); [done|]. cbn zeta.
  set (mean := div _ _).
  destruct (isFiniteNum mean) eqn:Hm; [|done].
  destruct (eqb mean zero) eqn:Hz; [done|]. cbn [negb orb].
  set (std := sqrt _).
  destruct (isFiniteNum std) eqn:Hs; [|done]. cbn [negb].
  destruct (eqb_zero_finite mean Hm Hz) as (s & m & e & ->).
  apply div_finite_not_nan. by destruct std.
Qed.

(** X25.  The three series that [buildFeatureCube] derives from the
    closes of a symbol, whatever the closes hold (NaN and infinities
    included): each has one entry for each close, no entry is NaN, and the
    first entry of the returns, the first three of the momentum and the
    first four of the volatility are 0. *)
Theorem derived_series_never_NaN (closes : list num) :
  (length (returnsOf closes) = length closes
   /\ length (momentum3Of closes) = length closes
   /\ length (volatility5Of closes) = length closes)
  /\ (forall i v, returnsOf closes !! i = Some v ->
        isNaN v = false /\ ((i < 1)%nat -> v = zero))
  /\ (forall i v, momentum3Of closes !! i = Some v ->
        isNaN v = false /\ ((i < 3)%nat -> v = zero))
  /\ (forall i v, volatility5Of closes !! i = Some v ->
        isNaN v = false /\ ((i < 4)%nat -> v = zero)).
Proof.
  unfold returnsOf, momentum3Of, volatility5Of.
  split; [by rewrite !length_imap|]. split; [|split]; intros i v;
    rewrite list_lookup_imap; destruct (closes !! i) as [value|]; try done;
    cbn [fmap option_fmap option_map]; intros [= <-].
  - destruct (Nat.eqb_spec i 0) as [->|Hi].
    + done.
    + split; [apply ratioTo_not_nan|lia].
  - destruct (Nat.ltb_spec i 3) as [Hi|Hi].
    + done.
    + split; [apply ratioTo_not_nan|lia].
  - destruct (Nat.ltb_spec i 4) as [Hi|Hi].
    + done.
    + split; [apply volatility_not_nan|lia].
Qed.

(** ** From the CSV text to the cube *)

Section ParseThenBuild.

Variable isoDate : text -> option string.
Variable parseFloat : text -> num.
Variable localeCompare : string -> string -> Z.
Variable timeValue : string -> Z.

Lemma parseCSV_returns_rows (l : DataLoader) (csvText : text) :
  (parseCSV isoDate parseFloat localeCompare l csvText).2 = Ok tt ->
  exists read,
    rows (parseCSV isoDate parseFloat localeCompare l csvText).1
    = sortBy (rowLe localeCompare) read
    /\ read <> []
    /\ (length read < length (linesOf csvText))%nat
    /\ Forall (readRow isoDate) read.
Proof.
  unfold parseCSV.
  destruct (Nat.leb_spec (length (linesOf csvText)) 1) as [Hfew|Hmany]; [done|].
  set (headers := parseCSVLine (hd [] (linesOf csvText))).
  set (missing := List.filter (fun col => negb (includes headers col)) REQUIRED_COLUMNS).
  destruct (Nat.ltb_spec 0 (length missing)) as [Hsome|Hnone]; [done|].
  assert (Hdate : String.list_ascii_of_string "Date" ∈ headers).
  { destruct (decide (String.list_ascii_of_string "Date" ∈ headers)) as [|Hno]; [done|].
    assert (String.list_ascii_of_string "Date" ∈ missing) as Hin.
    { unfold missing. rewrite list_elem_of_In, List.filter_In, <- list_elem_of_In.
      split; [unfold REQUIRED_COLUMNS; cbn [map]; by left|].
      unfold includes. by rewrite negb_true_iff, bool_decide_eq_false. }
    destruct missing; [by apply elem_of_nil in Hin|cbn in Hnone; lia]. }
  destruct (parseRows_cases isoDate parseFloat headers (tl (linesOf csvText)) [] Hdate)
    as (new & Hnew & Hlen & Hall & _).
  destruct (parseRows isoDate parseFloat headers (tl (linesOf csvText)) [])
    as [rs [[]|e]]; cbn [fst snd app] in *; subst rs; [|done].
  destruct (Nat.eqb_spec (length new) 0) as [Hzero|Hnz]; [done|].
  intros _. exists new. cbn [fst rows withRows]. split; [done|].
  split; [by destruct new|]. split; [|done].
  destruct (linesOf csvText); cbn in *; lia.
Qed.

(** X26.  When [parseCSV] returns, [buildFeatureCube] on the loader it
    leaves finds at least one date and one symbol, fewer of each than
    there are lines that are not blank; no symbol is the empty string and
    every date is one that [normaliseDateString] returned.  So the cube of
    a parsed file always has both axes. *)
Theorem parseCSV_then_buildFeatureCube (l : DataLoader) (csvText : text) :
  (parseCSV isoDate parseFloat localeCompare l csvText).2 = Ok tt ->
  let l' := buildFeatureCube timeValue
              (parseCSV isoDate parseFloat localeCompare l csvText).1 in
  dates l' <> [] /\ symbols l' <> []
  /\ (length (dates l') < length (linesOf csvText))%nat
  /\ (length (symbols l') < length (linesOf csvText))%nat
  /\ (""%string ∉ symbols l')
  /\ (forall d, d ∈ dates l' -> exists s, isoDate s = Some d).
Proof.
  intros Hok. cbn zeta.
  destruct (parseCSV_returns_rows l csvText Hok) as (read & Hrows & Hne & Hlen & Hall).
  set (parsed := (parseCSV isoDate parseFloat localeCompare l csvText).1) in *.
  destruct (buildFeatureCube_dates timeValue parsed) as (_ & Hd & Hdl).
  destruct (buildFeatureCube_symbols timeValue parsed) as (_ & Hs & Hsl).
  cbn zeta in *. rewrite Hrows in *.
  rewrite (Permutation_length (sortBy_Permutation (rowLe localeCompare) read)) in Hdl, Hsl.
  assert (exists r, r ∈ sortBy (rowLe localeCompare) read) as [r Hr].
  { destruct read as [|r read]; [done|]. exists r.
    rewrite sortBy_Permutation. by left. }
  assert (Hread : forall r, r ∈ sortBy (rowLe localeCompare) read -> readRow isoDate r).
  { intros r' Hr'. rewrite sortBy_Permutation in Hr'.
    rewrite Forall_forall in Hall. by apply Hall. }
  split; [|split; [|split; [|split; [|split]]]].
  - intros Hnil. assert (date r ∈ dates (buildFeatureCube timeValue parsed)) as Hin
      by (apply Hd; eauto).
    rewrite Hnil in Hin. by apply elem_of_nil in Hin.
  - intros Hnil. assert (symbol r ∈ symbols (buildFeatureCube timeValue parsed)) as Hin
      by (apply Hs; eauto).
    rewrite Hnil in Hin. by apply elem_of_nil in Hin.
  - lia.
  - lia.
  - intros (r' & Hr' & Hsym)%Hs. by destruct (Hread r' Hr') as [Hsym' _].
  - intros d (r' & Hr' & <-)%Hd. by destruct (Hread r' Hr') as [_ Hdate].
Qed.

End ParseThenBuild.

Lemma parseCSV_then_buildFeatureCube_witness :
  let l' := buildFeatureCube isoTimeValue
              (parseCSV plainDate wholeNumber codeUnitCompare
                 (loaderOf 12 3 lit_0_8 []) sampleCsv).1 in
  dates l' <> [] /\ symbols l' <> []
  /\ (length (dates l') < length (linesOf sampleCsv))%nat
  /\ (length (symbols l') < length (linesOf sampleCsv))%nat
  /\ (""%string ∉ symbols l')
  /\ (forall d, d ∈ dates l' -> exists s, plainDate s = Some d).
Proof.
  apply (parseCSV_then_buildFeatureCube plainDate wholeNumber codeUnitCompare
           isoTimeValue (loaderOf 12 3 lit_0_8 []) sampleCsv).
  vm_compute. reflexivity.
Defined.

(** ** A symbol with one usable price has no gap left *)

Lemma fillMissingValues_complete a :
  Exists (fun x => isFiniteNum x = true) a ->
  Forall (fun y => isFiniteNum y = true) (fillMissingValues a).
Proof.
  intros Hex. destruct (fillPass_last_finite a Hex) as (y & Hlast & Hy).
  by eapply fillBack_all_finite.
Qed.

(** X27.  Take a row that no later row of the same date and symbol
    overwrites.  If its close is a finite number, then after
    [buildFeatureCube] the Close series of its symbol has a finite number
    at every date, also at the dates for which the symbol has no row; and
    the same for its open and the Open series. *)
Theorem buildFeatureCube_leaves_no_gap (timeValue : string -> Z) (l : DataLoader)
    (pre post : list Row) (r : Row) :
  rows l = pre ++ r :: post ->
  (forall r', r' ∈ post -> ~ (date r' = date r /\ symbol r' = symbol r)) ->
  let l' := buildFeatureCube timeValue l in
  exists f,
    featureCube l' !! symbol r = Some f
    /\ (isFiniteNum (close r) = true ->
          length (series_Close f) = length (dates l')
          /\ Forall (fun v => isFiniteNum v = true) (series_Close f))
    /\ (isFiniteNum (open r) = true ->
          length (series_Open f) = length (dates l')
          /\ Forall (fun v => isFiniteNum v = true) (series_Open f)).
Proof.
  intros Hrows Hlast l'.
  destruct (buildFeatureCube_scattered timeValue l pre post r Hrows Hlast)
    as (idx & f0 & Hidx & Hf & Ho & Hc). fold l' in Hidx, Hf.
  destruct (buildFeatureCube_keys timeValue l (symbol r))
    as [(_ & f1 & Hlo & Hlc & Hf1 & _)|(_ & Hnone & _)];
    fold l' in Hlo, Hlc, Hf1 || fold l' in Hnone; [|congruence].
  assert (deriveFeatures f1 = deriveFeatures f0) as Heq by congruence.
  exists (deriveFeatures f0). split; [done|].
  split; intros Hfin.
  - split.
    + rewrite <- Heq. cbn [deriveFeatures series_Close].
      by rewrite fillMissingValues_length.
    + cbn [deriveFeatures series_Close]. apply fillMissingValues_complete.
      apply list.Exists_exists. exists (close r). split; [|done].
      eapply list_elem_of_lookup_2.
      rewrite Hc. unfold finiteOrNaN. by rewrite Hfin.
  - split.
    + rewrite <- Heq. cbn [deriveFeatures series_Open].
      by rewrite fillMissingValues_length.
    + cbn [deriveFeatures series_Open]. apply fillMissingValues_complete.
      apply list.Exists_exists. exists (open r). split; [|done].
      eapply list_elem_of_lookup_2.
      rewrite Ho. unfold finiteOrNaN. by rewrite Hfin.
Qed.

Lemma buildFeatureCube_leaves_no_gap_witness :
  exists f,
    featureCube (buildFeatureCube isoTimeValue loader5) !! "A" = Some f
    /\ length (series_Close f) = length (dates (buildFeatureCube isoTimeValue loader5))
    /\ Forall (fun v => isFiniteNum v = true) (series_Close f).
Proof.
  destruct (buildFeatureCube_leaves_no_gap isoTimeValue loader5
              [mkRow "2024-01-03" "A" 10 12; mkRow "2024-01-01" "A" 9 10]
              [mkRow "2024-01-04" "A" 12 11; mkRow "2024-01-05" "A" 11 13]
              (mkRow "2024-01-02" "A" 10 11))
    as (f & H1 & H2 & _); [reflexivity| |].
  - intros r' Hin [Hd _].
    repeat (apply elem_of_cons in Hin as [->|Hin]; [discriminate Hd|]).
    by apply elem_of_nil in Hin.
  - exists f. split; [exact H1|]. exact (H2 eq_refl).
Defined.

(** ** The first loader *)

Import LegacyLoader.
Import LegacyFacts.

Lemma forwardFill_length lastValue data :
  length (forwardFill lastValue data) = length data.
Proof.
  revert lastValue. induction data as [|[v|] data IH]; intros lastValue; cbn;
    [done|by rewrite IH..].
Qed.

Lemma forwardFill_cases lastValue data i :
  (forall v, data !! i = Some (Some v) ->
     forwardFill lastValue data !! i = Some (Some v))
  /\ (forwardFill lastValue data !! i = Some None <->
        lastValue = None /\ (i < length data)%nat
        /\ forall j, (j <= i)%nat -> data !! j = Some None)
  /\ (forall v, forwardFill lastValue data !! i = Some (Some v) ->
        (lastValue = Some v /\ forall k, (k <= i)%nat -> data !! k = Some None)
        \/ exists j, (j <= i)%nat /\ data !! j = Some (Some v)
                     /\ forall k, (j < k <= i)%nat -> data !! k = Some None).
Proof.
  revert lastValue i. induction data as [|[w|] data IH]; intros lastValue i.
  - cbn. split; [done|]. split; [|done]. split; [done|]. intros (_ & H & _). cbn in H. lia.
  - cbn [forwardFill]. destruct i as [|i].
    + cbn. split; [done|]. split.
      * split; [done|]. intros (_ & _ & H). specialize (H 0%nat ltac:(lia)). done.
      * intros v [= ->]. right. exists 0%nat. split; [lia|]. split; [done|]. intros k Hk. lia.
    + cbn [lookup list_lookup]. destruct (IH (Some w) i) as (H1 & H2 & H3).
      split; [exact H1|]. split.
      * split.
        -- intros H. apply H2 in H as (H & _). done.
        -- intros (_ & _ & H). specialize (H 0%nat ltac:(lia)). done.
      * intros v Hv. right. destruct (H3 v Hv) as [([= ->] & Hnone)|(j & Hj & Hdj & Hnone)].
        -- exists 0%nat. split; [lia|]. split; [done|]. intros [|k] Hk; [lia|].
           apply (Hnone k). lia.
        -- exists (S j). split; [lia|]. split; [done|]. intros [|k] Hk; [lia|].
           apply (Hnone k). lia.
  - cbn [forwardFill]. destruct i as [|i].
    + cbn. split; [done|]. split.
      * split.
        -- intros [= ->]. split; [done|]. split; [lia|]. intros j Hj.
           by replace j with 0%nat by lia.
        -- by intros (-> & _).
      * intros v [= ->]. left. split; [done|]. intros k Hk. by replace k with 0%nat by lia.
    + cbn [lookup list_lookup]. destruct (IH lastValue i) as (H1 & H2 & H3).
      split; [exact H1|]. split.
      * rewrite H2. cbn [length]. split.
        -- intros (-> & Hi & Hnone). split; [done|]. split; [lia|].
           intros [|j] Hj; [done|]. apply (Hnone j). lia.
        -- intros (-> & Hi & Hnone). split; [done|]. split; [lia|].
           intros j Hj. apply (Hnone (S j)). lia.
      * intros v Hv. destruct (H3 v Hv) as [(-> & Hnone)|(j & Hj & Hdj & Hnone)].
        -- left. split; [done|]. intros [|k] Hk; [done|]. apply (Hnone k). lia.
        -- right. exists (S j). split; [lia|]. split; [done|]. intros [|k] Hk; [lia|].
           apply (Hnone k). lia.
Qed.

(** X22.  The forward fill of the first loader, as [preprocessData] runs
    it on a series (starting with no last value): the series keeps its
    length and its values; an entry is [null] afterwards exactly when it
    and all entries before it were [null] (so the gap before the first
    value is not filled); and every other entry holds the latest value at
    or before it. *)
Theorem forwardFill_keeps_leading_gap (data : list (option num)) :
  length (forwardFill None data) = length data
  /\ (forall i v, data !! i = Some (Some v) ->
        forwardFill None data !! i = Some (Some v))
  /\ (forall i, forwardFill None data !! i = Some None <->
        (i < length data)%nat /\ forall j, (j <= i)%nat -> data !! j = Some None)
  /\ (forall i v, forwardFill None data !! i = Some (Some v) ->
        exists j, (j <= i)%nat /\ data !! j = Some (Some v)
                  /\ forall k, (j < k <= i)%nat -> data !! k = Some None).
Proof.
  split; [apply forwardFill_length|]. split; [|split].
  - intros i. apply forwardFill_cases.
  - intros i. destruct (forwardFill_cases None data i) as (_ & H & _).
    rewrite H. tauto.
  - intros i v Hv. destruct (forwardFill_cases None data i) as (_ & _ & H).
    destruct (H v Hv) as [(? & _)|?]; done.
Qed.

(** ** minMaxNormalize without a guard *)

Lemma omap_constant (x : num) (data : list (option num)) :
  Forall (fun v => v = None \/ v = Some x) data ->
  omap (fun v => v) data = replicate (length (omap (fun v => v) data)) x.
Proof.
  induction 1 as [|v data [->| ->] _ IH]; [done|done|].
  cbn. by rewrite <- IH.
Qed.

Lemma omap_all_null (data : list (option num)) :
  Forall (fun v => v = None) data -> omap (fun v : option num => v) data = [].
Proof. induction 1 as [|v data -> _ IH]; done. Qed.

(** X23.  [minMaxNormalize] has no guard for a flat series.  When every
    value of the series that is not [null] is the same finite number, each
    of these values is normalised to NaN (0 / 0); and a series of [null]s
    only is normalised to NaN throughout. *)
Theorem minMaxNormalize_flat_series_is_NaN (x : num) (data : list (option num)) :
  good x = true ->
  Forall (fun v => v = None \/ v = Some x) data ->
  length (minMaxNormalize data) = length data
  /\ (forall i, data !! i = Some (Some x) -> minMaxNormalize data !! i = Some NaN)
  /\ (Forall (fun v => v = None) data ->
        minMaxNormalize data = replicate (length data) NaN).
Proof.
  intros Hx Hall. unfold minMaxNormalize. split; [by rewrite length_map|]. split.
  - intros i Hi. pose proof (omap_constant x data Hall) as Hflat.
    destruct (omap (fun v => v) data) as [|y filtered] eqn:Hf.
    + exfalso. clear Hflat. revert i Hi Hf. induction data as [|[v|] data IH];
        intros [|i] Hi Hf; try done.
      inversion Hall; subst. by eapply IH.
    + cbn [length] in Hflat. rewrite Hflat.
      rewrite Math_min_replicate, Math_max_replicate by by apply good_isFiniteNum.
      change (map ?f ?l) with (f <$> l). rewrite list_lookup_fmap, Hi. cbn.
      by rewrite (sub_self x Hx).
  - intros Hnull. rewrite (omap_all_null data Hnull).
    clear Hall. induction Hnull as [|v data -> _ IH]; [done|].
    cbn [map length replicate]. by rewrite IH.
Qed.

Lemma minMaxNormalize_flat_series_is_NaN_witness :
  minMaxNormalize [Some (ofZ 5); None; Some (ofZ 5)] !! 0%nat = Some NaN
  /\ minMaxNormalize [Some (ofZ 5); None; Some (ofZ 5)] !! 2%nat = Some NaN.
Proof.
  assert (Forall (fun v => v = None \/ v = Some (ofZ 5))
            [Some (ofZ 5); None; Some (ofZ 5)]) as Hall.
  { constructor; [by right|constructor; [by left|constructor; [by right|constructor]]]. }
  destruct (minMaxNormalize_flat_series_is_NaN (ofZ 5) _ eq_refl Hall) as (_ & H & _).
  split; by apply H.
Defined.

(** ** The arrays of createSequences *)

Lemma emptyFeatureData_fold ss n (m0 : gmap string FeatureData) s :
  fold_left (fun acc s =>
               <[s := {| data_Open := replicate n None;
                         data_Close := replicate n None |}]> acc) ss m0 !! s
  = if decide (s ∈ ss)
    then Some {| data_Open := replicate n None; data_Close := replicate n None |}
    else m0 !! s.
Proof.
  revert m0. induction ss as [|a ss IH]; intros m0; cbn [fold_left]; [done|].
  rewrite IH. destruct (decide (s ∈ ss)) as [Hin|Hout].
  - by rewrite decide_True by by right.
  - destruct (decide (s = a)) as [->|Hne].
    + rewrite lookup_insert_eq. by rewrite decide_True by by left.
    + rewrite lookup_insert_ne by done. rewrite decide_False; [done|].
      intros [->|H]%elem_of_cons; done.
Qed.

Lemma emptyFeatureData_shaped ss n : shaped n ss (emptyFeatureData ss n).
Proof.
  unfold emptyFeatureData. split.
  - intros s Hs. rewrite emptyFeatureData_fold, decide_True by done. by eexists.
  - intros s d. rewrite emptyFeatureData_fold.
    destruct (decide (s ∈ ss)); [|done]. intros [= <-]. cbn.
    by rewrite !length_replicate.
Qed.

Lemma storeRow_shaped n ss index m r :
  shaped n ss m -> shaped n ss (storeRow index m r).
Proof.
  intros [Hdom Hlen]. unfold storeRow.
  destruct (m !! Symbol r) as [d|] eqn:Hd; [|done].
  destruct (index !! Date r) as [dateIdx|]; [|done].
  destruct (Hlen _ _ Hd) as [Ho Hc]. split.
  - intros s Hs. destruct (decide (s = Symbol r)) as [->|Hne].
    + rewrite lookup_insert_eq. by eexists.
    + rewrite lookup_insert_ne by done. by apply Hdom.
  - intros s d'. destruct (decide (s = Symbol r)) as [->|Hne].
    + rewrite lookup_insert_eq. intros [= <-]. cbn. by rewrite !length_insert.
    + rewrite lookup_insert_ne by done. apply Hlen.
Qed.

Lemma stored_shaped n ss index rs m :
  shaped n ss m -> shaped n ss (fold_left (storeRow index) rs m).
Proof.
  revert m. induction rs as [|r rs IH]; intros m Hm; [done|].
  cbn [fold_left]. by apply IH, storeRow_shaped.
Qed.

Lemma fillSymbols_fold_shaped n ss todo m :
  shaped n ss m ->
  shaped n ss
    (fold_left (fun acc s =>
                  match acc !! s with
                  | Some d => <[s := {| data_Open := forwardFill None (data_Open d);
                                        data_Close := forwardFill None (data_Close d) |}]> acc
                  | None => acc
                  end) todo m).
Proof.
  revert m. induction todo as [|a todo IH]; intros m Hm; [done|].
  cbn [fold_left]. apply IH. destruct Hm as [Hdom Hlen].
  destruct (m !! a) as [d|] eqn:Hd; [|done].
  destruct (Hlen _ _ Hd) as [Ho Hc]. split.
  - intros s Hs. destruct (decide (s = a)) as [->|Hne].
    + rewrite lookup_insert_eq. by eexists.
    + rewrite lookup_insert_ne by done. by apply Hdom.
  - intros s d'. destruct (decide (s = a)) as [->|Hne].
    + rewrite lookup_insert_eq. intros [= <-]. cbn. by rewrite !forwardFill_length.
    + rewrite lookup_insert_ne by done. apply Hlen.
Qed.

Lemma fillSymbols_shaped n ss m : shaped n ss m -> shaped n ss (fillSymbols ss m).
Proof. apply fillSymbols_fold_shaped. Qed.

Lemma normalized_fold (filled : gmap string FeatureData) todo
    (acc : gmap string NormalizedData) s d :
  s ∈ todo -> filled !! s = Some d ->
  fold_left (fun acc s =>
               match filled !! s with
               | Some d => <[s := {| norm_Open := minMaxNormalize (data_Open d);
                                     norm_Close := minMaxNormalize (data_Close d) |}]> acc
               | None => acc
               end) todo acc !! s
  = Some {| norm_Open := minMaxNormalize (data_Open d);
            norm_Close := minMaxNormalize (data_Close d) |}.
Proof.
  intros Hin Hd. revert acc Hin.
  induction todo as [|a todo IH] using rev_ind; intros acc Hin.
  { by apply elem_of_nil in Hin. }
  rewrite fold_left_app. cbn [fold_left].
  destruct (decide (s = a)) as [->|Hne].
  - rewrite Hd. by rewrite lookup_insert_eq.
  - assert (s ∈ todo) as Hs.
    { apply elem_of_app in Hin as [H|H%list_elem_of_singleton]; done. }
    destruct (filled !! a); [rewrite lookup_insert_ne by done|]; by apply IH.
Qed.

Lemma minMaxNormalize_length data : length (minMaxNormalize data) = length data.
Proof. unfold minMaxNormalize. by rewrite length_map. Qed.

Lemma targetEntry_binary currentClose futureClose :
  targetEntry currentClose futureClose = zero \/ targetEntry currentClose futureClose = one.
Proof.
  unfold targetEntry.
  destruct futureClose as [[f|]|], currentClose as [[c|]|]; try by left.
  destruct (ltb c f); [by right|by left].
Qed.

Lemma get_in_range {A} (xs : list A) (j : Z) :
  0 <= j < Z.of_nat (length xs) -> is_Some (get xs j).
Proof.
  intros Hj. unfold get. destruct (Z.ltb_spec j 0) as [|_]; [lia|].
  apply lookup_lt_is_Some_2. lia.
Qed.

(** The loader that [preprocessData] leaves: each symbol has its filled
    and its normalised series, one entry for each date. *)
Lemma preprocessData_loader rawData s :
  let l := (preprocessData rawData).1 in
  s ∈ symbols l ->
  exists d,
    featureData l !! s = Some d
    /\ length (data_Open d) = length (dateIndex l)
    /\ length (data_Close d) = length (dateIndex l)
    /\ normalizedData l !! s
       = Some {| norm_Open := minMaxNormalize (data_Open d);
                 norm_Close := minMaxNormalize (data_Close d) |}.
Proof.
  cbn zeta. unfold preprocessData. cbn [fst symbols featureData dateIndex normalizedData].
  set (ss := symbolsOf rawData). set (allDates := allDatesOf rawData).
  set (index := fold_left _ (imap _ allDates) _).
  intros Hs.
  pose proof (fillSymbols_shaped _ _ _
                (stored_shaped _ _ index rawData _
                   (emptyFeatureData_shaped ss (length allDates)))) as [Hdom Hlen].
  destruct (Hdom s Hs) as [d Hd]. exists d. destruct (Hlen _ _ Hd) as [Ho Hc].
  split; [done|]. split; [done|]. split; [done|]. by apply normalized_fold.
Qed.

(** X24.  The arrays that [preprocessData] builds through
    [createSequences], for any rows: there is one sequence and one target
    for each of the [D - 15] anchors ([D] distinct dates; none when
    [D <= 15]); a sequence has 12 time steps; a time step has two numbers
    for each symbol, all of them read inside the series; a target has
    three labels for each symbol, each 0 or 1. *)
Theorem preprocessData_shapes (rawData : list RawRow) :
  let l := (preprocessData rawData).1 in
  let result := (preprocessData rawData).2 in
  length (sequences result) = rounds (length (dateIndex l))
  /\ length (targets result) = rounds (length (dateIndex l))
  /\ Forall (fun sequence =>
               length sequence = 12%nat
               /\ Forall (fun timeStep =>
                            length timeStep = (length (symbols l) * 2)%nat
                            /\ Forall is_Some timeStep) sequence)
       (sequences result)
  /\ Forall (fun target =>
               length target = (length (symbols l) * 3)%nat
               /\ Forall (fun label => label = zero \/ label = one) target)
       (targets result).
Proof.
  cbn zeta. pose proof (preprocessData_loader rawData) as Hl. cbn zeta in Hl.
  change (preprocessData rawData).2 with (createSequences (preprocessData rawData).1).
  set (l := (preprocessData rawData).1) in *. unfold createSequences. cbn [sequences targets].
  unfold rounds. rewrite !length_map, !length_seqZ.
  split; [done|]. split; [done|]. split.
  - apply Forall_forall. intros sequence Hseq.
    apply list_elem_of_fmap in Hseq as (i & -> & Hi). apply elem_of_seqZ in Hi.
    rewrite length_map, length_seqZ. split; [done|].
    apply Forall_forall. intros timeStep Hstep.
    apply list_elem_of_fmap in Hstep as (j & -> & Hj). apply elem_of_seqZ in Hj.
    unfold timeStepAt.
    assert (Forall (fun p : list (option num) => length p = 2%nat /\ Forall is_Some p)
              (map (fun s => match normalizedData l !! s with
                             | Some d => [get (norm_Open d) j; get (norm_Close d) j]
                             | None => []
                             end) (symbols l))) as Hparts.
    { apply Forall_forall. intros p Hp. apply list_elem_of_fmap in Hp as (s & -> & Hs).
      destruct (Hl s Hs) as (d & _ & Ho & Hc & ->). cbn [norm_Open norm_Close].
      split; [done|]. unfold sequenceLength, predictionDays in *.
      repeat constructor; apply get_in_range; rewrite minMaxNormalize_length; lia. }
    split.
    + rewrite (concat_length_uniform _ 2), length_map; [done|].
      eapply Forall_impl; [exact Hparts|]. by intros p [? _].
    + apply Forall_concat. eapply Forall_impl; [exact Hparts|]. by intros p [_ ?].
  - apply Forall_forall. intros target Htarget.
    apply list_elem_of_fmap in Htarget as (i & -> & Hi).
    unfold targetOf.
    assert (Forall (fun p : list num => length p = 3%nat
                                        /\ Forall (fun label => label = zero \/ label = one) p)
              (map (fun s => match featureData l !! s with
                             | Some d =>
                                 map (fun k => targetEntry (get (data_Close d) i)
                                                 (get (data_Close d) (i + k)))
                                   (seqZ 1 predictionDays)
                             | None => []
                             end) (symbols l))) as Hparts.
    { apply Forall_forall. intros p Hp. apply list_elem_of_fmap in Hp as (s & -> & Hs).
      destruct (Hl s Hs) as (d & -> & _). rewrite length_map, length_seqZ.
      split; [done|]. apply Forall_forall. intros label Hlabel.
      apply list_elem_of_fmap in Hlabel as (k & -> & _). apply targetEntry_binary. }
    split.
    + rewrite (concat_length_uniform _ 3), length_map; [done|].
      eapply Forall_impl; [exact Hparts|]. by intros p [? _].
    + apply Forall_concat. eapply Forall_impl; [exact Hparts|]. by intros p [_ ?].
Qed.

(** ** The first loader reads every line *)

Lemma splitOn_not_nil sep s current : splitOn sep s current <> [].
Proof.
  revert current. induction s as [|c s IH]; intros current; cbn; [done|].
  destruct (Ascii.eqb c sep); [done|apply IH].
Qed.

Lemma assign_fold_other (values : list text) (ps : list (nat * text))
    (acc : gmap string (option text)) key :
  (forall p, p ∈ ps -> LegacyCsv.keyOf p.2 <> key) ->
  fold_left (fun row p => LegacyCsv.assign row (LegacyCsv.keyOf p.2) (trim <$> values !! p.1))
    ps acc !! key = acc !! key.
Proof.
  revert acc. induction ps as [|p ps IH]; intros acc Hps; cbn [fold_left]; [done|].
  rewrite IH by (intros q Hq; apply Hps; by right).
  unfold LegacyCsv.assign. destruct (decide _); [done|].
  apply lookup_insert_ne. apply Hps. by left.
Qed.

Lemma assign_fold_dom (values : list text) (ps : list (nat * text))
    (acc : gmap string (option text)) key :
  is_Some (fold_left (fun row p =>
                        LegacyCsv.assign row (LegacyCsv.keyOf p.2) (trim <$> values !! p.1))
             ps acc !! key)
  <-> is_Some (acc !! key)
      \/ (key <> "__proto__"%string /\ exists p, p ∈ ps /\ LegacyCsv.keyOf p.2 = key).
Proof.
  revert acc. induction ps as [|p ps IH]; intros acc; cbn [fold_left].
  - split; [by left|]. intros [H|(_ & p & Hp & _)]; [done|]. by apply elem_of_nil in Hp.
  - rewrite IH. unfold LegacyCsv.assign.
    destruct (decide (LegacyCsv.keyOf p.2 = "__proto__"%string)) as [Hproto|Hproto].
    + split.
      * intros [H|(Hk & q & Hq & Hkey)]; [by left|].
        right. split; [done|]. exists q. split; [by right|done].
      * intros [H|(Hk & q & Hq & Hkey)]; [by left|].
        apply elem_of_cons in Hq as [->|Hq]; [congruence|].
        right. split; [done|]. by exists q.
    + destruct (decide (LegacyCsv.keyOf p.2 = key)) as [Heq|Hne].
      * rewrite Heq, lookup_insert_eq. split.
        -- intros _. right. split; [congruence|]. exists p. split; [by left|done].
        -- intros _. left. by eexists.
      * rewrite lookup_insert_ne by done. split.
        -- intros [H|(Hk & q & Hq & Hkey)]; [by left|].
           right. split; [done|]. exists q. split; [by right|done].
        -- intros [H|(Hk & q & Hq & Hkey)]; [by left|].
           apply elem_of_cons in Hq as [->|Hq]; [done|].
           right. split; [done|]. by exists q.
Qed.

Lemma rowOf_lookup headers values i h :
  headers !! i = Some h ->
  LegacyCsv.keyOf h <> "__proto__"%string ->
  (forall i' h', (i < i')%nat -> headers !! i' = Some h' ->
     LegacyCsv.keyOf h' <> LegacyCsv.keyOf h) ->
  LegacyCsv.rowOf headers values !! LegacyCsv.keyOf h = Some (trim <$> values !! i).
Proof.
  intros Hi Hproto Hlater. unfold LegacyCsv.rowOf.
  set (ps := imap (fun index header => (index, header)) headers).
  assert (Hps : ps !! i = Some (i, h)) by (unfold ps; by rewrite list_lookup_imap, Hi).
  rewrite <- (take_drop_middle ps i (i, h) Hps), fold_left_app. cbn [fold_left].
  rewrite assign_fold_other.
  - unfold LegacyCsv.assign. cbn [fst snd]. rewrite decide_False by done.
    apply lookup_insert_eq.
  - intros [i' h'] Hin. cbn [snd].
    apply list_elem_of_lookup in Hin as [k Hk]. rewrite lookup_drop in Hk.
    unfold ps in Hk. rewrite list_lookup_imap in Hk.
    destruct (headers !! (S i + k)%nat) as [h''|] eqn:Hh; [|done].
    cbn in Hk. injection Hk as <- <-. apply (Hlater (S i + k)%nat); [lia|done].
Qed.

Lemma rowOf_keys headers values key :
  is_Some (LegacyCsv.rowOf headers values !! key)
  <-> key <> "__proto__"%string /\ exists h, h ∈ headers /\ LegacyCsv.keyOf h = key.
Proof.
  unfold LegacyCsv.rowOf. rewrite assign_fold_dom, lookup_empty. split.
  - intros [[? H]|(Hk & [i h] & Hp & Hkey)]; [done|]. split; [done|].
    exists h. split; [|done].
    apply list_elem_of_lookup in Hp as [k Hk']. rewrite list_lookup_imap in Hk'.
    destruct (headers !! k) as [h'|] eqn:Hh; [|done]. cbn in Hk'. injection Hk' as <- <-.
    by eapply list_elem_of_lookup_2.
  - intros (Hk & h & Hh & Hkey). right. split; [done|].
    apply list_elem_of_lookup in Hh as [i Hi]. exists (i, h). split; [|done].
    apply list_elem_of_lookup. exists i. by rewrite list_lookup_imap, Hi.
Qed.

(** X28.  [parseCSV] of the first loader, for any text: once the text is
    trimmed, every line after the first gives a row, a blank or short line
    too (nothing is passed over and nothing is thrown).  The properties of
    a row are the trimmed names of the header (the name __proto__ apart,
    which sets nothing); the property of a header, when no later header
    has the same trimmed name, is the trimmed cell at the position of the
    header among the pieces of the line between commas, and [undefined]
    when the line has no such cell.  Quotes have no meaning. *)
Theorem legacy_parseCSV_rows (csvText : text) :
  let lines := splitOn LF (trim csvText) [] in
  let headers := splitOn comma (hd [] lines) [] in
  lines <> []
  /\ length (LegacyCsv.parseCSV csvText) = (length lines - 1)%nat
  /\ forall j line, tl lines !! j = Some line ->
       exists row,
         LegacyCsv.parseCSV csvText !! j = Some row
         /\ (forall key, is_Some (row !! key) <->
               key <> "__proto__"%string
               /\ exists h, h ∈ headers /\ LegacyCsv.keyOf h = key)
         /\ (forall i h, headers !! i = Some h ->
               LegacyCsv.keyOf h <> "__proto__"%string ->
               (forall i' h', (i < i')%nat -> headers !! i' = Some h' ->
                  LegacyCsv.keyOf h' <> LegacyCsv.keyOf h) ->
               row !! LegacyCsv.keyOf h = Some (trim <$> splitOn comma line [] !! i)).
Proof.
  cbn zeta. unfold LegacyCsv.parseCSV.
  split; [apply splitOn_not_nil|]. split.
  - rewrite length_map. destruct (splitOn LF (trim csvText) []); cbn; lia.
  - intros j line Hline. eexists. split.
    + change (map ?f ?l) with (f <$> l). by rewrite list_lookup_fmap, Hline.
    + split; [apply rowOf_keys|]. intros i h. apply rowOf_lookup.
Qed.
